(** * calibre: adaptive ensemble with a tail-free prior

    A shallow embedding of [calibre/model/adaptive_ensemble.py] and of the
    parts of TensorFlow, NumPy and Edward2 it calls.

    Conventions of the embedding.
    - Numbers are real numbers ([R]): float32/float64 rounding and dtypes are
      idealised away, so an equation below is an equation of the exact
      quantities the program approximates.
    - An array ([np.ndarray] or [tf.Tensor]) is a [tensor] of rank 0 to 3,
      nested lists in row-major order.  An axis of length 0 is represented
      only when it is the outermost one.
    - A Python [dict] is an association list in insertion order.
    - Declaring an Edward2 random variable appends it to a trace; its value
      is read from a [latent] environment indexed by the variable's name, so
      that "for every draw" is a quantification over that environment.
    - A Python exception is a value of [exn] carried by [result]. *)

From Stdlib Require Import String Ascii Reals Lra Lia Bool Arith ZArith List.
From Stdlib Require Import Decimal DecimalString.
Import ListNotations.

Local Open Scope string_scope.
Local Open Scope list_scope.
Local Open Scope R_scope.

(* ================================================================== *)
(** ** Exceptions and the two monads *)

Inductive exn : Type :=
| ValueError (msg : string)
| NotImplementedError
| KeyError (key : string)
| IndexError
| AxisError
| RecursionError
| RankLimit.   (* not a Python exception: an array of rank above 3 *)

Inductive result (A : Type) : Type :=
| Ok (a : A)
| Raise (e : exn).
Arguments Ok {A} a.
Arguments Raise {A} e.

Definition rbind {A B} (r : result A) (k : A -> result B) : result B :=
  match r with
  | Ok a => k a
  | Raise e => Raise e
  end.

Declare Scope result_scope.
Delimit Scope result_scope with result.
Notation "x <- e ;; k" := (rbind e (fun x => k))
  (at level 100, e at next level, right associativity) : result_scope.
Notation "' p <- e ;; k" := (rbind e (fun p => k))
  (at level 100, p pattern, e at next level, right associativity) : result_scope.
Local Open Scope result_scope.

Fixpoint mapM {A B} (f : A -> result B) (l : list A) : result (list B) :=
  match l with
  | [] => Ok []
  | a :: l' => b <- f a ;; bs <- mapM f l' ;; Ok (b :: bs)
  end.

Fixpoint map2M {A B C} (f : A -> B -> result C) (la : list A) (lb : list B)
  : result (list C) :=
  match la, lb with
  | a :: la', b :: lb' => c <- f a b ;; cs <- map2M f la' lb' ;; Ok (c :: cs)
  | _, _ => Ok []
  end.

(* ================================================================== *)
(** ** Arrays *)

Abbreviation vector := (list R).
Abbreviation matrix := (list (list R)).
Abbreviation cube := (list (list (list R))).

Inductive tensor : Type :=
| T0 (x : R)
| T1 (v : vector)
| T2 (m : matrix)
| T3 (c : cube).

Definition rank (t : tensor) : nat :=
  match t with T0 _ => 0 | T1 _ => 1 | T2 _ => 2 | T3 _ => 3 end.

(** [a.shape] *)
Definition shape (t : tensor) : list nat :=
  match t with
  | T0 _ => []
  | T1 v => [length v]
  | T2 m => [length m; length (hd [] m)]
  | T3 c => [length c; length (hd [] c); length (hd [] (hd [] c))]
  end.

Definition shape_eqb (s1 s2 : list nat) : bool :=
  if list_eq_dec Nat.eq_dec s1 s2 then true else false.

(** Well-formed (rectangular) arrays of a given shape. *)
Definition is_vector (n : nat) (v : vector) : Prop := length v = n.
Definition is_matrix (n k : nat) (m : matrix) : Prop :=
  length m = n /\ Forall (is_vector k) m.
Definition is_cube (s n k : nat) (c : cube) : Prop :=
  length c = s /\ Forall (is_matrix n k) c.

Definition sum (v : vector) : R := fold_right Rplus 0 v.

Fixpoint map2 {A B C} (f : A -> B -> C) (la : list A) (lb : list B) : list C :=
  match la, lb with
  | a :: la', b :: lb' => f a b :: map2 f la' lb'
  | _, _ => []
  end.

(** Column [j] of a list of rows, and the transpose of a list of rows; the
    number of columns is read off the first row. *)
Definition column {A} (j : nat) (rows : list (list A)) : list A :=
  flat_map (fun row => match nth_error row j with
                       | Some x => [x]
                       | None => []
                       end) rows.

Definition transpose {A} (rows : list (list A)) : list (list A) :=
  map (fun j => column j rows) (seq 0 (length (hd [] rows))).

(** [a.T]: all axes reversed. *)
Definition np_T (t : tensor) : tensor :=
  match t with
  | T0 x => T0 x
  | T1 v => T1 v
  | T2 m => T2 (transpose m)
  | T3 c => T3 (map transpose (transpose (map transpose c)))
  end.

(** [np.moveaxis(a, 0, -1)] *)
Definition np_moveaxis_0_last (t : tensor) : result tensor :=
  match t with
  | T0 _ => Raise AxisError
  | T1 v => Ok (T1 v)
  | T2 m => Ok (T2 (transpose m))
  | T3 c => Ok (T3 (map transpose (transpose c)))
  end.

(** Elementwise map, e.g. [tf.exp]. *)
Definition tmap (f : R -> R) (t : tensor) : tensor :=
  match t with
  | T0 x => T0 (f x)
  | T1 v => T1 (map f v)
  | T2 m => T2 (map (map f) m)
  | T3 c => T3 (map (map (map f)) c)
  end.

Definition tf_exp : tensor -> tensor := tmap exp.

(** *** Broadcasting binary operations ([tf.multiply], [+]) *)

Definition broadcast_error : exn :=
  ValueError "operands could not be broadcast together".

(** One axis: equal lengths go pairwise, an axis of length 1 is repeated. *)
Definition broadcast_axis {A} (f : A -> A -> result A) (la lb : list A)
  : result (list A) :=
  if Nat.eqb (length la) (length lb) then map2M f la lb
  else match la, lb with
       | [a], _ => mapM (f a) lb
       | _, [b] => mapM (fun a => f a b) la
       | _, _ => Raise broadcast_error
       end.

Definition broadcast1 (f : R -> R -> R) : vector -> vector -> result vector :=
  broadcast_axis (fun x y => Ok (f x y)).
Definition broadcast2 (f : R -> R -> R) : matrix -> matrix -> result matrix :=
  broadcast_axis (broadcast1 f).
Definition broadcast3 (f : R -> R -> R) : cube -> cube -> result cube :=
  broadcast_axis (broadcast2 f).

(** Axes of length 1 are prepended to the operand of lower rank. *)
Definition as_rank3 (t : tensor) : cube :=
  match t with
  | T0 x => [[[x]]]
  | T1 v => [[v]]
  | T2 m => [m]
  | T3 c => c
  end.

Definition of_rank3 (r : nat) (c : cube) : tensor :=
  match r with
  | 0 => T0 (hd 0 (hd [] (hd [] c)))
  | 1 => T1 (hd [] (hd [] c))
  | 2 => T2 (hd [] c)
  | _ => T3 c
  end.

Definition broadcast_op (f : R -> R -> R) (a b : tensor) : result tensor :=
  c <- broadcast3 f (as_rank3 a) (as_rank3 b) ;;
  Ok (of_rank3 (Nat.max (rank a) (rank b)) c).

Definition tf_multiply : tensor -> tensor -> result tensor := broadcast_op Rmult.
Definition tensor_add : tensor -> tensor -> result tensor := broadcast_op Rplus.

(** *** Reductions *)

Definition normalize_axis (axis : Z) (r : nat) : option nat :=
  let a := if (axis <? 0)%Z then (axis + Z.of_nat r)%Z else axis in
  if ((0 <=? a)%Z && (a <? Z.of_nat r)%Z)%bool then Some (Z.to_nat a) else None.

Definition reduction_error : exn := ValueError "Invalid reduction dimension".

(** [tf.reduce_sum(t, axis=axis)] *)
Definition tf_reduce_sum (t : tensor) (axis : Z) : result tensor :=
  match normalize_axis axis (rank t) with
  | None => Raise reduction_error
  | Some a =>
      match t, a with
      | T1 v, 0%nat => Ok (T0 (sum v))
      | T2 m, 0%nat => Ok (T1 (map sum (transpose m)))
      | T2 m, 1%nat => Ok (T1 (map sum m))
      | T3 c, 0%nat => Ok (T2 (map (map sum) (map transpose (transpose c))))
      | T3 c, 1%nat => Ok (T2 (map (fun m => map sum (transpose m)) c))
      | T3 c, 2%nat => Ok (T2 (map (map sum) c))
      | _, _ => Raise reduction_error
      end
  end.

(** *** Building arrays from Python lists *)

Definition ragged_error : exn :=
  ValueError "setting an array element with a sequence".

Definition as_T0 (t : tensor) : result R :=
  match t with T0 x => Ok x | _ => Raise ragged_error end.
Definition as_T1 (n : nat) (t : tensor) : result vector :=
  match t with
  | T1 v => if Nat.eqb (length v) n then Ok v else Raise ragged_error
  | _ => Raise ragged_error
  end.
Definition as_T2 (s : list nat) (t : tensor) : result matrix :=
  match t with
  | T2 m => if shape_eqb (shape t) s then Ok m else Raise ragged_error
  | _ => Raise ragged_error
  end.

(** [np.asarray(l)] and [np.asanyarray(l)] on a list of arrays of one shape. *)
Definition np_asarray (l : list tensor) : result tensor :=
  match l with
  | [] => Ok (T1 [])
  | T0 _ :: _ => v <- mapM as_T0 l ;; Ok (T1 v)
  | T1 v0 :: _ => m <- mapM (as_T1 (length v0)) l ;; Ok (T2 m)
  | T2 m0 :: _ => c <- mapM (as_T2 (shape (T2 m0))) l ;; Ok (T3 c)
  | T3 _ :: _ => Raise RankLimit
  end.

(** [tf.stack(values, axis=axis)]: the values are packed along a new first
    axis, which is then moved to position [axis]. *)
Definition tf_stack (values : list tensor) (axis : Z) : result tensor :=
  match values with
  | [] => Raise IndexError
  | t0 :: _ =>
      match normalize_axis axis (S (rank t0)) with
      | None => Raise (ValueError "axis out of range")
      | Some a =>
          packed <- np_asarray values ;;
          match packed, a with
          | T1 v, 0%nat => Ok (T1 v)
          | T2 m, 0%nat => Ok (T2 m)
          | T2 m, 1%nat => Ok (T2 (transpose m))
          | T3 c, 0%nat => Ok (T3 c)
          | T3 c, 1%nat => Ok (T3 (transpose c))
          | T3 c, 2%nat => Ok (T3 (map transpose (transpose c)))
          | _, _ => Raise (ValueError "axis out of range")
          end
      end
  end.

(** [t[..., k]]: index [k] on the last axis. *)
Definition index_last (k : nat) (t : tensor) : result tensor :=
  match t with
  | T0 _ => Raise IndexError
  | T1 v => match nth_error v k with
            | Some x => Ok (T0 x)
            | None => Raise IndexError
            end
  | T2 m => v <- mapM (fun row => match nth_error row k with
                                  | Some x => Ok x
                                  | None => Raise IndexError
                                  end) m ;;
            Ok (T1 v)
  | T3 c => m <- mapM (mapM (fun row => match nth_error row k with
                                        | Some x => Ok x
                                        | None => Raise IndexError
                                        end)) c ;;
            Ok (T2 m)
  end.

(* ================================================================== *)
(** ** Python dictionaries, tuples and messages *)

Definition dict (V : Type) : Type := list (string * V).

Fixpoint dict_find {V} (d : dict V) (key : string) : option V :=
  match d with
  | [] => None
  | (k, v) :: d' => if String.eqb k key then Some v else dict_find d' key
  end.

(** [d[key]] *)
Definition dict_get {V} (d : dict V) (key : string) : result V :=
  match dict_find d key with
  | Some v => Ok v
  | None => Raise (KeyError key)
  end.

Definition keys {V} (d : dict V) : list string := map fst d.
Definition values {V} (d : dict V) : list V := map snd d.

(** [bool(d)] for an argument that is a dictionary or [None]. *)
Definition truthy {V} (d : option (dict V)) : bool :=
  match d with
  | Some (_ :: _) => true
  | _ => false
  end.

Definition str_of_nat (n : nat) : string :=
  NilZero.string_of_uint (Nat.to_uint n).

(** [str(t)] for a tuple of integers: [()], [(3,)], [(3, 4)]. *)
Definition str_of_shape (s : list nat) : string :=
  match s with
  | [] => "()"
  | [n] => "(" ++ str_of_nat n ++ ",)"
  | n :: s' =>
      "(" ++ str_of_nat n
          ++ fold_right (fun k acc => ", " ++ str_of_nat k ++ acc) ")" s'
  end%string.

(** [a, b = s] and [a, = s] *)
Definition unpack_error (expected got : nat) : exn :=
  ValueError
    (if Nat.ltb got expected
     then "not enough values to unpack (expected " ++ str_of_nat expected
          ++ ", got " ++ str_of_nat got ++ ")"
     else "too many values to unpack (expected " ++ str_of_nat expected ++ ")")%string.

Definition unpack2 (s : list nat) : result (nat * nat) :=
  match s with
  | [a; b] => Ok (a, b)
  | _ => Raise (unpack_error 2 (length s))
  end.

Definition unpack1 (s : list nat) : result nat :=
  match s with
  | [a] => Ok a
  | _ => Raise (unpack_error 1 (length s))
  end.

(* ================================================================== *)
(** ** Edward2 random variables *)

(** A kernel function is known by its name; [rbf] is [gp.rbf]. *)
Inductive kernel_func : Type :=
| rbf
| kernel (name : string).

(** Keyword arguments forwarded through [**kwargs]. *)
Definition kwargs : Type := list (string * R).

Inductive distribution : Type :=
| Normal (loc : tensor) (scale : R)
| GaussianProcess (X : tensor) (kern : kernel_func) (ridge_factor : option R)
                  (kw : kwargs)
| MultivariateNormalDiag (loc : tensor) (scale_identity_multiplier : tensor).

Record random_variable : Type := {
  rv_name : string;
  rv_dist : distribution;
  rv_value : tensor
}.

(** The drawn value of every latent, by variable name and flat index. *)
Definition latent : Type := string -> nat -> R.

Definition draw (env : latent) (name : string) (s : list nat) : tensor :=
  match s with
  | [] => T0 (env name 0%nat)
  | [n] => T1 (map (env name) (seq 0 n))
  | [n; k] =>
      T2 (map (fun i => map (fun j => env name (i * k + j)%nat) (seq 0 k))
              (seq 0 n))
  | s0 :: n :: k :: _ =>
      T3 (map (fun h =>
                 map (fun i =>
                        map (fun j => env name ((h * n + i) * k + j)%nat)
                            (seq 0 k))
                     (seq 0 n))
              (seq 0 s0))
  end.

Definition trace : Type := list random_variable.

(** Model construction: declared random variables are appended to the trace,
    which is kept when an exception is raised. *)
Definition M (A : Type) : Type := trace -> result A * trace.

Definition ret {A} (a : A) : M A := fun tr => (Ok a, tr).
Definition raise {A} (e : exn) : M A := fun tr => (Raise e, tr).
Definition bind {A B} (m : M A) (k : A -> M B) : M B :=
  fun tr => match m tr with
            | (Ok a, tr') => k a tr'
            | (Raise e, tr') => (Raise e, tr')
            end.
Definition lift {A} (r : result A) : M A := fun tr => (r, tr).

Declare Scope model_scope.
Delimit Scope model_scope with model.
Notation "x <~ e ;; k" := (bind e (fun x => k))
  (at level 100, e at next level, right associativity) : model_scope.
Notation "' p <~ e ;; k" := (bind e (fun p => k))
  (at level 100, p pattern, e at next level, right associativity) : model_scope.
Local Open Scope model_scope.

Fixpoint for_each {A B} (f : A -> M B) (l : list A) : M (list B) :=
  match l with
  | [] => ret []
  | a :: l' => b <~ f a ;; bs <~ for_each f l' ;; ret (b :: bs)
  end.

Definition declare (env : latent) (name : string) (d : distribution)
           (s : list nat) : M random_variable :=
  fun tr =>
    let v := {| rv_name := name; rv_dist := d; rv_value := draw env name s |} in
    (Ok v, tr ++ [v]).

(** [ed.Normal(loc=loc, scale=scale, name=name)] *)
Definition ed_Normal (env : latent) (loc : tensor) (scale : R) (name : string)
  : M random_variable :=
  declare env name (Normal loc scale) (shape loc).

(** [ed.MultivariateNormalDiag(loc=loc, scale_identity_multiplier=c, name=name)] *)
Definition ed_MultivariateNormalDiag (env : latent) (loc c : tensor)
           (name : string) : M random_variable :=
  declare env name (MultivariateNormalDiag loc c) (shape loc).

(** The scale matrix [c * I] of a [MultivariateNormalDiag] over [n] points and
    the covariance [scale @ scale.T] it stands for. *)
Definition scale_matrix (n : nat) (c : R) : matrix :=
  map (fun i => map (fun j => if Nat.eqb i j then c else 0) (seq 0 n)) (seq 0 n).

Definition dot (u v : vector) : R := sum (map2 Rmult u v).

Definition matmul_T (a b : matrix) : matrix :=
  map (fun row => map (dot row) b) a.

Definition covariance (d : distribution) : option matrix :=
  match d with
  | MultivariateNormalDiag (T1 loc) (T0 c) =>
      let s := scale_matrix (length loc) c in Some (matmul_T s s)
  | _ => None
  end.

Definition mean (d : distribution) : option tensor :=
  match d with
  | Normal loc _ => Some loc
  | GaussianProcess X _ _ _ => Some (T1 (repeat 0 (hd 0%nat (shape X))))
  | MultivariateNormalDiag loc _ => Some loc
  end.

(* ================================================================== *)
(** ** calibre.model.gaussian_process *)

Module gp.

(** Modelled from the spec: [gp.prior] of calibre/model/gaussian_process.py,
    which is not among the source files.  It declares a zero-mean
    multivariate normal latent vector over the rows of [X], one entry per
    evaluation point, with the covariance of the kernel. *)
Definition prior (env : latent) (X : tensor) (kern : kernel_func)
           (ridge_factor : option R) (name : string) (kw : kwargs) : M tensor :=
  match shape X with
  | [] => raise IndexError
  | N :: _ =>
      f <~ declare env name (GaussianProcess X kern ridge_factor kw) [N] ;;
      ret (rv_value f)
  end.

End gp.

(* ================================================================== *)
(** ** calibre.model.tailfree_process *)

(** A link function takes the stacked raw weights and a temperature; its
    [name=] keyword only labels the node of the computation graph. *)
Definition link : Type := tensor -> tensor -> result tensor.

(** The family tree: parent name to the ordered list of its children. *)
Definition family_tree : Type := dict (list string).

Module tail_free.

(** Modelled from the spec: the reserved name of the root of
    calibre/model/tailfree_process.py, which is not among the source files
    (the spec's scenarios write the flat tree as a mapping from "root"). *)
Definition ROOT_NODE_DEFAULT_NAME : string := "root".

(** Modelled from the spec: [get_parent_node_names] of the absent
    tailfree_process.py: every key of the mapping that has children. *)
Definition get_parent_node_names (tree : family_tree) : list string :=
  keys (filter (fun kv => match snd kv with [] => false | _ => true end) tree).

(** Modelled from the spec: [get_nonroot_node_names] of the absent
    tailfree_process.py: every name that appears as a child. *)
Definition get_nonroot_node_names (tree : family_tree) : list string :=
  concat (values tree).

(** Modelled from the spec: the children of a node of the tree of the absent
    tailfree_process.py; [None] for a leaf, which is no key of the mapping
    or has no children. *)
Definition children_of (tree : family_tree) (node : string)
  : option (list string) :=
  match dict_find tree node with
  | Some (c :: cs) => Some (c :: cs)
  | _ => None
  end.

(** Modelled from the spec: [compute_cond_weights] of the absent
    tailfree_process.py.  For each parent the raw weights of its children are
    stacked on a new last axis, in the order of the tree's list, and the link
    function is applied to the stack and the exponential of the parent's
    temperature. *)
Definition compute_cond_weights (link_func : link) (tree : family_tree)
           (raw_weights_dict parent_temp_dict : dict tensor)
  : result (dict tensor) :=
  mapM (fun parent =>
          children <- dict_get tree parent ;;
          raw <- mapM (dict_get raw_weights_dict) children ;;
          stacked <- tf_stack raw (-1) ;;
          temp <- dict_get parent_temp_dict parent ;;
          w <- link_func stacked (tf_exp temp) ;;
          Ok (parent, w))
       (get_parent_node_names tree).

(** Modelled from the spec: the depth-first composition inside
    [compute_leaf_weights] of the absent tailfree_process.py.  [acc] is the
    product of the conditional weights on the path from the root to [node];
    [depth] is the interpreter's recursion limit. *)
Fixpoint leaf_weights (depth : nat) (tree : family_tree)
         (node_weights : dict tensor) (node : string) (acc : option tensor)
  : result (list (string * tensor)) :=
  match children_of tree node with
  | None =>
      match acc with
      | Some w => Ok [(node, w)]
      | None => Raise (KeyError node)
      end
  | Some children =>
      match depth with
      | O => Raise RecursionError
      | S depth' =>
          W <- dict_get node_weights node ;;
          below <- mapM (fun kc =>
                           col <- index_last (fst kc) W ;;
                           w <- match acc with
                                | None => Ok col
                                | Some a => tf_multiply a col
                                end ;;
                           leaf_weights depth' tree node_weights (snd kc) (Some w))
                        (combine (seq 0 (length children)) children) ;;
          Ok (concat below)
      end
  end.

(** Modelled from the spec: [compute_leaf_weights] of the absent
    tailfree_process.py: the leaf weights, stacked on a new last axis, and
    the leaf names in the same column order. *)
Definition compute_leaf_weights (depth : nat) (node_weights : dict tensor)
           (tree : family_tree) : result (tensor * list string) :=
  leaves <- leaf_weights depth tree node_weights ROOT_NODE_DEFAULT_NAME None ;;
  W <- tf_stack (values leaves) (-1) ;;
  Ok (W, keys leaves).

(** Modelled from the spec: the tree that a missing or empty [family_tree]
    stands for in the absent tailfree_process.py: one parent, every base
    model its child. *)
Definition flat_tree {V} (base_pred : dict V) : family_tree :=
  [(ROOT_NODE_DEFAULT_NAME, keys base_pred)].

Section Prior.

(** The constants [_TEMP_PRIOR_MEAN] and [_TEMP_PRIOR_SDEV] of the absent
    tailfree_process.py. *)
Variables _TEMP_PRIOR_MEAN _TEMP_PRIOR_SDEV : R.

(** Modelled from the spec: [prior] of the absent tailfree_process.py.  A
    temperature prior named [temp_<node>] is declared for every parent and a
    weight GP named [base_weight_<node>] for every node that is not the root
    (the names are those the example scripts build), and the conditional
    weights are composed into leaf weights. *)
Definition prior (env : latent) (link_func : link) (kern : kernel_func)
           (ridge_factor : R) (depth : nat)
           (X : tensor) (base_pred : dict tensor)
           (tree : option family_tree) (ls : R) (kw : kwargs)
  : M (tensor * list string) :=
  let tree := if truthy tree
              then match tree with Some t => t | None => [] end
              else flat_tree base_pred in
  temps <~ for_each (fun parent =>
                       t <~ ed_Normal env (T0 _TEMP_PRIOR_MEAN) _TEMP_PRIOR_SDEV
                                      ("temp_" ++ parent)%string ;;
                       ret (parent, rv_value t))
                    (get_parent_node_names tree) ;;
  raws <~ for_each (fun node =>
                      w <~ gp.prior env X kern (Some ridge_factor)
                                    ("base_weight_" ++ node)%string (("ls", ls) :: kw) ;;
                      ret (node, w))
                   (get_nonroot_node_names tree) ;;
  cond <~ lift (compute_cond_weights link_func tree raws temps) ;;
  lift (compute_leaf_weights depth cond tree).

End Prior.

End tail_free.

(* ================================================================== *)
(** ** calibre.model.adaptive_ensemble *)

Definition _NOISE_PRIOR_MEAN : R := -5.
Definition _NOISE_PRIOR_SDEV : R := 1.

(** [sparse_conditional_weight(X, base_pred, temp, family_tree, kernel_func,
    link_func, ridge_factor, name, **kwargs)]; [name] labels the node of the
    computation graph and is left out. *)
Definition sparse_conditional_weight (env : latent) (X : tensor)
           (base_pred : dict tensor) (temp : tensor)
           (tree : option family_tree) (kern : kernel_func)
           (link_func : link) (ridge_factor : R) (kw : kwargs) : M tensor :=
  if truthy tree then raise NotImplementedError
  else
    let base_names := keys base_pred in
    W_list <~ for_each (fun base_name =>
                          gp.prior env X kern (Some ridge_factor)
                                   ("base_weight_" ++ base_name)%string kw)
                       base_names ;;
    W_raw <~ lift (tf_stack W_list 1) ;;
    lift (link_func W_raw (tf_exp temp)).

(** The message of the dimension check. *)
Definition dimension_message (N : nat) (observed : list nat) (key : string)
  : string :=
  ("All base-model predictions should have shape (" ++ str_of_nat N
     ++ ",), butobserved " ++ str_of_shape observed
     ++ " for '" ++ key ++ "'")%string.

(** [for key, value in base_pred.items(): if not value.shape == (N,): raise] *)
Fixpoint check_dimension (N : nat) (base_pred : dict tensor) : result unit :=
  match base_pred with
  | [] => Ok tt
  | (key, value) :: rest =>
      if negb (shape_eqb (shape value) [N])
      then Raise (ValueError (dimension_message N (shape value) key))
      else check_dimension N rest
  end.

Section Models.

(** [tail_free._TEMP_PRIOR_MEAN] and [tail_free._TEMP_PRIOR_SDEV], constants
    of the absent tailfree_process.py. *)
Variables _TEMP_PRIOR_MEAN _TEMP_PRIOR_SDEV : R.

(** [model_flat(X, base_pred, family_tree, ls_weight, ls_resid, **kwargs)];
    [kern], [link_func] and [ridge_factor] are the keywords of
    [sparse_conditional_weight] that [**kwargs] may carry. *)
Definition model_flat (env : latent) (X : tensor) (base_pred : dict tensor)
           (tree : option family_tree) (ls_weight ls_resid : R)
           (kern : kernel_func) (link_func : link) (ridge_factor : R)
           (kw : kwargs) : M random_variable :=
  (* check dimension *)
  ' (N, D) <~ lift (unpack2 (shape X)) ;;
  _ <~ lift (check_dimension N base_pred) ;;
  (* specify tail-free priors for ensemble weight *)
  temp <~ (if negb (truthy tree)
           then ed_Normal env (T0 _TEMP_PRIOR_MEAN) _TEMP_PRIOR_SDEV "temp"
           else ed_Normal env
                          (T1 (repeat _TEMP_PRIOR_MEAN
                                      (match tree with
                                       | Some t => length t
                                       | None => 0%nat
                                       end)))
                          _TEMP_PRIOR_SDEV "temp") ;;
  (* specify ensemble weight *)
  W <~ sparse_conditional_weight env X base_pred (rv_value temp) tree kern
                                 link_func ridge_factor (("ls", ls_weight) :: kw) ;;
  (* specify ensemble prediction *)
  F0 <~ lift (np_asarray (values base_pred)) ;;
  let F := np_T F0 in
  FW <~ lift (tf_multiply F W) ;;
  ensemble_mean <~ lift (tf_reduce_sum FW 1) ;;
  (* specify residual process *)
  ensemble_resid <~ gp.prior env X rbf None "ensemble_resid" [("ls", ls_resid)] ;;
  (* specify observation noise *)
  sigma <~ ed_Normal env (T0 _NOISE_PRIOR_MEAN) _NOISE_PRIOR_SDEV "sigma" ;;
  (* specify observation *)
  loc <~ lift (tensor_add ensemble_mean ensemble_resid) ;;
  ed_MultivariateNormalDiag env loc (tf_exp (rv_value sigma)) "y".

End Models.

(** [model_tailfree(X, base_pred, family_tree, ls_weight, ls_resid, **kwargs)];
    [tail_free_prior] is [tail_free.prior], looked up when the model is
    built, applied to [X], [base_pred], [family_tree], [ls] and [**kwargs]. *)
Definition model_tailfree
           (tail_free_prior : tensor -> dict tensor -> option family_tree ->
                              R -> kwargs -> M (tensor * list string))
           (env : latent) (X : tensor) (base_pred : dict tensor)
           (tree : option family_tree) (ls_weight ls_resid : R) (kw : kwargs)
  : M random_variable :=
  (* check dimension *)
  ' (N, D) <~ lift (unpack2 (shape X)) ;;
  _ <~ lift (check_dimension N base_pred) ;;
  (* specify tail-free priors for ensemble weight *)
  ' (ensemble_weights, model_names) <~
      tail_free_prior X base_pred tree ls_weight kw ;;
  (* specify ensemble prediction *)
  preds <~ lift (mapM (dict_get base_pred) model_names) ;;
  B0 <~ lift (np_asarray preds) ;;
  let base_models := np_T B0 in
  FW <~ lift (tf_multiply base_models ensemble_weights) ;;
  ensemble_mean <~ lift (tf_reduce_sum FW 1) ;;
  (* specify residual process *)
  ensemble_resid <~ gp.prior env X rbf None "ensemble_resid" [("ls", ls_resid)] ;;
  (* specify observation noise *)
  sigma <~ ed_Normal env (T0 _NOISE_PRIOR_MEAN) _NOISE_PRIOR_SDEV "sigma" ;;
  (* specify observation *)
  loc <~ lift (tensor_add ensemble_mean ensemble_resid) ;;
  ed_MultivariateNormalDiag env loc (tf_exp (rv_value sigma)) "y".

(** The [weight_sample] argument: a Python list of arrays or one array. *)
Inductive weight_sample_arg : Type :=
| PyList (l : list tensor)
| NdArray (a : tensor).

Definition sample_size_message (observed : list nat) (N_sample : nat) : string :=
  ("Sample size of weight_sample (dim=" ++ str_of_shape observed
     ++ ") doesn't match that of the temp_sample (" ++ str_of_nat N_sample
     ++ ")")%string.

(** [sample_posterior_weight_flat(weight_sample, temp_sample, link_func)] *)
Definition sample_posterior_weight_flat (weight_sample : weight_sample_arg)
           (temp_sample : tensor) (link_func : link) : result tensor :=
  N_sample <- unpack1 (shape temp_sample) ;;
  weight_sample <-
    match weight_sample with
    | PyList l =>
        a <- np_asarray l ;;
        (* shape is now (N_sample, N_obs, K) *)
        a <- np_moveaxis_0_last a ;;
        match shape a with
        | [] => Raise IndexError
        | s0 :: _ =>
            if negb (Nat.eqb s0 N_sample)
            then Raise (ValueError (sample_size_message (shape a) N_sample))
            else Ok a
        end
    | NdArray a => Ok a
    end ;;
  (* compute ensemble weights *)
  link_func weight_sample (tf_exp temp_sample).

(** [sample_posterior_mean_flat(base_pred, weight_sample, temp_sample, link_func)] *)
Definition sample_posterior_mean_flat (base_pred : dict tensor)
           (weight_sample : weight_sample_arg) (temp_sample : tensor)
           (link_func : link) : result tensor :=
  W_sample <- sample_posterior_weight_flat weight_sample temp_sample link_func ;;
  F0 <- np_asarray (values base_pred) ;;
  let F := np_T F0 in
  FW_sample <- tf_multiply F W_sample ;;
  tf_reduce_sum FW_sample 2.

(** [sample_posterior_tailfree(X, base_pred_dict, family_tree, weight_gp_dict,
    temp_dict, resid_gp_sample, kernel_func, ls_weight, link_func,
    ridge_factor)]; the two functions of [tail_free] it calls are looked up
    when it runs.  A [family_tree] of [None] is left out: the spec does not
    say what the tail-free functions make of it. *)
Definition sample_posterior_tailfree
           (compute_cond_weights :
              tensor -> family_tree -> dict tensor -> dict tensor ->
              kernel_func -> link -> R -> R -> result (dict tensor))
           (compute_leaf_weights :
              dict tensor -> family_tree -> result (tensor * list string))
           (X : tensor) (base_pred_dict : dict tensor) (tree : family_tree)
           (weight_gp_dict temp_dict : dict tensor) (resid_gp_sample : tensor)
           (kern : kernel_func) (ls_weight : R) (link_func : link)
           (ridge_factor : R)
  : result (tensor * tensor * tensor * dict tensor * list string) :=
  cond_weight_tensors_dict <-
    compute_cond_weights X tree weight_gp_dict temp_dict kern link_func
                         ridge_factor ls_weight ;;
  ' (ensemble_weight_tensors, ensemble_model_names) <-
    compute_leaf_weights cond_weight_tensors_dict tree ;;
  preds <- mapM (dict_get base_pred_dict) ensemble_model_names ;;
  B0 <- np_asarray preds ;;
  let base_model_pred := np_T B0 in
  FW <- tf_multiply base_model_pred ensemble_weight_tensors ;;
  ensemble_mean <- tf_reduce_sum FW (-1) ;;
  (* compute sample for full posterior *)
  ensemble_sample <- tensor_add ensemble_mean resid_gp_sample ;;
  Ok (ensemble_sample, ensemble_mean, ensemble_weight_tensors,
      cond_weight_tensors_dict, ensemble_model_names).

(** The tail-free functions as [sample_posterior_tailfree] calls them. *)
Definition tail_free_compute_cond_weights
           (X : tensor) (tree : family_tree)
           (raw_weights_dict parent_temp_dict : dict tensor)
           (kern : kernel_func) (link_func : link) (ridge_factor ls : R)
  : result (dict tensor) :=
  tail_free.compute_cond_weights link_func tree raw_weights_dict parent_temp_dict.

(* ================================================================== *)
(** ** The statements of the claims *)

(** A row of weights is a probability vector. *)
Definition row_stochastic (row : vector) : Prop :=
  sum row = 1 /\ Forall (fun x => 0 <= x <= 1) row.

(** The prediction of base model [name] at evaluation point [n]. *)
Definition pred_at (base_pred : dict tensor) (n : nat) (name : string) : R :=
  match dict_find base_pred name with
  | Some (T1 v) => nth n v 0
  | _ => 0
  end.

(** The specification's ensemble mean over [N] evaluation points: at point
    [n], the dot product of the base-model predictions, in the order of
    [leaf_names], with row [n] of the leaf weights, plus the residual at
    [n]. *)
Definition predictive_mean (N : nat) (base_pred : dict tensor)
           (leaf_names : list string) (leaf_weights : matrix)
           (residual : vector) : vector :=
  map (fun n => dot (map (pred_at base_pred n) leaf_names) (nth n leaf_weights [])
                + nth n residual 0)
      (seq 0 N).

(** The same without the residual. *)
Definition weighted_mean (N : nat) (base_pred : dict tensor)
           (leaf_names : list string) (leaf_weights : matrix) : vector :=
  map (fun n => dot (map (pred_at base_pred n) leaf_names) (nth n leaf_weights []))
      (seq 0 N).

(** The predictions of model [name] at the [N] evaluation points. *)
Definition pred_vector (N : nat) (base_pred : dict tensor) (name : string)
  : vector :=
  map (fun n => pred_at base_pred n name) (seq 0 N).

(** The predictions of the models [names], one row per evaluation point. *)
Definition pred_matrix (N : nat) (base_pred : dict tensor)
           (names : list string) : matrix :=
  map (fun n => map (pred_at base_pred n) names) (seq 0 N).

(** The first entry of [base_pred], in dictionary order, whose shape is not
    [(N,)]. *)
Definition first_mismatch (N : nat) (base_pred : dict tensor)
  : option (string * tensor) :=
  find (fun kv => negb (shape_eqb (shape (snd kv)) [N])) base_pred.

(** The random variable a weight GP of [sparse_conditional_weight] is. *)
Definition weight_gp (env : latent) (X : tensor) (kern : kernel_func)
           (ridge_factor : R) (kw : kwargs) (N : nat) (base_name : string)
  : random_variable :=
  let name := ("base_weight_" ++ base_name)%string in
  {| rv_name := name;
     rv_dist := GaussianProcess X kern (Some ridge_factor) kw;
     rv_value := T1 (map (env name) (seq 0 N)) |}.

(** The stacked raw weights of [sparse_conditional_weight]: row [n] holds the
    draw at point [n] of the weight GP of every base model, in the order of
    [names]. *)
Definition raw_weight_matrix (env : latent) (N : nat) (names : list string)
  : matrix :=
  map (fun n => map (fun name => env ("base_weight_" ++ name)%string n) names)
      (seq 0 N).

(** A temperature prior by name. *)
Definition temperature (env : latent) (mu sd : R) (name : string)
  : random_variable :=
  {| rv_name := name;
     rv_dist := Normal (T0 mu) sd;
     rv_value := T0 (env name 0%nat) |}.

(** The random variables both models declare last, after the weights. *)
Definition observation_trace (env : latent) (X : tensor) (lr : R) (N : nat)
           (y : random_variable) : trace :=
  [{| rv_name := "ensemble_resid";
      rv_dist := GaussianProcess X rbf None [("ls", lr)];
      rv_value := T1 (map (env "ensemble_resid") (seq 0 N)) |};
   {| rv_name := "sigma";
      rv_dist := Normal (T0 _NOISE_PRIOR_MEAN) _NOISE_PRIOR_SDEV;
      rv_value := T0 (env "sigma" 0%nat) |};
   y].

(** What the observation [y] of a model is, over [N] evaluation points with
    ensemble mean [ensemble_mean], given the trace [tr'] the model leaves
    behind.  The residual GP ["ensemble_resid"] and the noise prior ["sigma"]
    are declared, and [y] is declared last, under the name ["y"].  It is a
    multivariate normal: its mean is, point by point, the ensemble mean plus
    the draw of the residual GP; its scale is [exp sigma] times the identity,
    for the draw [sigma] of the noise prior; so its covariance is the
    [N] by [N] matrix with [exp (2 * sigma)] on the diagonal and zero
    elsewhere. *)
Definition gaussian_observation (env : latent) (X : tensor) (lr : R) (N : nat)
           (ensemble_mean : vector) (tr' : trace) (y : random_variable) : Prop :=
  let ensemble_resid := map (env "ensemble_resid") (seq 0 N) in
  let sigma := env "sigma" 0%nat in
  let loc := map2 Rplus ensemble_mean ensemble_resid in
  In {| rv_name := "ensemble_resid";
        rv_dist := GaussianProcess X rbf None [("ls", lr)];
        rv_value := T1 ensemble_resid |} tr'
  /\ In {| rv_name := "sigma";
           rv_dist := Normal (T0 _NOISE_PRIOR_MEAN) _NOISE_PRIOR_SDEV;
           rv_value := T0 sigma |} tr'
  /\ (exists tr0, tr' = tr0 ++ [y])
  /\ rv_name y = "y"
  /\ rv_dist y = MultivariateNormalDiag (T1 loc) (T0 (exp sigma))
  /\ length loc = N
  /\ (forall n, (n < N)%nat ->
                nth n loc 0 = nth n ensemble_mean 0 + env "ensemble_resid" n)
  /\ mean (rv_dist y) = Some (T1 loc)
  /\ exists cov,
      covariance (rv_dist y) = Some cov
      /\ is_matrix N N cov
      /\ forall i j, (i < N)%nat -> (j < N)%nat ->
                     nth j (nth i cov []) 0
                     = if Nat.eqb i j then exp (2 * sigma) else 0.

(* ================================================================== *)
(** ** Valid trees and simplex links *)

(** Every path from [node] down to a leaf passes at most [depth] parents:
    the tree below [node] is finite and has no cycle. *)
Fixpoint within_depth (depth : nat) (tree : family_tree) (node : string) : bool :=
  match tail_free.children_of tree node with
  | None => true
  | Some children =>
      match depth with
      | O => false
      | S depth' => forallb (within_depth depth' tree) children
      end
  end.

(** The contract of a link function on samples: for logits of shape
    [(S, N, K)], [K >= 1], and one temperature per sample, it returns an array
    of the same shape whose rows are probability vectors. *)
Definition simplex_link (Ns N : nat) (link_func : link) : Prop :=
  forall (K : nat) (logits : cube) (temp : vector),
    (1 <= K)%nat -> is_cube Ns N K logits -> length temp = Ns ->
    exists w,
      link_func (T3 logits) (tf_exp (T1 temp)) = Ok (T3 w)
      /\ is_cube Ns N K w
      /\ Forall (Forall row_stochastic) w.

(** A leaf of the tree that some parent lists. *)
Definition is_leaf (tree : family_tree) (name : string) : Prop :=
  tail_free.children_of tree name = None
  /\ In name (tail_free.get_nonroot_node_names tree).

(** What a conditional-weight dictionary must hold for the composition. *)
Definition conditional_weights (Ns N : nat) (tree : family_tree)
           (cond : dict tensor) : Prop :=
  forall p cs,
    tail_free.children_of tree p = Some cs ->
    exists w,
      dict_find cond p = Some (T3 w)
      /\ is_cube Ns N (length cs) w
      /\ Forall (Forall row_stochastic) w.

(** Entry [(s, n)] of a matrix and of an array of rank 2. *)
Definition at2 (m : matrix) (s n : nat) : R := nth n (nth s m []) 0.

Definition tensor_at2 (t : tensor) (s n : nat) : R :=
  match t with
  | T2 m => at2 m s n
  | _ => 0
  end.

(** The weight accumulated on the way to a node; 1 at the root. *)
Definition acc_at2 (acc : option tensor) (s n : nat) : R :=
  match acc with
  | Some t => tensor_at2 t s n
  | None => 1
  end.

(** An array of shape [(S, N)] with entries between 0 and 1. *)
Definition unit_weights (Ns N : nat) (t : tensor) : Prop :=
  exists m, t = T2 m /\ is_matrix Ns N m
            /\ forall s n, (s < Ns)%nat -> (n < N)%nat -> 0 <= at2 m s n <= 1.

(** The array of shape [(S, N, ...)] with entry [f s n] at [(s, n)]. *)
Definition tabulate2 {A} (Ns N : nat) (f : nat -> nat -> A) : list (list A) :=
  map (fun s => map (fun n => f s n) (seq 0 N)) (seq 0 Ns).

(* ================================================================== *)
(** ** A small configuration to run the models on *)

Module Ex.

(** Two evaluation points with one feature, two base models. *)
Definition X : tensor := T2 [[0]; [1]].
Definition base_pred : dict tensor := [("a", T1 [10; 20]); ("b", T1 [30; 40])].

(** The same with a prediction of the wrong length for model ["b"]. *)
Definition bad_pred : dict tensor :=
  [("a", T1 [10; 20]); ("b", T1 [30; 40; 50])].

Definition tree : family_tree := [("root", ["a"; "b"])].

(** Every latent is drawn as zero. *)
Definition env : latent := fun _ _ => 0.

(** Softmax of a row at temperature [t]. *)
Definition softmax_row (t : R) (row : vector) : vector :=
  map (fun x => exp (x * t) / sum (map (fun y => exp (y * t)) row)) row.

(** A link function: softmax along the last axis, with one temperature for
    the whole array or one per sample. *)
Definition softmax : link :=
  fun logits temp =>
    match logits, temp with
    | T1 v, T0 t => Ok (T1 (softmax_row t v))
    | T2 m, T0 t => Ok (T2 (map (softmax_row t) m))
    | T3 c, T1 ts =>
        if Nat.eqb (length c) (length ts)
        then Ok (T3 (map2 (fun m t => map (softmax_row t) m) c ts))
        else Raise broadcast_error
    | _, _ => Raise broadcast_error
    end.

(** A link function that hands back the temperature it is given. *)
Definition probe : link := fun _ temp => Ok temp.

End Ex.

(** Samples for [sample_posterior_tailfree]: two draws of the raw weights of
    each model at the two points, of the root's temperature and of the
    residual. *)
Module ExSample.

Definition weight_gp_dict : dict tensor :=
  [("a", T2 [[0; 0]; [1; 1]]); ("b", T2 [[1; 0]; [0; 1]])].
Definition temp_dict : dict tensor := [("root", T1 [0; 0])].
Definition resid : matrix := [[1; 2]; [3; 4]].

End ExSample.

(** The scenarios of the specification: one point and two models under the
    flat tree, raw weights 0 and 1, temperature 0, no residual; and a tree of
    two levels. *)
Module Scenario.

Definition X : tensor := T2 [[0]].
Definition base_pred : dict tensor := [("a", T1 [10]); ("b", T1 [20])].

Definition env : latent :=
  fun name _ => if String.eqb name "base_weight_b" then 1 else 0.

Definition two_level_tree : family_tree :=
  [("root", ["g1"]); ("g1", ["m1"; "m2"])].

End Scenario.

(** A tree with a leaf, ["c"], that is no base model of [Ex.base_pred], and
    samples for its nodes. *)
Module ExMissing.

Definition tree : family_tree := [("root", ["a"; "c"])].
Definition weight_gp_dict : dict tensor :=
  [("a", T2 [[0; 0]; [1; 1]]); ("c", T2 [[1; 0]; [0; 1]])].

End ExMissing.

(** Draws with a noise parameter that is not zero: [sigma] is drawn as 2
    and every other latent as zero. *)
Module ExSigma.

Definition env : latent :=
  fun name _ => if String.eqb name "sigma" then 2 else 0.

End ExSigma.

(* ================================================================== *)
(** ** example/calibre_1d_hierarchical.py, example/calibre_2d_hierarchical.py *)

(** *** Python strings and dictionaries as the scripts use them *)

(** [old in s], for strings. *)
Fixpoint occurs (old s : string) : bool :=
  String.prefix old s
  || match s with
     | EmptyString => false
     | String _ s' => occurs old s'
     end.

(** [s.replace(old, new)] for a non-empty [old]: the occurrences of [old]
    are replaced from left to right, without overlap; [skip] counts the
    characters of the occurrence just replaced that are still to be passed. *)
Fixpoint replace_from (old new : string) (skip : nat) (s : string) : string :=
  match s with
  | EmptyString => EmptyString
  | String c s' =>
      match skip with
      | S k => replace_from old new k s'
      | O =>
          if String.prefix old s
          then (new ++ replace_from old new (String.length old - 1) s')%string
          else String c (replace_from old new 0 s')
      end
  end.

(** An empty [old] matches before every character and at the end. *)
Fixpoint interleave (new s : string) : string :=
  match s with
  | EmptyString => new
  | String c s' => (new ++ String c (interleave new s'))%string
  end.

Definition str_replace (old new s : string) : string :=
  match old with
  | EmptyString => interleave new s
  | String _ _ => replace_from old new 0 s
  end.

(** [d[key] = v]: an existing key keeps its place, a new one goes last. *)
Fixpoint dict_set {V} (d : dict V) (key : string) (v : V) : dict V :=
  match d with
  | [] => [(key, v)]
  | (k, x) :: d' =>
      if String.eqb k key then (k, v) :: d' else (k, x) :: dict_set d' key v
  end.

(** [dict(pairs)] *)
Definition dict_of_pairs {V} (pairs : list (string * V)) : dict V :=
  fold_left (fun d kv => dict_set d (fst kv) (snd kv)) pairs [].

(** An [assert] statement either passes or raises [AssertionError]. *)
Inductive asserted (A : Type) : Type :=
| Passed (a : A)
| AssertionError.
Arguments Passed {A} a.
Arguments AssertionError {A}.

(** *** The keyword arguments of the log joint density *)

(** [node_specific_varnames]; [parent_names] and [nonroot_names] are what
    [tail_free.get_parent_node_names(family_tree_dict)] and
    [tail_free.get_nonroot_node_names(family_tree_dict)] return. *)
Definition node_specific_varnames (parent_names nonroot_names : list string)
  : list string :=
  let cond_weight_temp_names :=
    map (fun model_name => "temp_" ++ model_name)%string parent_names in
  let node_weight_names :=
    map (fun model_name => "base_weight_" ++ model_name)%string nonroot_names in
  cond_weight_temp_names ++ node_weight_names.

(** [dict(zip(node_specific_varnames, node_specific_positional_args))] in
    [target_log_prob_fn]. *)
Definition node_specific_kwargs {V} (parent_names nonroot_names : list string)
           (node_specific_positional_args : list V) : dict V :=
  dict_of_pairs (combine (node_specific_varnames parent_names nonroot_names)
                         node_specific_positional_args).

(** The keywords [target_log_prob_fn] passes to [log_joint] by name, beside
    [**node_specific_kwargs]. *)
Definition log_joint_keywords : list string :=
  ["X"; "base_pred"; "family_tree"; "y"; "ls_weight"; "ls_resid"; "sigma";
   "ensemble_resid"]%string.

(** *** From variable names back to node names *)

(** [model_name.replace("{}_".format(prefix), "")] *)
Definition node_name_of (prefix model_name : string) : string :=
  str_replace (prefix ++ "_")%string "" model_name.

(** The loops that fill [raw_weights_dict] and [parent_temp_dict] from the
    samples of the variational family:
    [for model_name, sample in samples.items():
       node_name = model_name.replace("{}_".format(prefix), "")
       assert node_name in node_names
       d[node_name] = predict(sample)].
    [prefix] is [tail_free.BASE_WEIGHT_NAME_PREFIX] or
    [tail_free.TEMP_NAME_PREFIX], [node_names] the non-root or the parent
    nodes of the tree, [predict] the GP prediction at the validation points
    for the weights and nothing for the temperatures. *)
Fixpoint samples_by_node {A V} (prefix : string) (node_names : list string)
         (predict : A -> V) (samples : list (string * A)) (d : dict V)
  : asserted (dict V) :=
  match samples with
  | [] => Passed d
  | (model_name, sample) :: rest =>
      let node_name := node_name_of prefix model_name in
      if existsb (String.eqb node_name) node_names
      then samples_by_node prefix node_names predict rest
                           (dict_set d node_name (predict sample))
      else AssertionError
  end.

Definition raw_weights_dict {A V} (BASE_WEIGHT_NAME_PREFIX : string)
           (nonroot_names : list string) (sample_posterior_full : A -> V)
           (weight_gp_sample_dict_val : dict A) : asserted (dict V) :=
  samples_by_node BASE_WEIGHT_NAME_PREFIX nonroot_names sample_posterior_full
                  weight_gp_sample_dict_val [].

Definition parent_temp_dict {A} (TEMP_NAME_PREFIX : string)
           (parent_names : list string) (temp_sample_dict_val : dict A)
  : asserted (dict A) :=
  samples_by_node TEMP_NAME_PREFIX parent_names (fun parent_temp_sample =>
                                                   parent_temp_sample)
                  temp_sample_dict_val [].

(* ================================================================== *)
(** * Properties *)

(** ** Lists, rows and columns *)

Lemma shape_eqb_true (s1 s2 : list nat) : shape_eqb s1 s2 = true <-> s1 = s2.
Proof.
  unfold shape_eqb. destruct (list_eq_dec Nat.eq_dec s1 s2); split; congruence.
Qed.

Lemma shape_eqb_false (s1 s2 : list nat) : shape_eqb s1 s2 = false <-> s1 <> s2.
Proof.
  unfold shape_eqb. destruct (list_eq_dec Nat.eq_dec s1 s2); split; congruence.
Qed.

Lemma shape_eqb_refl (s : list nat) : shape_eqb s s = true.
Proof. now apply shape_eqb_true. Qed.

Lemma map2_length {A B C} (f : A -> B -> C) (la : list A) (lb : list B) :
  length la = length lb -> length (map2 f la lb) = length la.
Proof.
  revert lb. induction la as [|a la IH]; intros [|b lb] H; simpl in *; try lia.
  now rewrite IH by lia.
Qed.

Lemma map2_map_same {A B C D} (f : B -> C -> D) (g : A -> B) (h : A -> C)
      (l : list A) :
  map2 f (map g l) (map h l) = map (fun x => f (g x) (h x)) l.
Proof. induction l; simpl; congruence. Qed.

Lemma map_nth_seq {A} (d : A) (l : list A) :
  map (fun i => nth i l d) (seq 0 (length l)) = l.
Proof.
  induction l as [|a l IH]; simpl; [reflexivity|].
  f_equal. rewrite <- seq_shift, map_map. exact IH.
Qed.

Lemma column_nth (j : nat) (rows : list vector) :
  Forall (fun r => (j < length r)%nat) rows ->
  column j rows = map (fun r => nth j r 0) rows.
Proof.
  unfold column. induction 1 as [|r rows Hr _ IH]; simpl; [reflexivity|].
  rewrite IH. destruct (nth_error r j) eqn:E.
  - simpl. f_equal. symmetry. now apply nth_error_nth.
  - apply nth_error_None in E. lia.
Qed.

(** The transpose of [K >= 1] vectors of length [N], row by row. *)
Lemma transpose_vectors (N : nat) (v : vector) (vs : list vector) :
  Forall (is_vector N) (v :: vs) ->
  transpose (v :: vs)
  = map (fun n => map (fun u => nth n u 0) (v :: vs)) (seq 0 N).
Proof.
  intros H. unfold transpose.
  assert (Hv : length v = N) by now inversion H.
  cbn [hd]. rewrite Hv. apply map_ext_in. intros n Hn. apply in_seq in Hn.
  apply column_nth. eapply Forall_impl; [|exact H].
  unfold is_vector. intros u Hu. lia.
Qed.

(** ** The broadcasting operations on arrays of one shape *)

Lemma map2M_pure {A B C} (f : A -> B -> C) (la : list A) (lb : list B) :
  map2M (fun x y => Ok (f x y)) la lb = Ok (map2 f la lb).
Proof.
  revert lb. induction la as [|a la IH]; intros [|b lb]; simpl; try reflexivity.
  now rewrite IH.
Qed.

Lemma broadcast1_same (f : R -> R -> R) (u v : vector) :
  length u = length v -> broadcast1 f u v = Ok (map2 f u v).
Proof.
  intros H. unfold broadcast1, broadcast_axis.
  rewrite H, Nat.eqb_refl. apply map2M_pure.
Qed.

Lemma map2M_broadcast1 (f : R -> R -> R) (a b : matrix) :
  Forall2 (fun u v => length u = length v) a b ->
  map2M (broadcast1 f) a b = Ok (map2 (map2 f) a b).
Proof.
  induction 1 as [|u v a b Huv _ IH]; simpl; [reflexivity|].
  now rewrite (broadcast1_same f u v Huv), IH.
Qed.

Lemma broadcast2_same (f : R -> R -> R) (a b : matrix) :
  Forall2 (fun u v => length u = length v) a b ->
  broadcast2 f a b = Ok (map2 (map2 f) a b).
Proof.
  intros H. unfold broadcast2, broadcast_axis.
  rewrite (Forall2_length H), Nat.eqb_refl. now apply map2M_broadcast1.
Qed.

Lemma is_matrix_Forall2 (n k : nat) (a b : matrix) :
  is_matrix n k a -> is_matrix n k b ->
  Forall2 (fun u v => length u = length v) a b.
Proof.
  intros [La Ha] [Lb Hb]. subst n. revert b Lb Hb.
  induction a as [|u a IH]; intros [|v b] Lb Hb; simpl in *; try discriminate;
    constructor.
  - inversion Ha; inversion Hb; subst. unfold is_vector in *. congruence.
  - apply IH; [now inversion Ha | congruence | now inversion Hb].
Qed.

Lemma tf_op_matrix (f : R -> R -> R) (n k : nat) (a b : matrix) :
  is_matrix n k a -> is_matrix n k b ->
  broadcast_op f (T2 a) (T2 b) = Ok (T2 (map2 (map2 f) a b)).
Proof.
  intros Ha Hb. unfold broadcast_op, broadcast3, broadcast_axis. simpl.
  now rewrite (broadcast2_same f a b (is_matrix_Forall2 n k a b Ha Hb)).
Qed.

Lemma tf_op_vector (f : R -> R -> R) (u v : vector) :
  length u = length v ->
  broadcast_op f (T1 u) (T1 v) = Ok (T1 (map2 f u v)).
Proof.
  intros H. unfold broadcast_op, broadcast3, broadcast_axis. simpl.
  unfold broadcast2, broadcast_axis. simpl.
  now rewrite (broadcast1_same f u v H).
Qed.

(** A matrix against a stack of matrices of its shape: the matrix is
    repeated along the first axis. *)
Lemma tf_op_matrix_cube (f : R -> R -> R) (s n k : nat) (a : matrix) (c : cube) :
  is_matrix n k a -> is_cube s n k c ->
  broadcast_op f (T2 a) (T3 c) = Ok (T3 (map (fun m => map2 (map2 f) a m) c)).
Proof.
  intros Ha [_ Hc]. unfold broadcast_op.
  assert (E : broadcast3 f [a] c = Ok (map (fun m => map2 (map2 f) a m) c)).
  { assert (Hm : mapM (broadcast2 f a) c = Ok (map (fun m => map2 (map2 f) a m) c)).
    { induction Hc as [|m c Hm _ IH]; simpl; [reflexivity|].
      now rewrite (broadcast2_same f a m (is_matrix_Forall2 n k a m Ha Hm)), IH. }
    unfold broadcast3, broadcast_axis.
    destruct c as [|m [|m' c']]; [reflexivity | | exact Hm].
    cbn [length Nat.eqb map2M map]. cbn [mapM] in Hm.
    destruct (broadcast2 f a m); [|discriminate Hm]. cbn in Hm |- *. exact Hm. }
  simpl as_rank3. rewrite E. reflexivity.
Qed.

(** ** Running a model *)

Lemma bind_lift_ok {A B} (a : A) (r : result A) (k : A -> M B) (tr : trace) :
  r = Ok a -> bind (lift r) k tr = k a tr.
Proof. intros ->. reflexivity. Qed.

Lemma bind_lift_raise {A B} (e : exn) (r : result A) (k : A -> M B) (tr : trace) :
  r = Raise e -> bind (lift r) k tr = (Raise e, tr).
Proof. intros ->. reflexivity. Qed.

Lemma bind_ok {A B} (m : M A) (k : A -> M B) (tr tr' : trace) (a : A) :
  m tr = (Ok a, tr') -> bind m k tr = k a tr'.
Proof. unfold bind. intros ->. reflexivity. Qed.

Lemma bind_raise {A B} (m : M A) (k : A -> M B) (tr tr' : trace) (e : exn) :
  m tr = (Raise e, tr') -> bind m k tr = (Raise e, tr').
Proof. unfold bind. intros ->. reflexivity. Qed.

Lemma string_app_assoc (a b c : string) :
  ((a ++ b) ++ c = a ++ (b ++ c))%string.
Proof. induction a as [|x a IH]; simpl; [reflexivity | now rewrite IH]. Qed.

(** ** The dimension check *)

Lemma dimension_message_names_key (N : nat) (observed : list nat) (key : string) :
  exists before : string,
    dimension_message N observed key = (before ++ "'" ++ key ++ "'")%string.
Proof.
  exists ("All base-model predictions should have shape (" ++ str_of_nat N
            ++ ",), butobserved " ++ str_of_shape observed ++ " for ")%string.
  unfold dimension_message.
  rewrite !string_app_assoc. reflexivity.
Qed.

Lemma check_dimension_mismatch (N : nat) (base_pred : dict tensor)
      (key : string) (value : tensor) :
  first_mismatch N base_pred = Some (key, value) ->
  check_dimension N base_pred
  = Raise (ValueError (dimension_message N (shape value) key)).
Proof.
  unfold first_mismatch.
  induction base_pred as [|[k v] rest IH]; simpl; [discriminate|].
  destruct (negb (shape_eqb (shape v) [N])); [|exact IH].
  intros E. now inversion E.
Qed.

Lemma check_dimension_ok (N : nat) (base_pred : dict tensor) :
  Forall (fun kv => shape (snd kv) = [N]) base_pred ->
  check_dimension N base_pred = Ok tt.
Proof.
  induction 1 as [|[k v] rest Hv _ IH]; simpl in *; [reflexivity|].
  now rewrite Hv, shape_eqb_refl.
Qed.

Lemma first_mismatch_exists (N : nat) (base_pred : dict tensor)
      (k0 : string) (v0 : tensor) :
  In (k0, v0) base_pred -> shape v0 <> [N] ->
  exists key value,
    first_mismatch N base_pred = Some (key, value)
    /\ In (key, value) base_pred /\ shape value <> [N].
Proof.
  intros Hin Hne. unfold first_mismatch.
  destruct (find (fun kv => negb (shape_eqb (shape (snd kv)) [N])) base_pred)
    as [[k v]|] eqn:E.
  - apply find_some in E. destruct E as [Hi Hs]. exists k, v.
    repeat split; [exact Hi|]. simpl in Hs.
    apply negb_true_iff, shape_eqb_false in Hs. exact Hs.
  - exfalso. apply (find_none _ _ E) in Hin. simpl in Hin.
    apply negb_false_iff, shape_eqb_true in Hin. contradiction.
Qed.

Lemma model_flat_mismatch (mu sd : R) (env : latent) (X : tensor)
      (base_pred : dict tensor) (tree : option family_tree) (lw lr : R)
      (kern : kernel_func) (link_func : link) (ridge : R) (kw : kwargs)
      (tr : trace) (N D : nat) (e : exn) :
  shape X = [N; D] -> check_dimension N base_pred = Raise e ->
  model_flat mu sd env X base_pred tree lw lr kern link_func ridge kw tr
  = (Raise e, tr).
Proof.
  intros HX Hc. unfold model_flat. rewrite HX. cbn [unpack2].
  rewrite (bind_lift_ok (N, D)) by reflexivity.
  now rewrite (bind_lift_raise e).
Qed.

Lemma model_tailfree_mismatch
      (prior : tensor -> dict tensor -> option family_tree -> R -> kwargs ->
               M (tensor * list string))
      (env : latent) (X : tensor) (base_pred : dict tensor)
      (tree : option family_tree) (lw lr : R) (kw : kwargs)
      (tr : trace) (N D : nat) (e : exn) :
  shape X = [N; D] -> check_dimension N base_pred = Raise e ->
  model_tailfree prior env X base_pred tree lw lr kw tr = (Raise e, tr).
Proof.
  intros HX Hc. unfold model_tailfree. rewrite HX. cbn [unpack2].
  rewrite (bind_lift_ok (N, D)) by reflexivity.
  now rewrite (bind_lift_raise e).
Qed.

(** C3.  When [X] has shape [(N, D)] and some value of [base_pred] does not
    have shape [(N,)], both [model_flat] and [model_tailfree] raise
    [ValueError] with the message of the dimension check for the first such
    entry in dictionary order; the message ends with that entry's key between
    quotes, and the trace of declared random variables is the one the model
    started from: nothing is declared before the check, and nothing is
    broadcast or truncated. *)
Theorem dimension_check_rejects_mismatch
        (mu sd : R) (env : latent) (X : tensor) (base_pred : dict tensor)
        (tree : option family_tree) (lw lr : R) (kern : kernel_func)
        (link_func : link) (ridge : R) (kw : kwargs)
        (prior : tensor -> dict tensor -> option family_tree -> R -> kwargs ->
                 M (tensor * list string))
        (tr : trace) (N D : nat) (k0 : string) (v0 : tensor) :
  shape X = [N; D] ->
  In (k0, v0) base_pred -> shape v0 <> [N] ->
  exists (key : string) (value : tensor) (before : string),
    first_mismatch N base_pred = Some (key, value)
    /\ In (key, value) base_pred /\ shape value <> [N]
    /\ dimension_message N (shape value) key = (before ++ "'" ++ key ++ "'")%string
    /\ model_flat mu sd env X base_pred tree lw lr kern link_func ridge kw tr
       = (Raise (ValueError (dimension_message N (shape value) key)), tr)
    /\ model_tailfree prior env X base_pred tree lw lr kw tr
       = (Raise (ValueError (dimension_message N (shape value) key)), tr).
Proof.
  intros HX Hin Hne.
  destruct (first_mismatch_exists N base_pred k0 v0 Hin Hne)
    as (key & value & Hf & Hi & Hs).
  destruct (dimension_message_names_key N (shape value) key) as [before Hb].
  exists key, value, before. repeat split; try assumption.
  - apply (model_flat_mismatch _ _ _ _ _ _ _ _ _ _ _ _ _ N D); [exact HX|].
    now apply check_dimension_mismatch.
  - apply (model_tailfree_mismatch _ _ _ _ _ _ _ _ _ N D); [exact HX|].
    now apply check_dimension_mismatch.
Qed.

(** C3, on a configuration with a prediction of the wrong length. *)
Lemma dimension_check_rejects_mismatch_witness :
  exists (key : string) (value : tensor) (before : string),
    first_mismatch 2 Ex.bad_pred = Some (key, value)
    /\ In (key, value) Ex.bad_pred /\ shape value <> [2%nat]
    /\ dimension_message 2 (shape value) key = (before ++ "'" ++ key ++ "'")%string
    /\ model_flat 0 1 Ex.env Ex.X Ex.bad_pred None 1 1 rbf Ex.softmax 1 [] []
       = (Raise (ValueError (dimension_message 2 (shape value) key)), [])
    /\ model_tailfree (tail_free.prior 0 1 Ex.env Ex.softmax rbf 1 10)
                      Ex.env Ex.X Ex.bad_pred None 1 1 [] []
       = (Raise (ValueError (dimension_message 2 (shape value) key)), []).
Proof.
  apply (dimension_check_rejects_mismatch
           0 1 Ex.env Ex.X Ex.bad_pred None 1 1 rbf Ex.softmax 1 []
           (tail_free.prior 0 1 Ex.env Ex.softmax rbf 1 10) [] 2 1
           "b" (T1 [30; 40; 50])).
  - reflexivity.
  - simpl. right. left. reflexivity.
  - simpl. discriminate.
Defined.

(** ** A family tree given to the flat model *)

Lemma sparse_conditional_weight_truthy (env : latent) (X : tensor)
      (base_pred : dict tensor) (temp : tensor) (tree : option family_tree)
      (kern : kernel_func) (link_func : link) (ridge : R) (kw : kwargs)
      (tr : trace) :
  truthy tree = true ->
  sparse_conditional_weight env X base_pred temp tree kern link_func ridge kw tr
  = (Raise NotImplementedError, tr).
Proof. intros H. unfold sparse_conditional_weight. now rewrite H. Qed.

(** C4, as amended.  For a family tree that is a non-empty dictionary,
    [sparse_conditional_weight] raises [NotImplementedError] and leaves the
    trace as it found it; and [model_flat], when [X] has shape [(N, D)] and
    the predictions pass the dimension check, raises [NotImplementedError]
    after declaring the temperature prior ["temp"], a vector of one
    temperature per key of the tree, and nothing else: no weight GP is
    declared. *)
Theorem flat_model_rejects_family_tree
        (mu sd : R) (env : latent) (X : tensor) (base_pred : dict tensor)
        (t : family_tree) (lw lr : R) (kern : kernel_func)
        (link_func : link) (ridge : R) (kw : kwargs) (tr : trace)
        (N D : nat) (temp : tensor) :
  truthy (Some t) = true ->
  shape X = [N; D] ->
  check_dimension N base_pred = Ok tt ->
  sparse_conditional_weight env X base_pred temp (Some t) kern link_func ridge kw tr
  = (Raise NotImplementedError, tr)
  /\ model_flat mu sd env X base_pred (Some t) lw lr kern link_func ridge kw tr
     = (Raise NotImplementedError,
        tr ++ [{| rv_name := "temp";
                  rv_dist := Normal (T1 (repeat mu (length t))) sd;
                  rv_value := T1 (map (env "temp") (seq 0 (length t))) |}]).
Proof.
  intros Ht HX Hc. split.
  - now apply sparse_conditional_weight_truthy.
  - unfold model_flat. rewrite HX. cbn [unpack2].
    rewrite (bind_lift_ok (N, D)) by reflexivity.
    rewrite (bind_lift_ok tt) by exact Hc.
    rewrite Ht. cbn [negb].
    erewrite bind_ok by (unfold ed_Normal, declare; reflexivity).
    cbn [rv_value shape draw]. rewrite repeat_length.
    erewrite bind_raise by (now apply sparse_conditional_weight_truthy).
    reflexivity.
Qed.

(** C4, on the flat tree over two models. *)
Lemma flat_model_rejects_family_tree_witness :
  sparse_conditional_weight Ex.env Ex.X Ex.base_pred (T0 0) (Some Ex.tree) rbf
                            Ex.softmax 1 [] []
  = (Raise NotImplementedError, [])
  /\ model_flat 0 1 Ex.env Ex.X Ex.base_pred (Some Ex.tree) 1 1 rbf Ex.softmax 1 [] []
     = (Raise NotImplementedError,
        [] ++ [{| rv_name := "temp";
                  rv_dist := Normal (T1 (repeat 0 (length Ex.tree))) 1;
                  rv_value := T1 (map (Ex.env "temp") (seq 0 (length Ex.tree))) |}]).
Proof.
  apply (flat_model_rejects_family_tree
           0 1 Ex.env Ex.X Ex.base_pred Ex.tree 1 1 rbf Ex.softmax 1 [] [] 2 1 (T0 0)).
  - reflexivity.
  - reflexivity.
  - unfold Ex.base_pred, check_dimension. cbn [shape length].
    rewrite !shape_eqb_refl. reflexivity.
Defined.

(** C4 as stated fails: with a non-empty family tree and a prediction of the
    wrong length, [model_flat] stops at the dimension check with
    [ValueError], not with [NotImplementedError]. *)
Lemma flat_model_family_tree_counterexample :
  truthy (Some Ex.tree) = true
  /\ fst (model_flat 0 1 Ex.env Ex.X Ex.bad_pred (Some Ex.tree) 1 1 rbf
                     Ex.softmax 1 [] [])
     = Raise (ValueError
                "All base-model predictions should have shape (2,), butobserved (3,) for 'b'")
  /\ fst (model_flat 0 1 Ex.env Ex.X Ex.bad_pred (Some Ex.tree) 1 1 rbf
                     Ex.softmax 1 [] [])
     <> Raise NotImplementedError.
Proof.
  assert (E : model_flat 0 1 Ex.env Ex.X Ex.bad_pred (Some Ex.tree) 1 1 rbf
                         Ex.softmax 1 [] []
              = (Raise (ValueError
                          "All base-model predictions should have shape (2,), butobserved (3,) for 'b'"),
                 [])).
  { apply (model_flat_mismatch _ _ _ _ _ _ _ _ _ _ _ _ _ 2 1); [reflexivity|].
    unfold Ex.bad_pred, check_dimension. cbn [shape length].
    rewrite shape_eqb_refl. cbn [negb].
    replace (shape_eqb [3%nat] [2%nat]) with false
      by (symmetry; apply shape_eqb_false; discriminate).
    reflexivity. }
  split; [reflexivity|]. rewrite E. split; [reflexivity | discriminate].
Qed.

(** ** The weight GPs of the flat model *)

Lemma gp_prior_run (env : latent) (X : tensor) (kern : kernel_func)
      (ridge : option R) (name : string) (kw : kwargs) (tr : trace)
      (N : nat) (rest : list nat) :
  shape X = N :: rest ->
  gp.prior env X kern ridge name kw tr
  = (Ok (T1 (map (env name) (seq 0 N))),
     tr ++ [{| rv_name := name;
               rv_dist := GaussianProcess X kern ridge kw;
               rv_value := T1 (map (env name) (seq 0 N)) |}]).
Proof. intros HX. unfold gp.prior. rewrite HX. reflexivity. Qed.

Lemma weight_gps_run (env : latent) (X : tensor) (kern : kernel_func)
      (ridge : R) (kw : kwargs) (N : nat) (rest : list nat)
      (names : list string) (tr : trace) :
  shape X = N :: rest ->
  for_each (fun base_name =>
              gp.prior env X kern (Some ridge)
                       ("base_weight_" ++ base_name)%string kw) names tr
  = (Ok (map (fun name => rv_value (weight_gp env X kern ridge kw N name)) names),
     tr ++ map (weight_gp env X kern ridge kw N) names).
Proof.
  intros HX. revert tr.
  induction names as [|name names IH]; intros tr; cbn [for_each map].
  - unfold ret. now rewrite app_nil_r.
  - erewrite bind_ok by (eapply gp_prior_run; exact HX).
    erewrite bind_ok by apply IH.
    unfold ret. rewrite <- app_assoc. reflexivity.
Qed.

Lemma mapM_as_T1 (N : nat) (vs : list vector) :
  Forall (is_vector N) vs -> mapM (as_T1 N) (map T1 vs) = Ok vs.
Proof.
  induction 1 as [|v vs Hv _ IH]; cbn [map mapM]; [reflexivity|].
  unfold as_T1 at 1. rewrite Hv, Nat.eqb_refl. cbn [rbind]. now rewrite IH.
Qed.

Lemma np_asarray_vectors (N : nat) (v : vector) (vs : list vector) :
  Forall (is_vector N) (v :: vs) ->
  np_asarray (map T1 (v :: vs)) = Ok (T2 (v :: vs)).
Proof.
  intros H. assert (Hv : length v = N) by now inversion H.
  cbn [map np_asarray]. rewrite Hv.
  change (T1 v :: map T1 vs) with (map T1 (v :: vs)).
  now rewrite (mapM_as_T1 N (v :: vs) H).
Qed.

(** Stacking [K >= 1] vectors of length [N] on a new last axis. *)
Lemma tf_stack_vectors (N : nat) (v : vector) (vs : list vector) (axis : Z) :
  Forall (is_vector N) (v :: vs) -> axis = 1%Z \/ axis = (-1)%Z ->
  tf_stack (map T1 (v :: vs)) axis = Ok (T2 (transpose (v :: vs))).
Proof.
  intros H Ha. unfold tf_stack.
  rewrite (np_asarray_vectors N v vs H). cbn [map rank].
  destruct Ha as [-> | ->]; reflexivity.
Qed.

Lemma raw_weight_matrix_shape (env : latent) (N : nat) (names : list string) :
  is_matrix N (length names) (raw_weight_matrix env N names).
Proof.
  unfold raw_weight_matrix, is_matrix. split.
  - now rewrite length_map, length_seq.
  - apply Forall_forall. intros row Hr. apply in_map_iff in Hr.
    destruct Hr as (n & <- & _). unfold is_vector. now rewrite length_map.
Qed.

Lemma stack_weight_gps (env : latent) (X : tensor) (kern : kernel_func)
      (ridge : R) (kw : kwargs) (N : nat) (names : list string) (axis : Z) :
  names <> [] -> axis = 1%Z \/ axis = (-1)%Z ->
  tf_stack (map (fun name => rv_value (weight_gp env X kern ridge kw N name)) names)
           axis
  = Ok (T2 (raw_weight_matrix env N names)).
Proof.
  intros Hne Ha. destruct names as [|name names]; [congruence|].
  set (f := fun nm => map (env ("base_weight_" ++ nm)%string) (seq 0 N)).
  assert (Hvs : Forall (is_vector N) (f name :: map f names)).
  { change (f name :: map f names) with (map f (name :: names)).
    apply Forall_forall. intros v Hv. apply in_map_iff in Hv.
    destruct Hv as (nm & <- & _). unfold is_vector, f.
    now rewrite length_map, length_seq. }
  replace (map (fun nm => rv_value (weight_gp env X kern ridge kw N nm))
               (name :: names)) with (map T1 (f name :: map f names))
    by (cbn [map]; rewrite map_map; reflexivity).
  rewrite (tf_stack_vectors N _ _ axis Hvs Ha).
  rewrite (transpose_vectors N _ _ Hvs). do 2 f_equal.
  unfold raw_weight_matrix. apply map_ext_in. intros n Hn. apply in_seq in Hn.
  change (f name :: map f names) with (map f (name :: names)).
  rewrite map_map. apply map_ext. intros nm. unfold f.
  rewrite (nth_indep _ 0 (env ("base_weight_" ++ nm)%string 0%nat))
    by (rewrite length_map, length_seq; lia).
  rewrite map_nth, seq_nth by lia. reflexivity.
Qed.

(** What [sparse_conditional_weight] does without a family tree. *)
Lemma sparse_conditional_weight_run (env : latent) (X : tensor)
      (base_pred : dict tensor) (temp : tensor) (kern : kernel_func)
      (link_func : link) (ridge : R) (kw : kwargs) (tr : trace)
      (N : nat) (rest : list nat) :
  shape X = N :: rest -> base_pred <> [] ->
  sparse_conditional_weight env X base_pred temp None kern link_func ridge kw tr
  = (link_func (T2 (raw_weight_matrix env N (keys base_pred))) (tf_exp temp),
     tr ++ map (weight_gp env X kern ridge kw N) (keys base_pred)).
Proof.
  intros HX Hne. unfold sparse_conditional_weight. cbn [truthy].
  erewrite bind_ok by (eapply weight_gps_run; exact HX).
  erewrite bind_lift_ok; [reflexivity|].
  apply stack_weight_gps; [|now left].
  unfold keys. destruct base_pred; [congruence | discriminate].
Qed.

(** C9.  Without a family tree and for [X] with [N] rows,
    [sparse_conditional_weight] appends to the trace exactly one weight GP per
    entry of [base_pred], named [base_weight_<model name>], in dictionary
    order: [K] priors for [K] models, not the [K - 1] of its docstring.  For
    [K >= 1] the link function is then applied to the matrix of shape
    [(N, K)] whose column [k] is the draw of the [k]-th of these GPs. *)
Theorem sparse_conditional_weight_declares_K_priors
        (env : latent) (X : tensor) (base_pred : dict tensor) (temp : tensor)
        (kern : kernel_func) (link_func : link) (ridge : R) (kw : kwargs)
        (tr : trace) (N : nat) (rest : list nat) :
  shape X = N :: rest ->
  let run := sparse_conditional_weight env X base_pred temp None kern link_func
                                       ridge kw tr in
  let priors := map (weight_gp env X kern ridge kw N) (keys base_pred) in
  snd run = tr ++ priors
  /\ length priors = length base_pred
  /\ map rv_name priors
     = map (fun name => ("base_weight_" ++ name)%string) (keys base_pred)
  /\ (base_pred <> [] ->
      is_matrix N (length base_pred) (raw_weight_matrix env N (keys base_pred))
      /\ fst run
         = link_func (T2 (raw_weight_matrix env N (keys base_pred))) (tf_exp temp)).
Proof.
  intros HX run priors. subst run priors.
  split; [|split; [|split]].
  - destruct base_pred as [|kv bp].
    + cbn. now rewrite app_nil_r.
    + now rewrite (sparse_conditional_weight_run _ _ _ _ _ _ _ _ _ N rest HX).
  - unfold keys. now rewrite !length_map.
  - rewrite map_map. reflexivity.
  - intros Hne. split.
    + replace (length base_pred) with (length (keys base_pred))
        by (unfold keys; now rewrite length_map).
      apply raw_weight_matrix_shape.
    + now rewrite (sparse_conditional_weight_run _ _ _ _ _ _ _ _ _ N rest HX).
Qed.

(** C9, on two base models over two points. *)
Lemma sparse_conditional_weight_declares_K_priors_witness :
  let run := sparse_conditional_weight Ex.env Ex.X Ex.base_pred (T0 0) None rbf
                                       Ex.softmax 1 [] [] in
  let priors := map (weight_gp Ex.env Ex.X rbf 1 [] 2) (keys Ex.base_pred) in
  snd run = [] ++ priors
  /\ length priors = length Ex.base_pred
  /\ map rv_name priors
     = map (fun name => ("base_weight_" ++ name)%string) (keys Ex.base_pred)
  /\ (Ex.base_pred <> [] ->
      is_matrix 2 (length Ex.base_pred)
                (raw_weight_matrix Ex.env 2 (keys Ex.base_pred))
      /\ fst run
         = Ex.softmax (T2 (raw_weight_matrix Ex.env 2 (keys Ex.base_pred)))
                      (tf_exp (T0 0))).
Proof.
  apply (sparse_conditional_weight_declares_K_priors
           Ex.env Ex.X Ex.base_pred (T0 0) rbf Ex.softmax 1 [] [] 2 [1%nat]).
  reflexivity.
Defined.

(** ** The flat posterior weights *)

Lemma sample_posterior_weight_flat_ndarray (a : tensor) (ts : vector)
      (link_func : link) :
  sample_posterior_weight_flat (NdArray a) (T1 ts) link_func
  = link_func a (tf_exp (T1 ts)).
Proof. reflexivity. Qed.

Lemma sample_posterior_weight_flat_list (l : list tensor) (ts : vector)
      (link_func : link) (a0 a : tensor) (s0 : nat) (rest : list nat) :
  np_asarray l = Ok a0 -> np_moveaxis_0_last a0 = Ok a -> shape a = s0 :: rest ->
  sample_posterior_weight_flat (PyList l) (T1 ts) link_func
  = if Nat.eqb s0 (length ts)
    then link_func a (tf_exp (T1 ts))
    else Raise (ValueError (sample_size_message (shape a) (length ts))).
Proof.
  intros H0 H1 Hs. unfold sample_posterior_weight_flat.
  cbn [shape unpack1 rbind]. rewrite H0. cbn [rbind]. rewrite H1. cbn [rbind].
  rewrite Hs. destruct (Nat.eqb s0 (length ts)); reflexivity.
Qed.

(** C7.  For every link function and every temperature,
    [sparse_conditional_weight] (without a family tree, on at least one base
    model) returns what the link function returns on the stacked raw weights
    and the exponential of the temperature, and so does
    [sample_posterior_weight_flat] whenever it reaches the link function:
    for an array argument always, for a list argument when the sample sizes
    agree.  The temperature itself is never what the link function gets. *)
Theorem link_function_gets_exp_temperature (link_func : link) :
  (forall env X base_pred temp kern ridge kw tr N rest,
      shape X = N :: rest -> base_pred <> [] ->
      fst (sparse_conditional_weight env X base_pred temp None kern link_func
                                     ridge kw tr)
      = link_func (T2 (raw_weight_matrix env N (keys base_pred))) (tf_exp temp))
  /\ (forall a ts,
         sample_posterior_weight_flat (NdArray a) (T1 ts) link_func
         = link_func a (tf_exp (T1 ts)))
  /\ (forall l ts a0 a rest,
         np_asarray l = Ok a0 -> np_moveaxis_0_last a0 = Ok a ->
         shape a = length ts :: rest ->
         sample_posterior_weight_flat (PyList l) (T1 ts) link_func
         = link_func a (tf_exp (T1 ts))).
Proof.
  split; [|split].
  - intros env X base_pred temp kern ridge kw tr N rest HX Hne.
    now rewrite (sparse_conditional_weight_run _ _ _ _ _ _ _ _ _ N rest HX Hne).
  - intros a ts. apply sample_posterior_weight_flat_ndarray.
  - intros l ts a0 a rest H0 H1 Hs.
    rewrite (sample_posterior_weight_flat_list l ts link_func a0 a _ rest H0 H1 Hs).
    now rewrite Nat.eqb_refl.
Qed.

(** C7, with the link function that hands back its temperature: what comes
    back is the exponential of the temperature. *)
Lemma link_function_gets_exp_temperature_witness :
  fst (sparse_conditional_weight Ex.env Ex.X Ex.base_pred (T0 2) None rbf
                                 Ex.probe 1 [] [])
  = Ok (T0 (exp 2))
  /\ sample_posterior_weight_flat (NdArray (T3 [[[1; 2]]])) (T1 [3]) Ex.probe
     = Ok (T1 [exp 3])
  /\ sample_posterior_weight_flat (PyList [T2 [[1]]; T2 [[2]]]) (T1 [3]) Ex.probe
     = Ok (T1 [exp 3]).
Proof.
  destruct (link_function_gets_exp_temperature Ex.probe) as (H1 & H2 & H3).
  split; [|split].
  - apply (H1 Ex.env Ex.X Ex.base_pred (T0 2) rbf 1 [] [] 2%nat [1%nat]).
    + reflexivity.
    + discriminate.
  - apply (H2 (T3 [[[1; 2]]]) [3]).
  - apply (H3 [T2 [[1]]; T2 [[2]]] [3] (T3 [[[1]]; [[2]]]) (T3 [[[1; 2]]])
              [1%nat; 2%nat]).
    + reflexivity.
    + reflexivity.
    + reflexivity.
Defined.

(** C10.  With a temperature sample of length [N_sample],
    [sample_posterior_weight_flat] compares the first dimension of the weight
    sample with [N_sample] only when the weight sample is a list: after the
    list is made an array and its first axis moved last, a first dimension
    other than [N_sample] raises [ValueError] and the link function is not
    called.  An array argument goes to the link function as it is, whatever
    its shape. *)
Theorem sample_size_check_only_for_lists (link_func : link) (ts : vector) :
  (forall a,
      sample_posterior_weight_flat (NdArray a) (T1 ts) link_func
      = link_func a (tf_exp (T1 ts)))
  /\ (forall l a0 a s0 rest,
         np_asarray l = Ok a0 -> np_moveaxis_0_last a0 = Ok a ->
         shape a = s0 :: rest ->
         sample_posterior_weight_flat (PyList l) (T1 ts) link_func
         = if Nat.eqb s0 (length ts)
           then link_func a (tf_exp (T1 ts))
           else Raise (ValueError (sample_size_message (shape a) (length ts)))).
Proof.
  split.
  - intros a. apply sample_posterior_weight_flat_ndarray.
  - intros l a0 a s0 rest. apply sample_posterior_weight_flat_list.
Qed.

(** C10, on one sample of weights against two samples of temperature: the
    array goes through to the link function, the list raises. *)
Lemma sample_size_check_only_for_lists_witness :
  sample_posterior_weight_flat (NdArray (T3 [[[1; 2]]])) (T1 [3; 4]) Ex.probe
  = Ok (T1 [exp 3; exp 4])
  /\ sample_posterior_weight_flat (PyList [T2 [[1]]; T2 [[2]]]) (T1 [3; 4]) Ex.probe
     = Raise (ValueError
                "Sample size of weight_sample (dim=(1, 1, 2)) doesn't match that of the temp_sample (2)").
Proof.
  destruct (sample_size_check_only_for_lists Ex.probe [3; 4]) as (H1 & H2).
  split.
  - apply (H1 (T3 [[[1; 2]]])).
  - apply (H2 [T2 [[1]]; T2 [[2]]] (T3 [[[1]]; [[2]]]) (T3 [[[1; 2]]])
              1%nat [1%nat; 2%nat]); reflexivity.
Defined.

(** ** The noise scale and its covariance *)

Lemma bind_ok_inv {A B} (m : M A) (k : A -> M B) (tr tr' : trace) (b : B) :
  bind m k tr = (Ok b, tr') ->
  exists a tr1, m tr = (Ok a, tr1) /\ k a tr1 = (Ok b, tr').
Proof.
  unfold bind. destruct (m tr) as [[a|e] tr1]; intros H.
  - now exists a, tr1.
  - discriminate.
Qed.

Lemma lift_ok_inv {A} (r : result A) (tr tr' : trace) (a : A) :
  lift r tr = (Ok a, tr') -> r = Ok a /\ tr' = tr.
Proof. unfold lift. intros H. inversion H. now split. Qed.

Lemma rbind_ok_inv {A B} (r : result A) (k : A -> result B) (b : B) :
  rbind r k = Ok b -> exists a, r = Ok a /\ k a = Ok b.
Proof. destruct r as [a|e]; simpl; intros H; [now exists a | discriminate]. Qed.

Lemma sum_indicator (i : nat) (f : nat -> R) (a n : nat) :
  sum (map (fun k => if Nat.eqb i k then f k else 0) (seq a n))
  = if (Nat.leb a i && Nat.ltb i (a + n))%bool then f i else 0.
Proof.
  revert a. induction n as [|n IH]; intros a; cbn [seq map sum fold_right].
  - replace (Nat.ltb i (a + 0)) with (negb (Nat.leb a i)).
    + now destruct (Nat.leb a i).
    + rewrite Nat.add_0_r. destruct (Nat.leb_spec a i), (Nat.ltb_spec i a);
        simpl; try reflexivity; lia.
  - fold (sum (map (fun k => if Nat.eqb i k then f k else 0) (seq (S a) n))).
    rewrite IH.
    destruct (Nat.eqb_spec i a) as [->|Hne].
    + rewrite Nat.leb_refl.
      replace (Nat.leb (S a) a) with false by (symmetry; apply Nat.leb_gt; lia).
      replace (Nat.ltb a (a + S n)) with true by (symmetry; apply Nat.ltb_lt; lia).
      simpl. lra.
    + replace (Nat.leb (S a) i && Nat.ltb i (S a + n))%bool
        with (Nat.leb a i && Nat.ltb i (a + S n))%bool.
      * lra.
      * destruct (Nat.leb_spec a i), (Nat.leb_spec (S a) i),
          (Nat.ltb_spec i (a + S n)), (Nat.ltb_spec i (S a + n));
          simpl; try reflexivity; lia.
Qed.

Lemma scale_matrix_row (n : nat) (c : R) (i : nat) :
  (i < n)%nat ->
  nth i (scale_matrix n c) [] = map (fun j => if Nat.eqb i j then c else 0) (seq 0 n).
Proof.
  intros Hi. unfold scale_matrix.
  rewrite (nth_indep _ [] ((fun i => map (fun j => if Nat.eqb i j then c else 0)
                                         (seq 0 n)) 0%nat))
    by (rewrite length_map, length_seq; lia).
  rewrite (map_nth (fun i => map (fun j => if Nat.eqb i j then c else 0) (seq 0 n))).
  now rewrite seq_nth by lia.
Qed.

(** The covariance [scale @ scale.T] of the scale [c * I] is [c * c] on the
    diagonal and zero off it. *)
Lemma covariance_scale_identity (n : nat) (c : R) (i j : nat) :
  (i < n)%nat -> (j < n)%nat ->
  nth j (nth i (matmul_T (scale_matrix n c) (scale_matrix n c)) []) 0
  = if Nat.eqb i j then c * c else 0.
Proof.
  intros Hi Hj. unfold matmul_T.
  set (s := scale_matrix n c).
  assert (Ls : length s = n)
    by (unfold s, scale_matrix; now rewrite length_map, length_seq).
  rewrite (nth_indep _ [] ((fun row => map (dot row) s) []))
    by (rewrite length_map; lia).
  rewrite (map_nth (fun row => map (dot row) s)).
  rewrite (nth_indep _ 0 (dot (nth i s []) [])) by (rewrite length_map; lia).
  rewrite (map_nth (dot (nth i s []))).
  unfold s. rewrite !scale_matrix_row by assumption.
  unfold dot. rewrite map2_map_same.
  rewrite (map_ext _ (fun k => if Nat.eqb i k
                               then (fun k => if Nat.eqb j k then c * c else 0) k
                               else 0)).
  - rewrite sum_indicator. cbn [Nat.leb andb Nat.add].
    replace (Nat.ltb i n) with true by (symmetry; apply Nat.ltb_lt; lia).
    now rewrite (Nat.eqb_sym j i).
  - intros k. destruct (Nat.eqb i k), (Nat.eqb j k); lra.
Qed.

(** What the last three statements of a model leave behind: the noise prior,
    the location and the observation. *)
Lemma observation_run (env : latent) (ensemble_mean ensemble_resid : tensor)
      (tr tr' : trace) (y : random_variable) :
  bind (ed_Normal env (T0 _NOISE_PRIOR_MEAN) _NOISE_PRIOR_SDEV "sigma")
       (fun sigma =>
          bind (lift (tensor_add ensemble_mean ensemble_resid))
               (fun loc =>
                  ed_MultivariateNormalDiag env loc (tf_exp (rv_value sigma)) "y"))
       tr
  = (Ok y, tr') ->
  exists loc,
    tensor_add ensemble_mean ensemble_resid = Ok loc
    /\ y = {| rv_name := "y";
              rv_dist := MultivariateNormalDiag loc (T0 (exp (env "sigma" 0%nat)));
              rv_value := draw env "y" (shape loc) |}
    /\ tr' = tr ++ [{| rv_name := "sigma";
                       rv_dist := Normal (T0 _NOISE_PRIOR_MEAN) _NOISE_PRIOR_SDEV;
                       rv_value := T0 (env "sigma" 0%nat) |}] ++ [y].
Proof.
  intros H. apply bind_ok_inv in H. destruct H as (sigma & tr1 & Hs & H).
  unfold ed_Normal, declare in Hs. inversion Hs; subst sigma tr1; clear Hs.
  apply bind_ok_inv in H. destruct H as (loc & tr2 & Hl & H).
  apply lift_ok_inv in Hl. destruct Hl as [Hl ->].
  unfold ed_MultivariateNormalDiag, declare in H. cbn in H.
  inversion H; subst. exists loc. repeat split; [exact Hl|].
  now rewrite <- app_assoc.
Qed.

Ltac step H x trx Hx :=
  apply bind_ok_inv in H; destruct H as (x & trx & Hx & H).

Ltac step_lift H x Hx :=
  let trx := fresh "tr" in
  let Hl := fresh "Hl" in
  apply bind_ok_inv in H; destruct H as (x & trx & Hl & H);
  apply lift_ok_inv in Hl; destruct Hl as [Hx ->].

Lemma unpack2_inv (s : list nat) (N D : nat) :
  unpack2 s = Ok (N, D) -> s = [N; D].
Proof.
  destruct s as [|a [|b [|c s]]]; simpl; intros H; try discriminate.
  now inversion H.
Qed.

(** ** The ensemble mean *)

Lemma dict_find_in {V} (d : dict V) (key : string) :
  In key (keys d) -> exists v, dict_find d key = Some v /\ In (key, v) d.
Proof.
  induction d as [|[k v] d IH]; simpl; [tauto|].
  intros [-> | Hin].
  - rewrite String.eqb_refl. exists v. split; [reflexivity | now left].
  - destruct (String.eqb_spec k key) as [->|Hne].
    + exists v. split; [reflexivity | now left].
    + destruct (IH Hin) as (v' & Hf & Hi). exists v'. split; [exact Hf | now right].
Qed.

Lemma shape_vector_inv (t : tensor) (N : nat) :
  shape t = [N] -> exists v, t = T1 v /\ length v = N.
Proof.
  destruct t as [x|v|m|c]; simpl; intros H; try discriminate.
  exists v. split; [reflexivity | now inversion H].
Qed.

Lemma dict_get_vector (N : nat) (base_pred : dict tensor) (name : string) :
  Forall (fun kv => shape (snd kv) = [N]) base_pred ->
  In name (keys base_pred) ->
  dict_get base_pred name = Ok (T1 (pred_vector N base_pred name)).
Proof.
  intros Hs Hin. destruct (dict_find_in base_pred name Hin) as (t & Hf & Hi).
  rewrite Forall_forall in Hs. specialize (Hs _ Hi). simpl in Hs.
  destruct (shape_vector_inv t N Hs) as (v & -> & Hv).
  unfold dict_get, pred_vector. rewrite Hf. do 2 f_equal.
  rewrite <- (map_nth_seq 0 v) at 1. rewrite Hv.
  apply map_ext. intros n. unfold pred_at. now rewrite Hf.
Qed.

Lemma mapM_dict_get (N : nat) (base_pred : dict tensor) (names : list string) :
  Forall (fun kv => shape (snd kv) = [N]) base_pred ->
  Forall (fun name => In name (keys base_pred)) names ->
  mapM (dict_get base_pred) names
  = Ok (map T1 (map (pred_vector N base_pred) names)).
Proof.
  intros Hs. induction 1 as [|name names Hn _ IH]; cbn [mapM map]; [reflexivity|].
  rewrite (dict_get_vector N base_pred name Hs Hn). cbn [rbind].
  now rewrite IH.
Qed.

Lemma pred_vector_nth (N : nat) (base_pred : dict tensor) (name : string) (n : nat) :
  (n < N)%nat -> nth n (pred_vector N base_pred name) 0 = pred_at base_pred n name.
Proof.
  intros Hn. unfold pred_vector.
  rewrite (nth_indep _ 0 ((fun n => pred_at base_pred n name) 0%nat))
    by (rewrite length_map, length_seq; lia).
  rewrite (map_nth (fun n => pred_at base_pred n name)).
  now rewrite seq_nth by lia.
Qed.

(** [np.asarray([base_pred[name] for name in names]).T] *)
Lemma base_models_run (N : nat) (base_pred : dict tensor) (names : list string) :
  Forall (fun kv => shape (snd kv) = [N]) base_pred ->
  Forall (fun name => In name (keys base_pred)) names ->
  names <> [] ->
  exists B0,
    mapM (dict_get base_pred) names = Ok (map T1 (map (pred_vector N base_pred) names))
    /\ np_asarray (map T1 (map (pred_vector N base_pred) names)) = Ok B0
    /\ np_T B0 = T2 (pred_matrix N base_pred names).
Proof.
  intros Hs Hn Hne. destruct names as [|name names]; [congruence|].
  assert (Hv : Forall (is_vector N)
                      (pred_vector N base_pred name
                         :: map (pred_vector N base_pred) names)).
  { change (Forall (is_vector N) (map (pred_vector N base_pred) (name :: names))).
    apply Forall_forall. intros v Hv. apply in_map_iff in Hv.
    destruct Hv as (nm & <- & _). unfold is_vector, pred_vector.
    now rewrite length_map, length_seq. }
  eexists. split; [now apply mapM_dict_get|]. split.
  - cbn [map]. apply (np_asarray_vectors N _ _ Hv).
  - cbn [np_T]. f_equal. rewrite (transpose_vectors N _ _ Hv).
    unfold pred_matrix. apply map_ext_in. intros n Hn'. apply in_seq in Hn'.
    change (pred_vector N base_pred name :: map (pred_vector N base_pred) names)
      with (map (pred_vector N base_pred) (name :: names)).
    rewrite map_map. apply map_ext. intros nm. apply pred_vector_nth. lia.
Qed.

Lemma pred_matrix_shape (N : nat) (base_pred : dict tensor) (names : list string) :
  is_matrix N (length names) (pred_matrix N base_pred names).
Proof.
  unfold pred_matrix, is_matrix. split.
  - now rewrite length_map, length_seq.
  - apply Forall_forall. intros row Hr. apply in_map_iff in Hr.
    destruct Hr as (n & <- & _). unfold is_vector. now rewrite length_map.
Qed.

Lemma weighted_sum_rows (N : nat) (base_pred : dict tensor)
      (names : list string) (w : matrix) :
  length w = N ->
  map sum (map2 (map2 Rmult) (pred_matrix N base_pred names) w)
  = weighted_mean N base_pred names w.
Proof.
  intros Hw. unfold pred_matrix, weighted_mean.
  rewrite <- (map_nth_seq [] w) at 1. rewrite Hw.
  rewrite map2_map_same, map_map. reflexivity.
Qed.

Lemma weighted_plus_residual (N : nat) (base_pred : dict tensor)
      (names : list string) (w : matrix) (r : vector) :
  length r = N ->
  map2 Rplus (weighted_mean N base_pred names w) r
  = predictive_mean N base_pred names w r.
Proof.
  intros Hr. unfold weighted_mean, predictive_mean.
  rewrite <- (map_nth_seq 0 r) at 1. rewrite Hr.
  now rewrite map2_map_same.
Qed.

Lemma weighted_mean_length (N : nat) (base_pred : dict tensor)
      (names : list string) (w : matrix) :
  length (weighted_mean N base_pred names w) = N.
Proof. unfold weighted_mean. now rewrite length_map, length_seq. Qed.

Lemma map2_map_left {A B C D} (f : B -> C -> D) (g : A -> B)
      (la : list A) (lc : list C) :
  map2 f (map g la) lc = map2 (fun a c => f (g a) c) la lc.
Proof.
  revert lc. induction la as [|a la IH]; intros [|c lc]; simpl; try reflexivity.
  now rewrite IH.
Qed.

Lemma map2_ext_right {A B C} (f g : A -> B -> C) (P : B -> Prop)
      (la : list A) (lb : list B) :
  (forall a b, P b -> f a b = g a b) -> Forall P lb ->
  map2 f la lb = map2 g la lb.
Proof.
  intros Hfg Hb. revert la. induction Hb as [|b lb Hb _ IH]; intros [|a la];
    simpl; try reflexivity.
  now rewrite (Hfg a b Hb), IH.
Qed.

Lemma tf_reduce_sum_matrix_rows (m : matrix) :
  tf_reduce_sum (T2 m) 1 = Ok (T1 (map sum m)).
Proof. reflexivity. Qed.

Lemma tf_reduce_sum_cube_rows (c : cube) :
  tf_reduce_sum (T3 c) (-1) = Ok (T2 (map (map sum) c)).
Proof. reflexivity. Qed.

(** The ensemble mean of [model_tailfree], for weights of shape [(N, K)]. *)
Lemma ensemble_mean_matrix (N : nat) (base_pred : dict tensor)
      (names : list string) (w : matrix) :
  is_matrix N (length names) w ->
  exists FW,
    tf_multiply (T2 (pred_matrix N base_pred names)) (T2 w) = Ok FW
    /\ tf_reduce_sum FW 1 = Ok (T1 (weighted_mean N base_pred names w)).
Proof.
  intros Hw. eexists. split.
  - apply (tf_op_matrix Rmult N (length names)); [apply pred_matrix_shape | exact Hw].
  - rewrite tf_reduce_sum_matrix_rows. do 2 f_equal.
    apply weighted_sum_rows. apply Hw.
Qed.

(** The ensemble mean of [sample_posterior_tailfree], for weights of shape
    [(S, N, K)]. *)
Lemma ensemble_mean_cube (S N : nat) (base_pred : dict tensor)
      (names : list string) (c : cube) :
  is_cube S N (length names) c ->
  exists FW,
    tf_multiply (T2 (pred_matrix N base_pred names)) (T3 c) = Ok FW
    /\ tf_reduce_sum FW (-1) = Ok (T2 (map (weighted_mean N base_pred names) c)).
Proof.
  intros Hc. eexists. split.
  - apply (tf_op_matrix_cube Rmult S N (length names));
      [apply pred_matrix_shape | exact Hc].
  - rewrite tf_reduce_sum_cube_rows. do 2 f_equal.
    rewrite map_map. apply map_ext_in. intros w Hin.
    apply weighted_sum_rows. destruct Hc as [_ Hc].
    rewrite Forall_forall in Hc. apply (Hc w Hin).
Qed.

Lemma predictive_mean_length (N : nat) (base_pred : dict tensor)
      (names : list string) (w : matrix) (r : vector) :
  length (predictive_mean N base_pred names w r) = N.
Proof. unfold predictive_mean. now rewrite length_map, length_seq. Qed.

Lemma model_tailfree_run
      (prior : tensor -> dict tensor -> option family_tree -> R -> kwargs ->
               M (tensor * list string))
      (env : latent) (X : tensor) (base_pred : dict tensor)
      (tree : option family_tree) (lw lr : R) (kw : kwargs)
      (tr tr1 : trace) (N D : nat) (w : matrix) (names : list string) :
  shape X = [N; D] ->
  Forall (fun kv => shape (snd kv) = [N]) base_pred ->
  prior X base_pred tree lw kw tr = (Ok (T2 w, names), tr1) ->
  is_matrix N (length names) w ->
  names <> [] ->
  Forall (fun name => In name (keys base_pred)) names ->
  let resid := map (env "ensemble_resid") (seq 0 N) in
  let y := {| rv_name := "y";
              rv_dist := MultivariateNormalDiag
                           (T1 (predictive_mean N base_pred names w resid))
                           (T0 (exp (env "sigma" 0%nat)));
              rv_value := T1 (map (env "y") (seq 0 N)) |} in
  model_tailfree prior env X base_pred tree lw lr kw tr
  = (Ok y,
     tr1 ++ [{| rv_name := "ensemble_resid";
                rv_dist := GaussianProcess X rbf None [("ls", lr)];
                rv_value := T1 resid |};
             {| rv_name := "sigma";
                rv_dist := Normal (T0 _NOISE_PRIOR_MEAN) _NOISE_PRIOR_SDEV;
                rv_value := T0 (env "sigma" 0%nat) |};
             y]).
Proof.
  intros HX Hs Hp Hw Hne Hn resid y.
  destruct (base_models_run N base_pred names Hs Hn Hne) as (B0 & Hd & Ha & HT).
  destruct (ensemble_mean_matrix N base_pred names w Hw) as (FW & Hm & Hr).
  unfold model_tailfree. rewrite HX. cbn [unpack2].
  rewrite (bind_lift_ok (N, D)) by reflexivity.
  rewrite (bind_lift_ok tt) by now apply check_dimension_ok.
  erewrite bind_ok by exact Hp. cbn beta iota.
  erewrite bind_lift_ok by exact Hd.
  erewrite bind_lift_ok by exact Ha.
  rewrite HT.
  erewrite bind_lift_ok by exact Hm.
  erewrite bind_lift_ok by exact Hr.
  erewrite bind_ok by (eapply gp_prior_run; exact HX).
  erewrite bind_ok by (unfold ed_Normal, declare; reflexivity).
  erewrite bind_lift_ok.
  2:{ apply tf_op_vector.
      now rewrite weighted_mean_length, length_map, length_seq. }
  unfold ed_MultivariateNormalDiag, declare. cbn [rv_value tf_exp tmap shape draw].
  rewrite (weighted_plus_residual N base_pred names w _)
    by now rewrite length_map, length_seq.
  subst y resid. rewrite predictive_mean_length.
  rewrite <- !app_assoc. reflexivity.
Qed.

Lemma sample_posterior_tailfree_run
      (compute_cond_weights :
         tensor -> family_tree -> dict tensor -> dict tensor ->
         kernel_func -> link -> R -> R -> result (dict tensor))
      (compute_leaf_weights :
         dict tensor -> family_tree -> result (tensor * list string))
      (X : tensor) (base_pred : dict tensor) (tree : family_tree)
      (weight_gp_dict temp_dict : dict tensor) (r : matrix)
      (kern : kernel_func) (ls : R) (link_func : link) (ridge : R)
      (cond : dict tensor) (c : cube) (names : list string) (Ns N : nat) :
  compute_cond_weights X tree weight_gp_dict temp_dict kern link_func ridge ls
  = Ok cond ->
  compute_leaf_weights cond tree = Ok (T3 c, names) ->
  is_cube Ns N (length names) c ->
  names <> [] ->
  Forall (fun name => In name (keys base_pred)) names ->
  Forall (fun kv => shape (snd kv) = [N]) base_pred ->
  is_matrix Ns N r ->
  sample_posterior_tailfree compute_cond_weights compute_leaf_weights
                            X base_pred tree weight_gp_dict temp_dict (T2 r)
                            kern ls link_func ridge
  = Ok (T2 (map2 (predictive_mean N base_pred names) c r),
        T2 (map (weighted_mean N base_pred names) c),
        T3 c, cond, names).
Proof.
  intros Hc Hl Hcube Hne Hn Hs Hr.
  destruct (base_models_run N base_pred names Hs Hn Hne) as (B0 & Hd & Ha & HT).
  destruct (ensemble_mean_cube Ns N base_pred names c Hcube) as (FW & Hm & Hsum).
  unfold sample_posterior_tailfree.
  rewrite Hc. cbn [rbind]. rewrite Hl. cbn [rbind].
  rewrite Hd. cbn [rbind]. rewrite Ha. cbn [rbind]. rewrite HT.
  rewrite Hm. cbn [rbind]. rewrite Hsum. cbn [rbind].
  unfold tensor_add.
  rewrite (tf_op_matrix Rplus Ns N).
  - cbn [rbind]. do 6 f_equal.
    rewrite map2_map_left.
    apply (map2_ext_right _ _ (is_vector N)); [|apply Hr].
    intros w v Hv. now apply weighted_plus_residual.
  - destruct Hcube as [Lc _]. split; [now rewrite length_map|].
    apply Forall_forall. intros v Hv. apply in_map_iff in Hv.
    destruct Hv as (w & <- & _). apply weighted_mean_length.
  - exact Hr.
Qed.

(** C1.  Let [X] have shape [(N, D)], every value of [base_pred] shape
    [(N,)], and let the tail-free functions hand back at least one leaf name,
    each a key of [base_pred].  When [tail_free.prior] returns weights of
    shape [(N, K)], the location of the observation of [model_tailfree] is, at
    each point [n], the dot product of the predictions of the leaves, in the
    order of the returned names, with row [n] of the weights, plus the draw
    of the residual GP at [n].  When [compute_leaf_weights] returns weights of
    shape [(S, N, K)], the first component of [sample_posterior_tailfree] is,
    in each sample and at each point, the same dot product plus the supplied
    residual sample; its second component is the dot product alone. *)
Theorem ensemble_mean_is_weighted_prediction_plus_residual
        (X : tensor) (base_pred : dict tensor) (N D : nat) (names : list string)
        (prior : tensor -> dict tensor -> option family_tree -> R -> kwargs ->
                 M (tensor * list string))
        (env : latent) (tree : option family_tree) (lw lr : R) (kw : kwargs)
        (tr tr1 : trace) (w : matrix)
        (compute_cond_weights :
           tensor -> family_tree -> dict tensor -> dict tensor ->
           kernel_func -> link -> R -> R -> result (dict tensor))
        (compute_leaf_weights :
           dict tensor -> family_tree -> result (tensor * list string))
        (tree' : family_tree) (weight_gp_dict temp_dict : dict tensor)
        (r : matrix) (kern : kernel_func) (ls : R) (link_func : link) (ridge : R)
        (cond : dict tensor) (c : cube) (Ns : nat) :
  shape X = [N; D] ->
  Forall (fun kv => shape (snd kv) = [N]) base_pred ->
  names <> [] ->
  Forall (fun name => In name (keys base_pred)) names ->
  prior X base_pred tree lw kw tr = (Ok (T2 w, names), tr1) ->
  is_matrix N (length names) w ->
  compute_cond_weights X tree' weight_gp_dict temp_dict kern link_func ridge ls
  = Ok cond ->
  compute_leaf_weights cond tree' = Ok (T3 c, names) ->
  is_cube Ns N (length names) c ->
  is_matrix Ns N r ->
  (exists y tr',
      model_tailfree prior env X base_pred tree lw lr kw tr = (Ok y, tr')
      /\ mean (rv_dist y)
         = Some (T1 (predictive_mean N base_pred names w
                                     (map (env "ensemble_resid") (seq 0 N)))))
  /\ sample_posterior_tailfree compute_cond_weights compute_leaf_weights
                               X base_pred tree' weight_gp_dict temp_dict (T2 r)
                               kern ls link_func ridge
     = Ok (T2 (map2 (predictive_mean N base_pred names) c r),
           T2 (map (weighted_mean N base_pred names) c),
           T3 c, cond, names).
Proof.
  intros HX Hs Hne Hn Hp Hw Hc Hl Hcube Hr. split.
  - eexists. eexists. split.
    + now apply (model_tailfree_run prior env X base_pred tree lw lr kw tr tr1
                                    N D w names).
    + reflexivity.
  - now apply (sample_posterior_tailfree_run _ _ _ _ _ _ _ _ _ _ _ _ _ _ _ Ns N).
Qed.

(** C8.  Whatever [sample_posterior_tailfree] returns is a tuple of five
    components: the sum (NumPy's [+]) of the second and the supplied residual
    draws, the sum along the last axis of the predictions, ordered as the leaf
    names, times the leaf weights, the leaf weights and the leaf names that
    [compute_leaf_weights] returned, and between them the dictionary that
    [compute_cond_weights] returned.  And
    it does return when the shapes fit: for leaf weights of shape
    [(S, N, K)] over [K >= 1] known models with predictions of shape [(N,)]
    and residual draws of shape [(S, N)], the first component is, entry by
    entry, the second plus the residual draws. *)
Theorem sample_posterior_tailfree_returns_five_components
        (compute_cond_weights :
           tensor -> family_tree -> dict tensor -> dict tensor ->
           kernel_func -> link -> R -> R -> result (dict tensor))
        (compute_leaf_weights :
           dict tensor -> family_tree -> result (tensor * list string))
        (X : tensor) (base_pred : dict tensor) (tree : family_tree)
        (weight_gp_dict temp_dict : dict tensor) (resid : tensor)
        (kern : kernel_func) (ls : R) (link_func : link) (ridge : R) :
  let run := sample_posterior_tailfree compute_cond_weights compute_leaf_weights
                                       X base_pred tree weight_gp_dict temp_dict
                                       resid kern ls link_func ridge in
  (forall ensemble_sample ensemble_mean ensemble_weights cond_weights_dict
          ensemble_model_names,
      run = Ok (ensemble_sample, ensemble_mean, ensemble_weights,
                cond_weights_dict, ensemble_model_names) ->
      compute_cond_weights X tree weight_gp_dict temp_dict kern link_func ridge ls
      = Ok cond_weights_dict
      /\ compute_leaf_weights cond_weights_dict tree
         = Ok (ensemble_weights, ensemble_model_names)
      /\ (exists preds B0 FW,
             mapM (dict_get base_pred) ensemble_model_names = Ok preds
             /\ np_asarray preds = Ok B0
             /\ tf_multiply (np_T B0) ensemble_weights = Ok FW
             /\ tf_reduce_sum FW (-1) = Ok ensemble_mean)
      /\ tensor_add ensemble_mean resid = Ok ensemble_sample)
  /\ (forall cond c names Ns N r,
         resid = T2 r ->
         compute_cond_weights X tree weight_gp_dict temp_dict kern link_func ridge ls
         = Ok cond ->
         compute_leaf_weights cond tree = Ok (T3 c, names) ->
         is_cube Ns N (length names) c ->
         names <> [] ->
         Forall (fun name => In name (keys base_pred)) names ->
         Forall (fun kv => shape (snd kv) = [N]) base_pred ->
         is_matrix Ns N r ->
         exists m,
           is_matrix Ns N m
           /\ run = Ok (T2 (map2 (map2 Rplus) m r), T2 m, T3 c, cond, names)).
Proof.
  intros run. subst run. split.
  - intros es em ew cd nm H. unfold sample_posterior_tailfree in H.
    apply rbind_ok_inv in H. destruct H as (cond & Hc & H).
    apply rbind_ok_inv in H. destruct H as ([W names] & Hl & H).
    apply rbind_ok_inv in H. destruct H as (preds & Hp & H).
    apply rbind_ok_inv in H. destruct H as (B0 & HB & H).
    apply rbind_ok_inv in H. destruct H as (FW & HFW & H).
    apply rbind_ok_inv in H. destruct H as (m & Hm & H).
    apply rbind_ok_inv in H. destruct H as (s & Ha & H).
    inversion H; subst. repeat split; try assumption.
    exists preds, B0, FW. now repeat split.
  - intros cond c names Ns N r -> Hc Hl Hcube Hne Hn Hs Hr.
    exists (map (weighted_mean N base_pred names) c). split.
    + destruct Hcube as [Lc _]. split; [now rewrite length_map|].
      apply Forall_forall. intros v Hv. apply in_map_iff in Hv.
      destruct Hv as (w & <- & _). apply weighted_mean_length.
    + rewrite (sample_posterior_tailfree_run _ _ _ _ _ _ _ _ _ _ _ _ cond c names
                                             Ns N Hc Hl Hcube Hne Hn Hs Hr).
      do 6 f_equal. rewrite map2_map_left.
      apply (map2_ext_right _ _ (is_vector N)); [|apply Hr].
      intros w v Hv. symmetry. now apply weighted_plus_residual.
Qed.

Ltac by_shape :=
  repeat match goal with
         | |- is_cube _ _ _ _ => split; [reflexivity|]
         | |- is_matrix _ _ _ => split; [reflexivity|]
         | |- Forall _ _ => constructor
         | |- is_vector _ _ => reflexivity
         | |- In _ _ => simpl; tauto
         | |- _ = _ => reflexivity
         end.

(** C1, on the two base models: the model with the tail-free prior under the
    softmax link, and the posterior over two samples. *)
Lemma ensemble_mean_is_weighted_prediction_plus_residual_witness :
  exists (w : matrix) (c : cube) (cond : dict tensor) (names : list string),
    (exists y tr',
        model_tailfree (tail_free.prior 0 1 Ex.env Ex.softmax rbf 1 10)
                       Ex.env Ex.X Ex.base_pred None 1 1 [] []
        = (Ok y, tr')
        /\ mean (rv_dist y)
           = Some (T1 (predictive_mean 2 Ex.base_pred names w
                                       (map (Ex.env "ensemble_resid") (seq 0 2)))))
    /\ sample_posterior_tailfree tail_free_compute_cond_weights
                                 (tail_free.compute_leaf_weights 10)
                                 Ex.X Ex.base_pred Ex.tree
                                 ExSample.weight_gp_dict ExSample.temp_dict
                                 (T2 ExSample.resid) rbf 1 Ex.softmax 1
       = Ok (T2 (map2 (predictive_mean 2 Ex.base_pred names) c ExSample.resid),
             T2 (map (weighted_mean 2 Ex.base_pred names) c),
             T3 c, cond, names).
Proof.
  let p := eval lazy -[exp IZR Rplus Rmult Rdiv Rinv Ropp] in
             (tail_free.prior 0 1 Ex.env Ex.softmax rbf 1 10
                              Ex.X Ex.base_pred None 1 [] [])
  in let cw := eval lazy -[exp IZR Rplus Rmult Rdiv Rinv Ropp] in
                 (tail_free_compute_cond_weights
                    Ex.X Ex.tree ExSample.weight_gp_dict ExSample.temp_dict
                    rbf Ex.softmax 1 1)
  in match p with
     | (Ok (T2 ?w, ?names), ?tr1) =>
         match cw with
         | Ok ?cond =>
             let lw := eval lazy -[exp IZR Rplus Rmult Rdiv Rinv Ropp] in
                         (tail_free.compute_leaf_weights 10 cond Ex.tree)
             in match lw with
                | Ok (T3 ?c, _) =>
                    exists w, c, cond, names;
                    apply (ensemble_mean_is_weighted_prediction_plus_residual
                             Ex.X Ex.base_pred 2 1 names
                             (tail_free.prior 0 1 Ex.env Ex.softmax rbf 1 10)
                             Ex.env None 1 1 [] [] tr1 w
                             tail_free_compute_cond_weights
                             (tail_free.compute_leaf_weights 10)
                             Ex.tree ExSample.weight_gp_dict ExSample.temp_dict
                             ExSample.resid rbf 1 Ex.softmax 1 cond c 2)
                end
         end
     end.
  all: try discriminate; by_shape.
Defined.

(** C8, on the same posterior over two samples. *)
Lemma sample_posterior_tailfree_returns_five_components_witness :
  exists (m : matrix) (c : cube) (cond : dict tensor) (names : list string),
    is_matrix 2 2 m
    /\ sample_posterior_tailfree tail_free_compute_cond_weights
                                 (tail_free.compute_leaf_weights 10)
                                 Ex.X Ex.base_pred Ex.tree
                                 ExSample.weight_gp_dict ExSample.temp_dict
                                 (T2 ExSample.resid) rbf 1 Ex.softmax 1
       = Ok (T2 (map2 (map2 Rplus) m ExSample.resid), T2 m, T3 c, cond, names).
Proof.
  let cw := eval lazy -[exp IZR Rplus Rmult Rdiv Rinv Ropp] in
              (tail_free_compute_cond_weights
                 Ex.X Ex.tree ExSample.weight_gp_dict ExSample.temp_dict
                 rbf Ex.softmax 1 1)
  in match cw with
     | Ok ?cond =>
         let lw := eval lazy -[exp IZR Rplus Rmult Rdiv Rinv Ropp] in
                     (tail_free.compute_leaf_weights 10 cond Ex.tree)
         in match lw with
            | Ok (T3 ?c, ?names) =>
                destruct (sample_posterior_tailfree_returns_five_components
                            tail_free_compute_cond_weights
                            (tail_free.compute_leaf_weights 10)
                            Ex.X Ex.base_pred Ex.tree
                            ExSample.weight_gp_dict ExSample.temp_dict
                            (T2 ExSample.resid) rbf 1 Ex.softmax 1) as [_ H];
                destruct (H cond c names 2%nat 2%nat ExSample.resid) as (m & Hm & E);
                [..| exists m, c, cond, names; split; [exact Hm | exact E]]
            end
     end.
  all: try discriminate; by_shape.
Defined.

(** ** Arrays of samples *)

Lemma column_nth_default {A} (d : A) (j : nat) (rows : list (list A)) :
  Forall (fun r => (j < length r)%nat) rows ->
  column j rows = map (fun r => nth j r d) rows.
Proof.
  unfold column. induction 1 as [|r rows Hr _ IH]; simpl; [reflexivity|].
  rewrite IH. destruct (nth_error r j) eqn:E.
  - simpl. f_equal. symmetry. now apply nth_error_nth.
  - apply nth_error_None in E. lia.
Qed.

Lemma transpose_rows {A} (d : A) (n : nat) (r : list A) (rows : list (list A)) :
  Forall (fun r => length r = n) (r :: rows) ->
  transpose (r :: rows) = map (fun j => map (fun r => nth j r d) (r :: rows)) (seq 0 n).
Proof.
  intros H. unfold transpose.
  assert (Hr : length r = n) by now inversion H.
  cbn [hd]. rewrite Hr. apply map_ext_in. intros j Hj. apply in_seq in Hj.
  apply column_nth_default. eapply Forall_impl; [|exact H].
  intros u Hu. simpl in Hu. lia.
Qed.

Lemma nth_map_seq {A} (d : A) (f : nat -> A) (n i : nat) :
  (i < n)%nat -> nth i (map f (seq 0 n)) d = f i.
Proof.
  intros Hi. rewrite (nth_indep _ d (f 0%nat)) by (rewrite length_map, length_seq; lia).
  rewrite (map_nth f). now rewrite seq_nth by lia.
Qed.

Lemma at2_tabulate2 (Ns N : nat) (f : nat -> nat -> R) (s n : nat) :
  (s < Ns)%nat -> (n < N)%nat -> at2 (tabulate2 Ns N f) s n = f s n.
Proof.
  intros Hs Hn. unfold at2, tabulate2.
  rewrite (nth_map_seq [] _ Ns s Hs). now apply nth_map_seq.
Qed.

Lemma tabulate2_shape (Ns N : nat) (f : nat -> nat -> R) :
  is_matrix Ns N (tabulate2 Ns N f).
Proof.
  unfold tabulate2. split.
  - now rewrite length_map, length_seq.
  - apply Forall_forall. intros r Hr. apply in_map_iff in Hr.
    destruct Hr as (s & <- & _). unfold is_vector.
    now rewrite length_map, length_seq.
Qed.

Lemma tabulate2_cube_shape (Ns N K : nat) (f : nat -> nat -> list R) :
  (forall s n, (s < Ns)%nat -> (n < N)%nat -> length (f s n) = K) ->
  is_cube Ns N K (tabulate2 Ns N f).
Proof.
  intros Hf. unfold tabulate2. split.
  - now rewrite length_map, length_seq.
  - apply Forall_forall. intros m Hm. apply in_map_iff in Hm.
    destruct Hm as (s & <- & Hs). apply in_seq in Hs. split.
    + now rewrite length_map, length_seq.
    + apply Forall_forall. intros r Hr. apply in_map_iff in Hr.
      destruct Hr as (n & <- & Hn). apply in_seq in Hn. apply Hf; lia.
Qed.

(** A matrix is the table of its entries. *)
Lemma matrix_tabulate2 (Ns N : nat) (m : matrix) :
  is_matrix Ns N m -> m = tabulate2 Ns N (at2 m).
Proof.
  intros [Lm Hm]. unfold tabulate2, at2.
  rewrite <- (map_nth_seq [] m) at 1. rewrite Lm.
  apply map_ext_in. intros s Hs. apply in_seq in Hs.
  assert (Hr : length (nth s m []) = N).
  { rewrite Forall_forall in Hm. apply Hm. apply nth_In. lia. }
  rewrite <- (map_nth_seq 0 (nth s m [])) at 1. now rewrite Hr.
Qed.

(** A cube is the table of its rows. *)
Lemma cube_tabulate2 (Ns N K : nat) (c : cube) :
  is_cube Ns N K c -> c = tabulate2 Ns N (fun s n => nth n (nth s c []) []).
Proof.
  intros [Lc Hc]. unfold tabulate2.
  rewrite <- (map_nth_seq [] c) at 1. rewrite Lc.
  apply map_ext_in. intros s Hs. apply in_seq in Hs.
  assert (Hm : is_matrix N K (nth s c [])).
  { rewrite Forall_forall in Hc. apply Hc. apply nth_In. lia. }
  destruct Hm as [Lm _].
  rewrite <- (map_nth_seq [] (nth s c [])) at 1. now rewrite Lm.
Qed.

Lemma cube_row_length (Ns N K : nat) (c : cube) (s n : nat) :
  is_cube Ns N K c -> (s < Ns)%nat -> (n < N)%nat ->
  length (nth n (nth s c []) []) = K.
Proof.
  intros [Lc Hc] Hs Hn.
  assert (Hm : is_matrix N K (nth s c [])).
  { rewrite Forall_forall in Hc. apply Hc. apply nth_In. lia. }
  destruct Hm as [Lm Hm]. rewrite Forall_forall in Hm. apply Hm.
  apply nth_In. lia.
Qed.

Lemma cube_row_in (Ns N K : nat) (c : cube) (s n : nat) :
  is_cube Ns N K c -> (s < Ns)%nat -> (n < N)%nat ->
  exists m, In m c /\ In (nth n (nth s c []) []) m.
Proof.
  intros [Lc Hc] Hs Hn. exists (nth s c []).
  assert (Hin : In (nth s c []) c) by (apply nth_In; lia).
  split; [exact Hin|]. rewrite Forall_forall in Hc.
  destruct (Hc _ Hin) as [Lm _]. apply nth_In. lia.
Qed.

Lemma mapM_total {A B} (f : A -> result B) (g : A -> B) (l : list A) :
  (forall a, In a l -> f a = Ok (g a)) -> mapM f l = Ok (map g l).
Proof.
  induction l as [|a l IH]; intros H; cbn [mapM map]; [reflexivity|].
  rewrite (H a) by now left. cbn [rbind].
  rewrite IH by (intros b Hb; apply H; now right). reflexivity.
Qed.

Lemma mapM_Forall2 {A B} (f : A -> result B) (Q : A -> B -> Prop) (l : list A) :
  (forall a, In a l -> exists b, f a = Ok b /\ Q a b) ->
  exists bs, mapM f l = Ok bs /\ Forall2 Q l bs.
Proof.
  induction l as [|a l IH]; intros H; cbn [mapM].
  - exists []. split; [reflexivity | constructor].
  - destruct (H a) as (b & Hb & Qb); [now left|].
    destruct IH as (bs & Hbs & Qbs); [intros x Hx; apply H; now right|].
    exists (b :: bs). rewrite Hb. cbn [rbind]. rewrite Hbs. cbn [rbind].
    split; [reflexivity | now constructor].
Qed.

(** [W[..., k]] for an array of shape [(S, N, K)], [k < K]. *)
Lemma index_last_cube (Ns N K : nat) (c : cube) (k : nat) :
  is_cube Ns N K c -> (k < K)%nat ->
  index_last k (T3 c)
  = Ok (T2 (tabulate2 Ns N (fun s n => nth k (nth n (nth s c []) []) 0))).
Proof.
  intros Hc Hk. unfold index_last.
  rewrite (mapM_total _ (map (fun row => nth k row 0)) c).
  - cbn [rbind]. do 2 f_equal.
    rewrite (cube_tabulate2 Ns N K c Hc) at 1. unfold tabulate2.
    rewrite map_map. apply map_ext. intros s. now rewrite map_map.
  - intros m Hm. apply mapM_total. intros row Hrow.
    destruct Hc as [_ Hc]. rewrite Forall_forall in Hc.
    destruct (Hc m Hm) as [_ Hrows]. rewrite Forall_forall in Hrows.
    specialize (Hrows row Hrow). unfold is_vector in Hrows.
    destruct (nth_error row k) eqn:E.
    + f_equal. symmetry. now apply nth_error_nth.
    + apply nth_error_None in E. lia.
Qed.

Lemma map2_tabulate2 (f : R -> R -> R) (Ns N : nat) (g h : nat -> nat -> R) :
  map2 (map2 f) (tabulate2 Ns N g) (tabulate2 Ns N h)
  = tabulate2 Ns N (fun s n => f (g s n) (h s n)).
Proof.
  unfold tabulate2. rewrite map2_map_same. apply map_ext. intros s.
  now rewrite map2_map_same.
Qed.

(** The product of two arrays of shape [(S, N)]. *)
Lemma tf_multiply_samples (Ns N : nat) (a b : matrix) :
  is_matrix Ns N a -> is_matrix Ns N b ->
  tf_multiply (T2 a) (T2 b)
  = Ok (T2 (tabulate2 Ns N (fun s n => at2 a s n * at2 b s n))).
Proof.
  intros Ha Hb. unfold tf_multiply.
  rewrite (tf_op_matrix Rmult Ns N a b Ha Hb). do 2 f_equal.
  rewrite (matrix_tabulate2 Ns N a Ha) at 1.
  rewrite (matrix_tabulate2 Ns N b Hb) at 1.
  apply map2_tabulate2.
Qed.

Lemma shape_sample_matrix (Ns N : nat) (m m' : matrix) :
  is_matrix Ns N m -> is_matrix Ns N m' -> shape (T2 m') = shape (T2 m).
Proof.
  intros [Lm Hm] [Lm' Hm']. cbn [shape]. rewrite Lm, Lm'. f_equal.
  destruct m as [|r m], m' as [|r' m']; simpl in *; try reflexivity; try lia.
  inversion Hm; inversion Hm'; subst. unfold is_vector in *. congruence.
Qed.

Lemma mapM_as_T2 (s : list nat) (ms : list matrix) :
  Forall (fun m => shape (T2 m) = s) ms -> mapM (as_T2 s) (map T2 ms) = Ok ms.
Proof.
  induction 1 as [|m ms Hm _ IH]; cbn [map mapM]; [reflexivity|].
  unfold as_T2 at 1. rewrite Hm, shape_eqb_refl. cbn [rbind]. now rewrite IH.
Qed.

(** Stacking [L >= 1] arrays of shape [(S, N)] on a new last axis. *)
Lemma tf_stack_samples (Ns N : nat) (m : matrix) (ms : list matrix) :
  Forall (is_matrix Ns N) (m :: ms) ->
  tf_stack (map T2 (m :: ms)) (-1)
  = Ok (T3 (tabulate2 Ns N (fun s n => map (fun a => at2 a s n) (m :: ms)))).
Proof.
  intros H. assert (Hm : is_matrix Ns N m) by now inversion H.
  unfold tf_stack. cbn [map rank np_asarray].
  change (T2 m :: map T2 ms) with (map T2 (m :: ms)).
  rewrite (mapM_as_T2 (shape (T2 m)) (m :: ms)).
  2:{ eapply Forall_impl; [|exact H]. intros a Ha.
      now apply (shape_sample_matrix Ns N). }
  replace (normalize_axis (-1) 3) with (Some 2%nat) by reflexivity.
  cbn [rbind]. do 2 f_equal.
  rewrite (transpose_rows [] Ns).
  2:{ eapply Forall_impl; [|exact H]. intros a [La _]. exact La. }
  unfold tabulate2. rewrite map_map.
  apply map_ext_in. intros s Hs. apply in_seq in Hs.
  cbn [map].
  rewrite (transpose_rows 0 N).
  - apply map_ext. intros n.
    change (nth s m [] :: map (fun r => nth s r []) ms)
      with (map (fun r => nth s r []) (m :: ms)).
    rewrite map_map. reflexivity.
  - change (nth s m [] :: map (fun r => nth s r []) ms)
      with (map (fun r => nth s r []) (m :: ms)).
    apply Forall_forall. intros r Hr. apply in_map_iff in Hr.
    destruct Hr as (a & <- & Ha). rewrite Forall_forall in H.
    destruct (H a Ha) as [La Hrows]. rewrite Forall_forall in Hrows.
    apply Hrows. apply nth_In. lia.
Qed.

Lemma stacked_samples_shape (Ns N : nat) (ms : list matrix) :
  is_cube Ns N (length ms)
          (tabulate2 Ns N (fun s n => map (fun a => at2 a s n) ms)).
Proof. apply tabulate2_cube_shape. intros s n _ _. apply length_map. Qed.

(** ** The conditional weights of the tail-free process *)

Lemma dict_find_NoDup {V} (d : dict V) (key : string) (v : V) :
  NoDup (keys d) -> In (key, v) d -> dict_find d key = Some v.
Proof.
  induction d as [|[k u] d IH]; simpl; [tauto|].
  intros Hnd [E | Hin].
  - inversion E; subst. now rewrite String.eqb_refl.
  - inversion Hnd as [|? ? Hk Hnd']; subst.
    destruct (String.eqb_spec k key) as [->|Hne].
    + exfalso. apply Hk. unfold keys. apply in_map_iff. now exists (key, v).
    + now apply IH.
Qed.

Lemma dict_find_Some_in {V} (d : dict V) (key : string) (v : V) :
  dict_find d key = Some v -> In (key, v) d.
Proof.
  induction d as [|[k u] d IH]; simpl; [discriminate|].
  destruct (String.eqb_spec k key) as [->|Hne].
  - intros E. inversion E. now left.
  - intros E. right. now apply IH.
Qed.

Lemma children_of_Some (tree : family_tree) (node : string) (cs : list string) :
  tail_free.children_of tree node = Some cs ->
  dict_find tree node = Some cs /\ cs <> [].
Proof.
  unfold tail_free.children_of. destruct (dict_find tree node) as [[|c cs']|];
    intros E; inversion E; subst. split; [reflexivity | discriminate].
Qed.

Lemma child_is_nonroot (tree : family_tree) (node child : string)
      (cs : list string) :
  tail_free.children_of tree node = Some cs -> In child cs ->
  In child (tail_free.get_nonroot_node_names tree).
Proof.
  intros Hc Hin. apply children_of_Some in Hc. destruct Hc as [Hf _].
  apply dict_find_Some_in in Hf.
  unfold tail_free.get_nonroot_node_names. apply in_concat.
  exists cs. split; [|exact Hin]. unfold values. apply in_map_iff.
  now exists (node, cs).
Qed.

Lemma parent_names_spec (tree : family_tree) (p : string) :
  NoDup (keys tree) ->
  In p (tail_free.get_parent_node_names tree) ->
  exists cs, tail_free.children_of tree p = Some cs.
Proof.
  intros Hnd Hin. unfold tail_free.get_parent_node_names, keys in Hin.
  apply in_map_iff in Hin. destruct Hin as ([k cs] & <- & Hf).
  apply filter_In in Hf. destruct Hf as [Hi Hne]. simpl in *.
  exists cs. unfold tail_free.children_of.
  rewrite (dict_find_NoDup tree k cs Hnd Hi). destruct cs; [discriminate | reflexivity].
Qed.

Lemma children_of_parent_names (tree : family_tree) (p : string) (cs : list string) :
  tail_free.children_of tree p = Some cs ->
  In p (tail_free.get_parent_node_names tree).
Proof.
  intros Hc. apply children_of_Some in Hc. destruct Hc as [Hf Hne].
  apply dict_find_Some_in in Hf.
  unfold tail_free.get_parent_node_names, keys. apply in_map_iff.
  exists (p, cs). split; [reflexivity|]. apply filter_In. split; [exact Hf|].
  simpl. destruct cs; [congruence | reflexivity].
Qed.

(** A dictionary built entry by entry holds, for each key, what was computed
    for it. *)
Lemma mapM_dict {V} (f : string -> result (string * V)) (Q : string -> V -> Prop)
      (l : list string) :
  (forall p, In p l -> exists v, f p = Ok (p, v) /\ Q p v) ->
  exists d, mapM f l = Ok d
            /\ forall p, In p l -> exists v, dict_find d p = Some v /\ Q p v.
Proof.
  induction l as [|a l IH]; intros H; cbn [mapM].
  - exists []. split; [reflexivity | intros p []].
  - destruct (H a) as (v & Hv & Qv); [now left|].
    destruct IH as (d & Hd & Qd); [intros x Hx; apply H; now right|].
    exists ((a, v) :: d). rewrite Hv. cbn [rbind]. rewrite Hd. cbn [rbind].
    split; [reflexivity|]. intros p Hp. cbn [dict_find].
    destruct (String.eqb_spec a p) as [->|Hne].
    + now exists v.
    + destruct Hp as [-> | Hp]; [congruence | now apply Qd].
Qed.

Lemma tensors_are_matrices {A} (P : matrix -> Prop) (cs : list A)
      (ts : list tensor) :
  Forall2 (fun _ t => exists m, t = T2 m /\ P m) cs ts ->
  exists ms, ts = map T2 ms /\ Forall P ms /\ length ms = length cs.
Proof.
  induction 1 as [|child t cs' ts' Hm _ IH].
  - exists []. repeat split; constructor.
  - destruct Hm as (m & Et & Hm). destruct IH as (ms & Ets & Hms & Lms).
    exists (m :: ms). subst. repeat split; [now constructor | simpl; congruence].
Qed.

Lemma compute_cond_weights_run (Ns N : nat) (link_func : link)
      (tree : family_tree) (raw temps : dict tensor) :
  NoDup (keys tree) ->
  (forall node, In node (tail_free.get_nonroot_node_names tree) ->
                exists m, dict_find raw node = Some (T2 m) /\ is_matrix Ns N m) ->
  (forall p, In p (tail_free.get_parent_node_names tree) ->
             exists t, dict_find temps p = Some (T1 t) /\ length t = Ns) ->
  simplex_link Ns N link_func ->
  exists cond,
    tail_free.compute_cond_weights link_func tree raw temps = Ok cond
    /\ conditional_weights Ns N tree cond.
Proof.
  intros Hnd Hraw Htemp Hlink. unfold tail_free.compute_cond_weights.
  destruct (mapM_dict
              (fun parent =>
                 children <- dict_get tree parent ;;
                 raw0 <- mapM (dict_get raw) children ;;
                 stacked <- tf_stack raw0 (-1) ;;
                 temp <- dict_get temps parent ;;
                 w <- link_func stacked (tf_exp temp) ;;
                 Ok (parent, w))
              (fun p v => forall cs, tail_free.children_of tree p = Some cs ->
                                     exists w, v = T3 w
                                               /\ is_cube Ns N (length cs) w
                                               /\ Forall (Forall row_stochastic) w)
              (tail_free.get_parent_node_names tree)) as (cond & Hc & Hq).
  - intros p Hp. destruct (parent_names_spec tree p Hnd Hp) as (cs & Hcs).
    destruct (children_of_Some tree p cs Hcs) as [Hf Hne].
    unfold dict_get at 1. rewrite Hf. cbn [rbind].
    destruct (mapM_Forall2 (dict_get raw)
                           (fun child t => exists m, t = T2 m /\ is_matrix Ns N m) cs)
      as (ts & Hts & Fts).
    { intros child Hin.
      destruct (Hraw child (child_is_nonroot tree p child cs Hcs Hin))
        as (m & Hm & Hs).
      exists (T2 m). unfold dict_get. rewrite Hm. split; [reflexivity|].
      now exists m. }
    rewrite Hts. cbn [rbind].
    pose proof (tensors_are_matrices (is_matrix Ns N) cs ts Fts) as Hms.
    destruct Hms as (ms & -> & Hms & Lms).
    destruct ms as [|m ms]; [destruct cs; [congruence | discriminate]|].
    rewrite (tf_stack_samples Ns N m ms Hms). cbn [rbind].
    destruct (Htemp p Hp) as (t & Ht & Lt).
    unfold dict_get. rewrite Ht. cbn [rbind].
    destruct (Hlink (length (m :: ms))
                    (tabulate2 Ns N (fun s n => map (fun a => at2 a s n) (m :: ms)))
                    t) as (w & Hw & Sw & Pw).
    + simpl. lia.
    + apply stacked_samples_shape.
    + exact Lt.
    + rewrite Hw. cbn [rbind]. exists (T3 w). split; [reflexivity|].
      intros cs' Hcs'. rewrite Hcs in Hcs'. inversion Hcs'; subst cs'.
      exists w. rewrite <- Lms. split; [reflexivity | split; [exact Sw | exact Pw]].
  - exists cond. split; [exact Hc|]. intros p cs Hcs.
    destruct (Hq p (children_of_parent_names tree p cs Hcs)) as (v & Hv & Qv).
    destruct (Qv cs Hcs) as (w & -> & Sw & Pw). exists w.
    split; [exact Hv | split; [exact Sw | exact Pw]].
Qed.

(** ** The composition of conditional weights into leaf weights *)

Lemma sum_app (u v : vector) : sum (u ++ v) = sum u + sum v.
Proof. induction u as [|x u IH]; simpl; [lra | rewrite IH; lra]. Qed.

Lemma sum_concat_map {A} (f : A -> R) (ls : list (list A)) :
  sum (map f (concat ls)) = sum (map (fun l => sum (map f l)) ls).
Proof.
  induction ls as [|l ls IH]; simpl; [reflexivity|].
  now rewrite map_app, sum_app, IH.
Qed.

Lemma sum_Forall2 {A B} (g : B -> R) (h : A -> R) (la : list A) (lb : list B) :
  Forall2 (fun a b => g b = h a) la lb -> sum (map g lb) = sum (map h la).
Proof. induction 1 as [|a b la lb E _ IH]; simpl; [reflexivity | now rewrite E, IH]. Qed.

Lemma sum_scale (c : R) {A} (g : A -> R) (l : list A) :
  sum (map (fun a => c * g a) l) = c * sum (map g l).
Proof. induction l as [|a l IH]; simpl; [lra | rewrite IH; lra]. Qed.

Lemma map_fst_combine_seq {A} (l : list A) :
  map fst (combine (seq 0 (length l)) l) = seq 0 (length l).
Proof.
  generalize 0%nat. induction l as [|a l IH]; intros k; simpl; [reflexivity|].
  now rewrite IH.
Qed.

Lemma sum_row_by_index (K : nat) (row : vector) :
  length row = K -> sum (map (fun k => nth k row 0) (seq 0 K)) = sum row.
Proof. intros <-. now rewrite map_nth_seq. Qed.

Lemma row_entry_in_unit (row : vector) (k : nat) :
  row_stochastic row -> 0 <= nth k row 0 <= 1.
Proof.
  intros [_ H]. destruct (Nat.lt_ge_cases k (length row)) as [Hk | Hk].
  - rewrite Forall_forall in H. apply H. now apply nth_In.
  - rewrite nth_overflow by lia. lra.
Qed.

Lemma cube_row_stochastic (Ns N K : nat) (c : cube) (s n : nat) :
  is_cube Ns N K c -> Forall (Forall row_stochastic) c ->
  (s < Ns)%nat -> (n < N)%nat -> row_stochastic (nth n (nth s c []) []).
Proof.
  intros Hc Hst Hs Hn.
  destruct (cube_row_in Ns N K c s n Hc Hs Hn) as (m & Hm & Hr).
  rewrite Forall_forall in Hst. specialize (Hst m Hm).
  rewrite Forall_forall in Hst. now apply Hst.
Qed.

(** One step down the tree: the weight handed to child [k]. *)
Lemma child_weight (Ns N K : nat) (w : cube) (acc : option tensor) (k : nat) :
  is_cube Ns N K w -> Forall (Forall row_stochastic) w -> (k < K)%nat ->
  (forall t, acc = Some t -> unit_weights Ns N t) ->
  exists m,
    (col <- index_last k (T3 w) ;;
     match acc with
     | None => Ok col
     | Some a => tf_multiply a col
     end) = Ok (T2 m)
    /\ unit_weights Ns N (T2 m)
    /\ forall s n, (s < Ns)%nat -> (n < N)%nat ->
         at2 m s n = acc_at2 acc s n * nth k (nth n (nth s w []) []) 0.
Proof.
  intros Hw Hst Hk Hacc.
  rewrite (index_last_cube Ns N K w k Hw Hk). cbn [rbind].
  set (col := tabulate2 Ns N (fun s n => nth k (nth n (nth s w []) []) 0)).
  assert (Hcol : forall s n, (s < Ns)%nat -> (n < N)%nat ->
                   0 <= nth k (nth n (nth s w []) []) 0 <= 1).
  { intros s n Hs Hn. apply row_entry_in_unit.
    now apply (cube_row_stochastic Ns N K). }
  destruct acc as [t|].
  - destruct (Hacc t eq_refl) as (a & -> & Ha & Ba).
    rewrite (tf_multiply_samples Ns N a col Ha (tabulate2_shape Ns N _)).
    eexists. split; [reflexivity|]. split.
    + eexists. split; [reflexivity|]. split; [apply tabulate2_shape|].
      intros s n Hs Hn. rewrite at2_tabulate2 by assumption.
      unfold col. rewrite at2_tabulate2 by assumption.
      specialize (Ba s n Hs Hn). specialize (Hcol s n Hs Hn). nra.
    + intros s n Hs Hn. rewrite at2_tabulate2 by assumption.
      unfold col. rewrite at2_tabulate2 by assumption. reflexivity.
  - exists col. split; [reflexivity|]. split.
    + exists col. split; [reflexivity|]. split; [apply tabulate2_shape|].
      intros s n Hs Hn. unfold col. rewrite at2_tabulate2 by assumption.
      now apply Hcol.
    + intros s n Hs Hn. unfold col. rewrite at2_tabulate2 by assumption.
      cbn [acc_at2]. lra.
Qed.

Lemma leaf_weights_run (Ns N : nat) (tree : family_tree) (cond : dict tensor) :
  conditional_weights Ns N tree cond ->
  forall (depth : nat) (node : string) (acc : option tensor),
    within_depth depth tree node = true ->
    (forall t, acc = Some t -> unit_weights Ns N t) ->
    (acc = None -> tail_free.children_of tree node <> None) ->
    (acc <> None -> In node (tail_free.get_nonroot_node_names tree)) ->
    exists leaves,
      tail_free.leaf_weights depth tree cond node acc = Ok leaves
      /\ leaves <> []
      /\ Forall (fun lt => unit_weights Ns N (snd lt) /\ is_leaf tree (fst lt)) leaves
      /\ forall s n, (s < Ns)%nat -> (n < N)%nat ->
           sum (map (fun lt => tensor_at2 (snd lt) s n) leaves) = acc_at2 acc s n.
Proof.
  intros Hcond depth. induction depth as [|depth IH]; intros node acc Hd Hacc Hroot Hnr.
  - (* no parent may be passed: the node is a leaf *)
    cbn [within_depth] in Hd. cbn [tail_free.leaf_weights].
    destruct (tail_free.children_of tree node) as [cs|] eqn:Hcs; [discriminate|].
    destruct acc as [t|]; [|exfalso; now apply Hroot].
    exists [(node, t)]. split; [reflexivity|]. split; [discriminate|]. split.
    + constructor; [|constructor]. split; [now apply Hacc|].
      split; [exact Hcs | apply Hnr; discriminate].
    + intros s n _ _. simpl. lra.
  - cbn [within_depth] in Hd. cbn [tail_free.leaf_weights].
    destruct (tail_free.children_of tree node) as [cs|] eqn:Hcs.
    + destruct (Hcond node cs Hcs) as (w & Hw & Sw & Pw).
      unfold dict_get. rewrite Hw. cbn [rbind].
      destruct (mapM_Forall2
                  (fun kc =>
                     col <- index_last (fst kc) (T3 w) ;;
                     w0 <- match acc with
                           | None => Ok col
                           | Some a => tf_multiply a col
                           end ;;
                     tail_free.leaf_weights depth tree cond (snd kc) (Some w0))
                  (fun kc leaves =>
                     leaves <> []
                     /\ Forall (fun lt => unit_weights Ns N (snd lt)
                                          /\ is_leaf tree (fst lt)) leaves
                     /\ forall s n, (s < Ns)%nat -> (n < N)%nat ->
                          sum (map (fun lt => tensor_at2 (snd lt) s n) leaves)
                          = acc_at2 acc s n
                            * nth (fst kc) (nth n (nth s w []) []) 0)
                  (combine (seq 0 (length cs)) cs)) as (below & Hb & Fb).
      { intros [k child] Hin. cbn [fst snd].
        assert (Hk : (k < length cs)%nat).
        { apply in_combine_l in Hin. apply in_seq in Hin. lia. }
        assert (Hchild : In child cs) by now apply in_combine_r in Hin.
        destruct (child_weight Ns N (length cs) w acc k Sw Pw Hk Hacc)
          as (m & Hm & Um & Am).
        apply rbind_ok_inv in Hm. destruct Hm as (col & Hcol & Hm).
        rewrite Hcol. cbn [rbind]. rewrite Hm. cbn [rbind].
        destruct (IH child (Some (T2 m))) as (leaves & Hl & Hne & Fl & Sl).
        - rewrite forallb_forall in Hd. now apply Hd.
        - intros t E. inversion E; subst. exact Um.
        - discriminate.
        - intros _. now apply (child_is_nonroot tree node child cs).
        - exists leaves. split; [exact Hl|]. split; [exact Hne|].
          split; [exact Fl|]. intros s n Hs Hn.
          rewrite (Sl s n Hs Hn). cbn [acc_at2 tensor_at2]. now apply Am. }
      rewrite Hb. cbn [rbind]. exists (concat below).
      split; [reflexivity|].
      destruct (children_of_Some tree node cs Hcs) as [_ Hne].
      split; [|split].
      * destruct cs as [|c0 cs']; [congruence|].
        cbn [length seq combine] in Fb. inversion Fb as [|? l ? below' Hq _]; subst.
        destruct Hq as [Hl _]. cbn [concat]. destruct l; [congruence | discriminate].
      * apply Forall_concat. clear Hb.
        induction Fb as [|kc l ? ? Hq _ IHF]; constructor; [apply Hq | exact IHF].
      * intros s n Hs Hn. rewrite sum_concat_map.
        rewrite (sum_Forall2
                   (fun l => sum (map (fun lt => tensor_at2 (snd lt) s n) l))
                   (fun kc => acc_at2 acc s n
                              * nth (fst kc) (nth n (nth s w []) []) 0)
                   (combine (seq 0 (length cs)) cs) below).
        -- rewrite sum_scale.
           rewrite <- (map_map fst (fun k => nth k (nth n (nth s w []) []) 0)).
           rewrite map_fst_combine_seq.
           rewrite sum_row_by_index
             by now apply (cube_row_length Ns N (length cs)).
           destruct (cube_row_stochastic Ns N (length cs) w s n Sw Pw Hs Hn)
             as [E _].
           rewrite E. lra.
        -- clear Hb. induction Fb as [|kc l ? ? Hq _ IHF]; constructor.
           ++ destruct Hq as (_ & _ & Hq). now apply Hq.
           ++ exact IHF.
    + destruct acc as [t|]; [|exfalso; now apply Hroot].
      exists [(node, t)]. split; [reflexivity|]. split; [discriminate|]. split.
      * constructor; [|constructor]. split; [now apply Hacc|].
        split; [exact Hcs | apply Hnr; discriminate].
      * intros s n _ _. simpl. lra.
Qed.

Lemma Forall_tabulate2 {A} (P : A -> Prop) (Ns N : nat) (f : nat -> nat -> A) :
  (forall s n, (s < Ns)%nat -> (n < N)%nat -> P (f s n)) ->
  Forall (Forall P) (tabulate2 Ns N f).
Proof.
  intros H. unfold tabulate2. apply Forall_forall. intros m Hm.
  apply in_map_iff in Hm. destruct Hm as (s & <- & Hs). apply in_seq in Hs.
  apply Forall_forall. intros r Hr. apply in_map_iff in Hr.
  destruct Hr as (n & <- & Hn). apply in_seq in Hn. apply H; lia.
Qed.

Lemma leaves_are_matrices (Ns N : nat) (tree : family_tree)
      (leaves : list (string * tensor)) :
  Forall (fun lt => unit_weights Ns N (snd lt) /\ is_leaf tree (fst lt)) leaves ->
  exists ms,
    values leaves = map T2 ms
    /\ length ms = length leaves
    /\ Forall (is_matrix Ns N) ms
    /\ Forall (fun m => forall s n, (s < Ns)%nat -> (n < N)%nat ->
                                    0 <= at2 m s n <= 1) ms.
Proof.
  induction 1 as [|[nm t] leaves [(m & Et & Hm & Bm) _] _ IH]; cbn [values map].
  - exists []. repeat split; constructor.
  - destruct IH as (ms & E & L & Hms & Bms). simpl in Et. subst t.
    exists (m :: ms). unfold values in E. rewrite E.
    repeat split; [simpl; congruence | now constructor | now constructor].
Qed.

Lemma compute_leaf_weights_run (Ns N : nat) (tree : family_tree)
      (cond : dict tensor) (depth : nat) :
  conditional_weights Ns N tree cond ->
  within_depth depth tree tail_free.ROOT_NODE_DEFAULT_NAME = true ->
  tail_free.children_of tree tail_free.ROOT_NODE_DEFAULT_NAME <> None ->
  exists c names,
    tail_free.compute_leaf_weights depth cond tree = Ok (T3 c, names)
    /\ names <> []
    /\ is_cube Ns N (length names) c
    /\ Forall (Forall row_stochastic) c
    /\ Forall (is_leaf tree) names.
Proof.
  intros Hcond Hd Hroot.
  destruct (leaf_weights_run Ns N tree cond Hcond depth
                             tail_free.ROOT_NODE_DEFAULT_NAME None Hd)
    as (leaves & Hl & Hne & Fl & Sl).
  - intros t E. discriminate.
  - intros _. exact Hroot.
  - intros E. congruence.
  - destruct (leaves_are_matrices Ns N tree leaves Fl) as (ms & Ev & Lms & Hms & Bms).
    unfold tail_free.compute_leaf_weights. rewrite Hl. cbn [rbind]. rewrite Ev.
    destruct ms as [|m ms]; [destruct leaves; [congruence | discriminate]|].
    rewrite (tf_stack_samples Ns N m ms Hms). cbn [rbind].
    eexists. eexists. split; [reflexivity|].
    split; [|split; [|split]].
    + unfold keys. destruct leaves; [congruence | discriminate].
    + unfold keys. rewrite length_map, <- Lms. apply stacked_samples_shape.
    + apply Forall_tabulate2. intros s n Hs Hn. split.
      * pose proof (Sl s n Hs Hn) as E. cbn [acc_at2] in E. rewrite <- E.
        replace (map (fun lt => tensor_at2 (snd lt) s n) leaves)
          with (map (fun t => tensor_at2 t s n) (values leaves))
          by (unfold values; now rewrite map_map).
        rewrite Ev, map_map. reflexivity.
      * apply Forall_forall. intros x Hx. apply in_map_iff in Hx.
        destruct Hx as (a & <- & Ha). rewrite Forall_forall in Bms.
        now apply Bms.
    + unfold keys. apply Forall_forall. intros nm Hnm. apply in_map_iff in Hnm.
      destruct Hnm as (lt & <- & Hlt). rewrite Forall_forall in Fl.
      now apply Fl.
Qed.

(** C2.  Let the tree be a dictionary whose root ["root"] has children and
    below which every path ends within [depth] parents; let every node that
    is not the root have raw weight draws of shape [(S, N)] and every parent
    temperature draws of shape [(S,)]; let the link function return, on
    logits of shape [(S, N, K)] with [K >= 1], an array of that shape whose
    rows are probability vectors; and let the leaves be base models with
    predictions of shape [(N,)] and the residual draws of shape [(S, N)].
    Then [sample_posterior_tailfree] over the tail-free functions, with a
    recursion limit of [depth], returns, and its per-leaf weights have shape
    [(S, N, L)] for the [L] returned leaf names, with every row summing to 1,
    so within any tolerance of 1, and every entry between 0 and 1. *)
Theorem leaf_weights_rows_are_probability_vectors
        (X : tensor) (base_pred : dict tensor) (tree : family_tree)
        (weight_gp_dict temp_dict : dict tensor) (r : matrix)
        (kern : kernel_func) (ls : R) (link_func : link) (ridge : R)
        (depth Ns N : nat) :
  NoDup (keys tree) ->
  tail_free.children_of tree tail_free.ROOT_NODE_DEFAULT_NAME <> None ->
  within_depth depth tree tail_free.ROOT_NODE_DEFAULT_NAME = true ->
  (forall node, In node (tail_free.get_nonroot_node_names tree) ->
                exists m, dict_find weight_gp_dict node = Some (T2 m)
                          /\ is_matrix Ns N m) ->
  (forall p, In p (tail_free.get_parent_node_names tree) ->
             exists t, dict_find temp_dict p = Some (T1 t) /\ length t = Ns) ->
  simplex_link Ns N link_func ->
  (forall name, is_leaf tree name -> In name (keys base_pred)) ->
  Forall (fun kv => shape (snd kv) = [N]) base_pred ->
  is_matrix Ns N r ->
  exists ensemble_sample ensemble_mean c cond names,
    sample_posterior_tailfree tail_free_compute_cond_weights
                              (tail_free.compute_leaf_weights depth)
                              X base_pred tree weight_gp_dict temp_dict (T2 r)
                              kern ls link_func ridge
    = Ok (ensemble_sample, ensemble_mean, T3 c, cond, names)
    /\ is_cube Ns N (length names) c
    /\ Forall (Forall (fun row => row_stochastic row
                                  /\ Rabs (sum row - 1) <= 1 / 100000)) c.
Proof.
  intros Hnd Hroot Hd Hraw Htemp Hlink Hleaf Hs Hr.
  destruct (compute_cond_weights_run Ns N link_func tree weight_gp_dict temp_dict
                                     Hnd Hraw Htemp Hlink) as (cond & Hc & Hcond).
  destruct (compute_leaf_weights_run Ns N tree cond depth Hcond Hd Hroot)
    as (c & names & Hl & Hne & Sc & Pc & Ln).
  eexists. eexists. exists c, cond, names. split; [|split].
  - apply (sample_posterior_tailfree_run
             tail_free_compute_cond_weights (tail_free.compute_leaf_weights depth)
             X base_pred tree weight_gp_dict temp_dict r kern ls link_func ridge
             cond c names Ns N); try assumption.
    eapply Forall_impl; [|exact Ln]. intros nm. apply Hleaf.
  - exact Sc.
  - eapply Forall_impl; [|exact Pc]. intros m Hm.
    eapply Forall_impl; [|exact Hm]. intros row Hrow. split; [exact Hrow|].
    destruct Hrow as [E _]. rewrite E.
    replace (1 - 1) with 0 by lra. rewrite Rabs_R0. lra.
Qed.

(** ** The softmax link is a simplex link *)

Lemma sum_div (Z : R) {A} (g : A -> R) (l : list A) :
  sum (map (fun a => g a / Z) l) = sum (map g l) / Z.
Proof.
  unfold Rdiv. induction l as [|a l IH]; simpl; [lra | rewrite IH; lra].
Qed.

Lemma sum_exp_pos (t : R) (row : vector) :
  row <> [] -> 0 < sum (map (fun y => exp (y * t)) row).
Proof.
  assert (H0 : forall l, 0 <= sum (map (fun y => exp (y * t)) l)).
  { induction l as [|x l IH]; simpl; [lra|].
    pose proof (exp_pos (x * t)). lra. }
  destruct row as [|x row]; [congruence|]. intros _. simpl.
  pose proof (exp_pos (x * t)). specialize (H0 row). lra.
Qed.

Lemma exp_le_sum_exp (t x : R) (row : vector) :
  In x row -> exp (x * t) <= sum (map (fun y => exp (y * t)) row).
Proof.
  assert (H0 : forall l, 0 <= sum (map (fun y => exp (y * t)) l)).
  { induction l as [|y l IH]; simpl; [lra|].
    pose proof (exp_pos (y * t)). lra. }
  induction row as [|y row IH]; simpl; [tauto|].
  intros [-> | Hin].
  - specialize (H0 row). lra.
  - specialize (IH Hin). pose proof (exp_pos (y * t)). lra.
Qed.

Lemma softmax_row_stochastic (t : R) (row : vector) :
  row <> [] -> row_stochastic (Ex.softmax_row t row).
Proof.
  intros Hne. pose proof (sum_exp_pos t row Hne) as HZ.
  unfold row_stochastic, Ex.softmax_row. split.
  - rewrite (sum_div _ (fun x => exp (x * t))). field. lra.
  - apply Forall_forall. intros v Hv. apply in_map_iff in Hv.
    destruct Hv as (x & <- & Hx).
    pose proof (exp_pos (x * t)) as Hp.
    pose proof (exp_le_sum_exp t x row Hx) as Hle.
    split.
    + apply Rlt_le. now apply Rdiv_lt_0_compat.
    + apply (Rmult_le_reg_r (sum (map (fun y => exp (y * t)) row))); [exact HZ|].
      unfold Rdiv. rewrite Rmult_assoc, Rinv_l by lra. lra.
Qed.

Lemma Forall_map2 {A B C} (P : C -> Prop) (f : A -> B -> C)
      (la : list A) (lb : list B) :
  (forall a b, In a la -> P (f a b)) -> Forall P (map2 f la lb).
Proof.
  revert lb. induction la as [|a la IH]; intros [|b lb] H; simpl; constructor.
  - apply H. now left.
  - apply IH. intros a' b' Hin. apply H. now right.
Qed.

Lemma softmax_simplex_link (Ns N : nat) : simplex_link Ns N Ex.softmax.
Proof.
  intros K logits temp HK [Lc Hc] Lt. rewrite Forall_forall in Hc.
  eexists. split; [|split].
  - cbn [tf_exp tmap Ex.softmax]. rewrite length_map, Lc, Lt, Nat.eqb_refl.
    reflexivity.
  - split.
    + rewrite map2_length; [exact Lc | rewrite length_map; congruence].
    + apply Forall_map2. intros m t Hm. destruct (Hc m Hm) as [Lm Hrows].
      split; [now rewrite length_map|].
      apply Forall_forall. intros row Hrow. apply in_map_iff in Hrow.
      destruct Hrow as (row0 & <- & Hrow0). rewrite Forall_forall in Hrows.
      unfold is_vector, Ex.softmax_row. rewrite length_map. now apply Hrows.
  - apply Forall_map2. intros m t Hm. destruct (Hc m Hm) as [Lm Hrows].
    apply Forall_forall. intros row Hrow. apply in_map_iff in Hrow.
    destruct Hrow as (row0 & <- & Hrow0). rewrite Forall_forall in Hrows.
    apply softmax_row_stochastic. specialize (Hrows row0 Hrow0).
    unfold is_vector in Hrows. destruct row0; [simpl in Hrows; lia | discriminate].
Qed.

(** C2, on the flat tree over two models, two samples and two points, with
    the softmax link. *)
Lemma leaf_weights_rows_are_probability_vectors_witness :
  exists ensemble_sample ensemble_mean c cond names,
    sample_posterior_tailfree tail_free_compute_cond_weights
                              (tail_free.compute_leaf_weights 10)
                              Ex.X Ex.base_pred Ex.tree
                              ExSample.weight_gp_dict ExSample.temp_dict
                              (T2 ExSample.resid) rbf 1 Ex.softmax 1
    = Ok (ensemble_sample, ensemble_mean, T3 c, cond, names)
    /\ is_cube 2 2 (length names) c
    /\ Forall (Forall (fun row => row_stochastic row
                                  /\ Rabs (sum row - 1) <= 1 / 100000)) c.
Proof.
  apply (leaf_weights_rows_are_probability_vectors
           Ex.X Ex.base_pred Ex.tree ExSample.weight_gp_dict ExSample.temp_dict
           ExSample.resid rbf 1 Ex.softmax 1 10 2 2).
  - repeat constructor. simpl. tauto.
  - discriminate.
  - reflexivity.
  - intros node [<- | [<- | []]]; eexists; (split; [reflexivity | by_shape]).
  - intros p [<- | []]. eexists. split; reflexivity.
  - apply softmax_simplex_link.
  - intros name [_ H]. exact H.
  - by_shape.
  - by_shape.
Defined.

(** ** The flat ensemble as a tree with one parent *)

Lemma index_last_matrix (N K : nat) (w : matrix) (k : nat) :
  is_matrix N K w -> (k < K)%nat ->
  index_last k (T2 w) = Ok (T1 (map (fun row => nth k row 0) w)).
Proof.
  intros [_ Hw] Hk. unfold index_last.
  rewrite (mapM_total _ (fun row => nth k row 0) w); [reflexivity|].
  intros row Hrow. rewrite Forall_forall in Hw. specialize (Hw row Hrow).
  unfold is_vector in Hw. destruct (nth_error row k) eqn:E.
  - f_equal. symmetry. now apply nth_error_nth.
  - apply nth_error_None in E. lia.
Qed.

Lemma nth_column_entry (w : matrix) (k n : nat) :
  nth n (map (fun row => nth k row 0) w) 0 = nth k (nth n w []) 0.
Proof.
  replace 0 with ((fun row : vector => nth k row 0) []) at 1
    by (destruct k; reflexivity).
  apply (map_nth (fun row : vector => nth k row 0)).
Qed.

Lemma sum_row_by_index_list (K : nat) (row : vector) :
  is_vector K row -> map (fun k => nth k row 0) (seq 0 K) = row.
Proof. unfold is_vector. intros <-. apply map_nth_seq. Qed.

(** Stacking the columns of a matrix gives the matrix back. *)
Lemma transpose_columns (N K : nat) (w : matrix) :
  is_matrix N K w -> (1 <= K)%nat ->
  transpose (map (fun k => map (fun row => nth k row 0) w) (seq 0 K)) = w.
Proof.
  intros Hw HK. destruct K as [|K]; [lia|].
  cbn [seq map].
  rewrite (transpose_vectors N).
  - change (map (fun row => nth 0 row 0) w
              :: map (fun k => map (fun row => nth k row 0) w) (seq 1 K))
      with (map (fun k => map (fun row => nth k row 0) w) (seq 0 (S K))).
    destruct Hw as [Lw Hrows].
    transitivity (map (fun n => nth n w []) (seq 0 N));
      [|now rewrite <- Lw, map_nth_seq].
    apply map_ext_in. intros n Hn. apply in_seq in Hn.
    rewrite map_map.
    rewrite (map_ext _ (fun k => nth k (nth n w []) 0))
      by (intros k; apply nth_column_entry).
    apply sum_row_by_index_list.
    rewrite Forall_forall in Hrows. apply Hrows. apply nth_In. lia.
  - change (Forall (is_vector N)
                   (map (fun k => map (fun row => nth k row 0) w) (seq 0 (S K)))).
    apply Forall_forall. intros v Hv. apply in_map_iff in Hv.
    destruct Hv as (k & <- & _). unfold is_vector. rewrite length_map. apply Hw.
Qed.

Lemma dict_find_map_pairs {V} (g : string -> V) (l : list string) (name : string) :
  In name l -> dict_find (map (fun n => (n, g n)) l) name = Some (g name).
Proof.
  induction l as [|a l IH]; simpl; [tauto|].
  intros H. destruct (String.eqb_spec a name) as [->|Hne]; [reflexivity|].
  destruct H as [-> | H]; [congruence | now apply IH].
Qed.

Lemma weight_gp_pairs_run (env : latent) (X : tensor) (kern : kernel_func)
      (ridge : R) (kw : kwargs) (N : nat) (rest : list nat)
      (names : list string) (tr : trace) :
  shape X = N :: rest ->
  for_each (fun node =>
              bind (gp.prior env X kern (Some ridge)
                             ("base_weight_" ++ node)%string kw)
                   (fun w => ret (node, w))) names tr
  = (Ok (map (fun name => (name, rv_value (weight_gp env X kern ridge kw N name)))
             names),
     tr ++ map (weight_gp env X kern ridge kw N) names).
Proof.
  intros HX. revert tr.
  induction names as [|name names IH]; intros tr; cbn [for_each map].
  - unfold ret. now rewrite app_nil_r.
  - erewrite bind_ok.
    2:{ erewrite bind_ok by (eapply gp_prior_run; exact HX). reflexivity. }
    erewrite bind_ok by apply IH.
    unfold ret. rewrite <- app_assoc. reflexivity.
Qed.

Lemma flat_tree_children {V} (base_pred : dict V) :
  base_pred <> [] ->
  tail_free.children_of (tail_free.flat_tree base_pred)
                        tail_free.ROOT_NODE_DEFAULT_NAME
  = Some (keys base_pred).
Proof.
  intros Hne. unfold tail_free.children_of, tail_free.flat_tree. cbn [dict_find].
  rewrite String.eqb_refl. destruct base_pred; [congruence | reflexivity].
Qed.

Lemma flat_tree_leaf {V} (base_pred : dict V) (name : string) :
  name <> tail_free.ROOT_NODE_DEFAULT_NAME ->
  tail_free.children_of (tail_free.flat_tree base_pred) name = None.
Proof.
  intros Hne. unfold tail_free.children_of, tail_free.flat_tree. cbn [dict_find].
  destruct (String.eqb_spec tail_free.ROOT_NODE_DEFAULT_NAME name);
    [congruence | reflexivity].
Qed.

Lemma flat_tree_parents {V} (base_pred : dict V) :
  base_pred <> [] ->
  tail_free.get_parent_node_names (tail_free.flat_tree base_pred)
  = [tail_free.ROOT_NODE_DEFAULT_NAME].
Proof. intros Hne. destruct base_pred; [congruence | reflexivity]. Qed.

Lemma flat_tree_nonroot {V} (base_pred : dict V) :
  tail_free.get_nonroot_node_names (tail_free.flat_tree base_pred) = keys base_pred.
Proof.
  unfold tail_free.get_nonroot_node_names, tail_free.flat_tree. cbn.
  apply app_nil_r.
Qed.

Lemma flat_cond_weights (env : latent) (X : tensor) (kern : kernel_func)
      (ridge : R) (kw : kwargs) (N : nat) (link_func : link)
      (base_pred : dict tensor) (t : R) (W : tensor) :
  base_pred <> [] ->
  link_func (T2 (raw_weight_matrix env N (keys base_pred))) (tf_exp (T0 t)) = Ok W ->
  tail_free.compute_cond_weights
    link_func (tail_free.flat_tree base_pred)
    (map (fun name => (name, rv_value (weight_gp env X kern ridge kw N name)))
         (keys base_pred))
    [(tail_free.ROOT_NODE_DEFAULT_NAME, T0 t)]
  = Ok [(tail_free.ROOT_NODE_DEFAULT_NAME, W)].
Proof.
  intros Hne Hlink. unfold tail_free.compute_cond_weights.
  rewrite (flat_tree_parents base_pred Hne). cbn [mapM].
  unfold dict_get at 1. unfold tail_free.flat_tree at 1. cbn [dict_find].
  rewrite String.eqb_refl. cbn [rbind].
  rewrite (mapM_total _ (fun name => rv_value (weight_gp env X kern ridge kw N name))).
  2:{ intros name Hin. unfold dict_get.
      now rewrite (dict_find_map_pairs
                     (fun name => rv_value (weight_gp env X kern ridge kw N name))). }
  cbn [rbind]. rewrite stack_weight_gps.
  - cbn [rbind]. unfold dict_get. cbn [dict_find]. rewrite String.eqb_refl.
    cbn [rbind]. rewrite Hlink. reflexivity.
  - unfold keys. destruct base_pred; [congruence | discriminate].
  - now right.
Qed.

Lemma concat_map_singleton {A B} (f : A -> B) (l : list A) :
  concat (map (fun a => [f a]) l) = map f l.
Proof. induction l as [|a l IH]; simpl; [reflexivity | now rewrite IH]. Qed.

Lemma map_snd_combine_seq {A} (l : list A) :
  map snd (combine (seq 0 (length l)) l) = l.
Proof.
  generalize 0%nat. induction l as [|a l IH]; intros k; simpl; [reflexivity|].
  now rewrite IH.
Qed.

Lemma leaf_weights_at_leaf (depth : nat) (tree : family_tree)
      (cond : dict tensor) (node : string) (t : tensor) :
  tail_free.children_of tree node = None ->
  tail_free.leaf_weights depth tree cond node (Some t) = Ok [(node, t)].
Proof. intros H. destruct depth; cbn [tail_free.leaf_weights]; now rewrite H. Qed.

(** On the flat tree the leaf weights are the conditional weights of the
    root, and the leaf names the base models in dictionary order. *)
Lemma flat_leaf_weights (N : nat) (base_pred : dict tensor) (w : matrix)
      (depth : nat) :
  base_pred <> [] ->
  ~ In tail_free.ROOT_NODE_DEFAULT_NAME (keys base_pred) ->
  is_matrix N (length (keys base_pred)) w ->
  tail_free.compute_leaf_weights (S depth)
                                 [(tail_free.ROOT_NODE_DEFAULT_NAME, T2 w)]
                                 (tail_free.flat_tree base_pred)
  = Ok (T2 w, keys base_pred).
Proof.
  intros Hne Hroot Hw.
  set (K := length (keys base_pred)) in *.
  set (col := fun k => map (fun row : vector => nth k row 0) w).
  unfold tail_free.compute_leaf_weights. cbn [tail_free.leaf_weights].
  rewrite (flat_tree_children base_pred Hne).
  unfold dict_get at 1. cbn [dict_find]. rewrite String.eqb_refl. cbn [rbind].
  rewrite (mapM_total _ (fun kc => [(snd kc, T1 (col (fst kc)))])).
  2:{ intros [k child] Hin. cbn [fst snd].
      assert (Hk : (k < K)%nat).
      { apply in_combine_l in Hin. apply in_seq in Hin. unfold K. lia. }
      assert (Hchild : In child (keys base_pred)) by now apply in_combine_r in Hin.
      rewrite (index_last_matrix N K w k Hw Hk). cbn [rbind].
      apply leaf_weights_at_leaf. apply flat_tree_leaf. intros ->. contradiction. }
  cbn [rbind]. rewrite concat_map_singleton.
  assert (Ev : values (map (fun kc : nat * string => (snd kc, T1 (col (fst kc))))
                           (combine (seq 0 K) (keys base_pred)))
               = map T1 (map col (seq 0 K))).
  { unfold values. rewrite map_map. cbn [snd].
    rewrite <- (map_map fst (fun k => T1 (col k))).
    unfold K. now rewrite map_fst_combine_seq, map_map. }
  assert (Ek : keys (map (fun kc : nat * string => (snd kc, T1 (col (fst kc))))
                         (combine (seq 0 K) (keys base_pred)))
               = keys base_pred).
  { unfold keys at 1. rewrite map_map. cbn [fst].
    unfold K. apply map_snd_combine_seq. }
  fold K. rewrite Ev, Ek.
  assert (HK : (1 <= K)%nat).
  { unfold K, keys. rewrite length_map. destruct base_pred; [congruence | simpl; lia]. }
  destruct K as [|K'] eqn:EK; [lia|].
  change (map col (seq 0 (S K'))) with (col 0%nat :: map col (seq 1 K')).
  rewrite (tf_stack_vectors N).
  - cbn [rbind].
    change (col 0%nat :: map col (seq 1 K')) with (map col (seq 0 (S K'))).
    unfold col. now rewrite (transpose_columns N (S K') w Hw HK).
  - change (Forall (is_vector N) (map col (seq 0 (S K')))).
    apply Forall_forall. intros v Hv. apply in_map_iff in Hv.
    destruct Hv as (k & <- & _). unfold is_vector, col. rewrite length_map.
    apply Hw.
  - now right.
Qed.

(** What the tail-free prior does on the flat tree. *)
Lemma prior_flat_run (mu sd : R) (env : latent) (link_func : link)
      (kern : kernel_func) (ridge : R) (depth : nat) (X : tensor)
      (base_pred : dict tensor) (tree : option family_tree) (ls : R)
      (kw : kwargs) (tr : trace) (N : nat) (rest : list nat) (w : matrix) :
  shape X = N :: rest ->
  base_pred <> [] ->
  ~ In tail_free.ROOT_NODE_DEFAULT_NAME (keys base_pred) ->
  tree = None \/ tree = Some (tail_free.flat_tree base_pred) ->
  link_func (T2 (raw_weight_matrix env N (keys base_pred)))
            (tf_exp (T0 (env "temp_root" 0%nat)))
  = Ok (T2 w) ->
  is_matrix N (length (keys base_pred)) w ->
  tail_free.prior mu sd env link_func kern ridge (S depth) X base_pred tree ls kw tr
  = (Ok (T2 w, keys base_pred),
     tr ++ {| rv_name := "temp_root";
              rv_dist := Normal (T0 mu) sd;
              rv_value := T0 (env "temp_root" 0%nat) |}
        :: map (weight_gp env X kern ridge (("ls", ls) :: kw) N) (keys base_pred)).
Proof.
  intros HX Hne Hroot Htree Hlink Hw. unfold tail_free.prior.
  replace (if truthy tree
           then match tree with Some t => t | None => [] end
           else tail_free.flat_tree base_pred)
    with (tail_free.flat_tree base_pred)
    by (destruct Htree as [-> | ->]; reflexivity).
  rewrite (flat_tree_parents base_pred Hne), flat_tree_nonroot.
  cbn [for_each].
  erewrite bind_ok.
  2:{ erewrite bind_ok.
      2:{ erewrite bind_ok by (unfold ed_Normal, declare; reflexivity).
          reflexivity. }
      reflexivity. }
  erewrite bind_ok by (eapply weight_gp_pairs_run; exact HX).
  erewrite bind_lift_ok.
  2:{ cbn [rv_value shape draw].
      apply (flat_cond_weights env X kern ridge (("ls", ls) :: kw) N link_func
                               base_pred (env "temp_root" 0%nat) (T2 w) Hne).
      exact Hlink. }
  unfold lift. rewrite (flat_leaf_weights N base_pred w depth Hne Hroot Hw).
  rewrite <- app_assoc. reflexivity.
Qed.

Lemma values_are_pred_vectors (N : nat) (base_pred : dict tensor) :
  NoDup (keys base_pred) ->
  Forall (fun kv => shape (snd kv) = [N]) base_pred ->
  values base_pred = map T1 (map (pred_vector N base_pred) (keys base_pred)).
Proof.
  intros Hnd Hs. unfold values, keys. rewrite !map_map.
  apply map_ext_in. intros [k v] Hin. cbn [fst snd].
  assert (Hk : In k (keys base_pred))
    by (unfold keys; apply in_map_iff; now exists (k, v)).
  pose proof (dict_get_vector N base_pred k Hs Hk) as E.
  unfold dict_get in E. rewrite (dict_find_NoDup base_pred k v Hnd Hin) in E.
  now inversion E.
Qed.

(** What the flat model does without a family tree. *)
Lemma model_flat_run (mu sd : R) (env : latent) (X : tensor)
      (base_pred : dict tensor) (lw lr : R) (kern : kernel_func)
      (link_func : link) (ridge : R) (kw : kwargs) (tr : trace)
      (N D : nat) (w : matrix) :
  shape X = [N; D] ->
  Forall (fun kv => shape (snd kv) = [N]) base_pred ->
  base_pred <> [] ->
  NoDup (keys base_pred) ->
  link_func (T2 (raw_weight_matrix env N (keys base_pred)))
            (tf_exp (T0 (env "temp" 0%nat)))
  = Ok (T2 w) ->
  is_matrix N (length (keys base_pred)) w ->
  let resid := map (env "ensemble_resid") (seq 0 N) in
  let y := {| rv_name := "y";
              rv_dist := MultivariateNormalDiag
                           (T1 (predictive_mean N base_pred (keys base_pred) w resid))
                           (T0 (exp (env "sigma" 0%nat)));
              rv_value := T1 (map (env "y") (seq 0 N)) |} in
  model_flat mu sd env X base_pred None lw lr kern link_func ridge kw tr
  = (Ok y,
     (tr ++ {| rv_name := "temp";
               rv_dist := Normal (T0 mu) sd;
               rv_value := T0 (env "temp" 0%nat) |}
         :: map (weight_gp env X kern ridge (("ls", lw) :: kw) N) (keys base_pred))
       ++ [{| rv_name := "ensemble_resid";
              rv_dist := GaussianProcess X rbf None [("ls", lr)];
              rv_value := T1 resid |};
           {| rv_name := "sigma";
              rv_dist := Normal (T0 _NOISE_PRIOR_MEAN) _NOISE_PRIOR_SDEV;
              rv_value := T0 (env "sigma" 0%nat) |};
           y]).
Proof.
  intros HX Hs Hne Hnd Hlink Hw resid y.
  assert (Hk : keys base_pred <> [])
    by (unfold keys; destruct base_pred; [congruence | discriminate]).
  assert (Hin : Forall (fun name => In name (keys base_pred)) (keys base_pred))
    by (apply Forall_forall; auto).
  destruct (base_models_run N base_pred (keys base_pred) Hs Hin Hk)
    as (B0 & Hd & Ha & HT).
  destruct (ensemble_mean_matrix N base_pred (keys base_pred) w Hw)
    as (FW & Hm & Hr).
  unfold model_flat. rewrite HX. cbn [unpack2].
  rewrite (bind_lift_ok (N, D)) by reflexivity.
  rewrite (bind_lift_ok tt) by now apply check_dimension_ok.
  cbn [truthy negb].
  erewrite bind_ok by (unfold ed_Normal, declare; reflexivity).
  cbn [rv_value shape draw].
  erewrite bind_ok.
  2:{ rewrite (sparse_conditional_weight_run _ _ _ _ _ _ _ _ _ N [D] HX Hne).
      rewrite Hlink. reflexivity. }
  rewrite (values_are_pred_vectors N base_pred Hnd Hs).
  erewrite bind_lift_ok by exact Ha.
  rewrite HT.
  erewrite bind_lift_ok by exact Hm.
  erewrite bind_lift_ok by exact Hr.
  erewrite bind_ok by (eapply gp_prior_run; exact HX).
  erewrite bind_ok by (unfold ed_Normal, declare; reflexivity).
  erewrite bind_lift_ok.
  2:{ apply tf_op_vector.
      now rewrite weighted_mean_length, length_map, length_seq. }
  unfold ed_MultivariateNormalDiag, declare. cbn [rv_value tf_exp tmap shape draw].
  rewrite (weighted_plus_residual N base_pred (keys base_pred) w _)
    by now rewrite length_map, length_seq.
  subst y resid. rewrite predictive_mean_length.
  rewrite <- !app_assoc. reflexivity.
Qed.

(** C5, as amended.  The flat model is an implementation of its own, but
    without a family tree it computes what the tail-free path computes on the
    tree with one parent and every base model its child.  Let [X] have shape
    [(N, D)], [base_pred] be a non-empty dictionary of predictions of shape
    [(N,)] with no model named ["root"], the temperature be drawn alike under
    the names ["temp"] and ["temp_root"], and the link function return an
    array of shape [(N, K)] on the stacked weight draws.  Then
    [sparse_conditional_weight] and [tail_free.prior] return the same
    weights, the result of that one application of the link function;
    [model_flat] and [model_tailfree] return the same observation; and each
    declares one temperature and one weight GP per base model, the same but
    for the temperature's name. *)
Theorem flat_model_agrees_with_single_parent_tree
        (mu sd : R) (env : latent) (X : tensor) (base_pred : dict tensor)
        (lw lr : R) (kern : kernel_func) (link_func : link) (ridge : R)
        (kw : kwargs) (depth : nat) (tr : trace) (N D : nat) (w : matrix)
        (tree : option family_tree) :
  shape X = [N; D] ->
  Forall (fun kv => shape (snd kv) = [N]) base_pred ->
  base_pred <> [] ->
  NoDup (keys base_pred) ->
  ~ In tail_free.ROOT_NODE_DEFAULT_NAME (keys base_pred) ->
  tree = None \/ tree = Some (tail_free.flat_tree base_pred) ->
  env "temp" 0%nat = env "temp_root" 0%nat ->
  link_func (T2 (raw_weight_matrix env N (keys base_pred)))
            (tf_exp (T0 (env "temp" 0%nat)))
  = Ok (T2 w) ->
  is_matrix N (length (keys base_pred)) w ->
  let weight_gps :=
    map (weight_gp env X kern ridge (("ls", lw) :: kw) N) (keys base_pred) in
  let prior := tail_free.prior mu sd env link_func kern ridge (S depth) in
  fst (sparse_conditional_weight env X base_pred (T0 (env "temp" 0%nat)) None
                                 kern link_func ridge (("ls", lw) :: kw) tr)
  = Ok (T2 w)
  /\ fst (prior X base_pred tree lw kw tr) = Ok (T2 w, keys base_pred)
  /\ exists y,
      rv_dist y
      = MultivariateNormalDiag
          (T1 (predictive_mean N base_pred (keys base_pred) w
                               (map (env "ensemble_resid") (seq 0 N))))
          (T0 (exp (env "sigma" 0%nat)))
      /\ model_flat mu sd env X base_pred None lw lr kern link_func ridge kw tr
         = (Ok y,
            (tr ++ temperature env mu sd "temp" :: weight_gps)
              ++ observation_trace env X lr N y)
      /\ model_tailfree prior env X base_pred tree lw lr kw tr
         = (Ok y,
            (tr ++ temperature env mu sd "temp_root" :: weight_gps)
              ++ observation_trace env X lr N y).
Proof.
  intros HX Hs Hne Hnd Hroot Htree Htemp Hlink Hw weight_gps prior.
  assert (Hlink' : link_func (T2 (raw_weight_matrix env N (keys base_pred)))
                             (tf_exp (T0 (env "temp_root" 0%nat))) = Ok (T2 w))
    by now rewrite <- Htemp.
  assert (Hp : prior X base_pred tree lw kw tr
               = (Ok (T2 w, keys base_pred),
                  tr ++ temperature env mu sd "temp_root" :: weight_gps)).
  { apply (prior_flat_run mu sd env link_func kern ridge depth X base_pred tree lw
                          kw tr N [D] w); assumption. }
  split; [|split].
  - rewrite (sparse_conditional_weight_run _ _ _ _ _ _ _ _ _ N [D] HX Hne).
    exact Hlink.
  - now rewrite Hp.
  - eexists. split; [|split].
    2:{ apply (model_flat_run mu sd env X base_pred lw lr kern link_func ridge kw
                              tr N D w); assumption. }
    + reflexivity.
    + apply (model_tailfree_run prior env X base_pred tree lw lr kw tr _ N D w
                                (keys base_pred)); try assumption.
      * unfold keys. destruct base_pred; [congruence | discriminate].
      * apply Forall_forall. auto.
Qed.

(** C5, on two base models under the softmax link, with every latent drawn
    as zero. *)
Lemma flat_model_agrees_with_single_parent_tree_witness :
  let weight_gps :=
    map (weight_gp Ex.env Ex.X rbf 1 [("ls", 1)] 2) (keys Ex.base_pred) in
  let prior := tail_free.prior 0 1 Ex.env Ex.softmax rbf 1 (S 9) in
  let w := map (Ex.softmax_row (exp 0))
               (raw_weight_matrix Ex.env 2 (keys Ex.base_pred)) in
  fst (sparse_conditional_weight Ex.env Ex.X Ex.base_pred (T0 (Ex.env "temp" 0%nat))
                                 None rbf Ex.softmax 1 [("ls", 1)] [])
  = Ok (T2 w)
  /\ fst (prior Ex.X Ex.base_pred (Some Ex.tree) 1 [] []) = Ok (T2 w, keys Ex.base_pred)
  /\ exists y,
      rv_dist y
      = MultivariateNormalDiag
          (T1 (predictive_mean 2 Ex.base_pred (keys Ex.base_pred) w
                               (map (Ex.env "ensemble_resid") (seq 0 2))))
          (T0 (exp (Ex.env "sigma" 0%nat)))
      /\ model_flat 0 1 Ex.env Ex.X Ex.base_pred None 1 1 rbf Ex.softmax 1 [] []
         = (Ok y,
            ([] ++ temperature Ex.env 0 1 "temp" :: weight_gps)
              ++ observation_trace Ex.env Ex.X 1 2 y)
      /\ model_tailfree prior Ex.env Ex.X Ex.base_pred (Some Ex.tree) 1 1 [] []
         = (Ok y,
            ([] ++ temperature Ex.env 0 1 "temp_root" :: weight_gps)
              ++ observation_trace Ex.env Ex.X 1 2 y).
Proof.
  apply (flat_model_agrees_with_single_parent_tree
           0 1 Ex.env Ex.X Ex.base_pred 1 1 rbf Ex.softmax 1 [] 9 [] 2 1
           (map (Ex.softmax_row (exp 0))
                (raw_weight_matrix Ex.env 2 (keys Ex.base_pred)))
           (Some Ex.tree)).
  - reflexivity.
  - by_shape.
  - discriminate.
  - repeat constructor; simpl; intuition discriminate.
  - simpl. intuition discriminate.
  - right. reflexivity.
  - reflexivity.
  - reflexivity.
  - by_shape.
Defined.

(** C5 as stated fails: given the tree with one parent and the two base
    models its children, the flat model raises [NotImplementedError] where
    the tail-free model returns its observation. *)
Lemma flat_model_single_parent_tree_counterexample :
  Ex.tree = tail_free.flat_tree Ex.base_pred
  /\ fst (model_flat 0 1 Ex.env Ex.X Ex.base_pred (Some Ex.tree) 1 1 rbf
                     Ex.softmax 1 [] [])
     = Raise NotImplementedError
  /\ (exists y,
         fst (model_tailfree (tail_free.prior 0 1 Ex.env Ex.softmax rbf 1 10)
                             Ex.env Ex.X Ex.base_pred (Some Ex.tree) 1 1 [] [])
         = Ok y)
  /\ fst (model_flat 0 1 Ex.env Ex.X Ex.base_pred (Some Ex.tree) 1 1 rbf
                     Ex.softmax 1 [] [])
     <> fst (model_tailfree (tail_free.prior 0 1 Ex.env Ex.softmax rbf 1 10)
                            Ex.env Ex.X Ex.base_pred (Some Ex.tree) 1 1 [] []).
Proof.
  assert (E1 : fst (model_flat 0 1 Ex.env Ex.X Ex.base_pred (Some Ex.tree) 1 1 rbf
                               Ex.softmax 1 [] [])
               = Raise NotImplementedError) by reflexivity.
  assert (E2 : exists y,
             fst (model_tailfree (tail_free.prior 0 1 Ex.env Ex.softmax rbf 1 10)
                                 Ex.env Ex.X Ex.base_pred (Some Ex.tree) 1 1 [] [])
             = Ok y).
  { let r := eval lazy -[exp IZR Rplus Rmult Rdiv Rinv Ropp] in
               (model_tailfree (tail_free.prior 0 1 Ex.env Ex.softmax rbf 1 10)
                               Ex.env Ex.X Ex.base_pred (Some Ex.tree) 1 1 [] [])
    in match r with
       | (Ok ?y, _) => exists y
       end.
    reflexivity. }
  split; [reflexivity|]. split; [exact E1|]. split; [exact E2|].
  destruct E2 as [y E2]. rewrite E1, E2. discriminate.
Qed.

(** ** The scenarios of the specification *)

Lemma exp_1_gt_2 : 2 < exp 1.
Proof. pose proof (exp_ineq1 1). lra. Qed.

(** One point, the flat tree over ["a"] and ["b"] with raw weights 0 and 1
    and temperature 0, under the softmax link: the tail-free prior puts more
    weight on ["b"], the two weights sum to 1, and with predictions 10 and 20
    and no residual the location of the observation lies between 15 and
    20. *)
Example flat_scenario :
  exists wa wb m y tr,
    fst (tail_free.prior 0 1 Scenario.env Ex.softmax rbf 1 10
                         Scenario.X Scenario.base_pred None 1 [] [])
    = Ok (T2 [[wa; wb]], ["a"; "b"])
    /\ wa < wb /\ wa + wb = 1
    /\ model_tailfree (tail_free.prior 0 1 Scenario.env Ex.softmax rbf 1 10)
                      Scenario.env Scenario.X Scenario.base_pred None 1 1 [] []
       = (Ok y, tr)
    /\ mean (rv_dist y) = Some (T1 [m])
    /\ 15 < m < 20.
Proof.
  let p := eval lazy -[exp IZR Rplus Rmult Rdiv Rinv Ropp] in
             (tail_free.prior 0 1 Scenario.env Ex.softmax rbf 1 10
                              Scenario.X Scenario.base_pred None 1 [] [])
  in let r := eval lazy -[exp IZR Rplus Rmult Rdiv Rinv Ropp] in
                (model_tailfree (tail_free.prior 0 1 Scenario.env Ex.softmax rbf 1 10)
                                Scenario.env Scenario.X Scenario.base_pred None
                                1 1 [] [])
  in match p with
     | (Ok (T2 [[?wa; ?wb]], _), _) =>
         match r with
         | (Ok ?y, ?tr) =>
             match eval lazy -[exp IZR Rplus Rmult Rdiv Rinv Ropp] in (mean (rv_dist y)) with
             | Some (T1 [?m]) => exists wa, wb, m, y, tr
             end
         end
     end.
  pose proof exp_1_gt_2 as He.
  assert (E0 : exp (0 * exp 0) = 1) by (rewrite Rmult_0_l; apply exp_0).
  assert (E1 : exp (1 * exp 0) = exp 1) by (rewrite exp_0; f_equal; lra).
  assert (Hd : 0 < 1 + (exp 1 + 0)) by lra.
  split; [reflexivity|]. split; [|split; [|split; [reflexivity|split; [reflexivity|]]]].
  - rewrite !E0, !E1.
    apply (Rmult_lt_reg_r (1 + (exp 1 + 0))); [exact Hd|].
    unfold Rdiv. rewrite !Rmult_assoc, Rinv_l by lra. lra.
  - rewrite !E0, !E1. field. lra.
  - rewrite !E0, !E1.
    assert (E : (10 * (1 / (1 + (exp 1 + 0))) + (20 * (exp 1 / (1 + (exp 1 + 0))) + 0) + 0)
                * (1 + (exp 1 + 0)) = 10 + 20 * exp 1) by (field; lra).
    split; apply (Rmult_lt_reg_r (1 + (exp 1 + 0))); try exact Hd; rewrite E; lra.
Qed.

(** The tree of two levels, one point: the root has the single child ["g1"],
    whose conditional weight is 1, and the leaf weight of ["m1"] is that
    weight times the conditional weight of ["m1"] under ["g1"]. *)
Example two_level_scenario :
  let raw := [("g1", T1 [2]); ("m1", T1 [0]); ("m2", T1 [1])] in
  let temps := [("root", T0 0); ("g1", T0 0)] in
  exists cg c1 c2 cond,
    tail_free.compute_cond_weights Ex.softmax Scenario.two_level_tree raw temps
    = Ok cond
    /\ cond = [("root", T2 [[cg]]); ("g1", T2 [[c1; c2]])]
    /\ cg = 1
    /\ tail_free.compute_leaf_weights 10 cond Scenario.two_level_tree
       = Ok (T2 [[cg * c1; cg * c2]], ["m1"; "m2"]).
Proof.
  intros raw temps.
  let cw := eval lazy -[exp IZR Rplus Rmult Rdiv Rinv Ropp] in
              (tail_free.compute_cond_weights Ex.softmax Scenario.two_level_tree
                                              raw temps)
  in match cw with
     | Ok [(_, T2 [[?cg]]); (_, T2 [[?c1; ?c2]])] =>
         exists cg, c1, c2, [("root", T2 [[cg]]); ("g1", T2 [[c1; c2]])]
     end.
  split; [reflexivity|]. split; [reflexivity|]. split; [|reflexivity].
  pose proof (exp_pos (2 * exp 0)). field. lra.
Qed.

(** ** The observation of both models *)

Lemma matmul_T_shape (n : nat) (c : R) :
  is_matrix n n (matmul_T (scale_matrix n c) (scale_matrix n c)).
Proof.
  assert (Ls : length (scale_matrix n c) = n)
    by (unfold scale_matrix; now rewrite length_map, length_seq).
  unfold matmul_T. split; [now rewrite length_map|].
  apply Forall_forall. intros row Hrow. apply in_map_iff in Hrow.
  destruct Hrow as (r & <- & _). unfold is_vector. now rewrite length_map.
Qed.

Lemma nth_map2_plus (u v : vector) (n : nat) :
  length u = length v -> (n < length u)%nat ->
  nth n (map2 Rplus u v) 0 = nth n u 0 + nth n v 0.
Proof.
  revert v n. induction u as [|a u IH]; intros [|b v] n Hl Hn; simpl in *;
    try lia.
  destruct n as [|n]; [reflexivity|]. apply IH; lia.
Qed.

(** The variable ["y"] with the location [ensemble_mean + ensemble_resid]
    and the scale [exp sigma], declared after the residual GP and the noise
    prior, is the Gaussian observation. *)
Lemma gaussian_observation_intro (env : latent) (X : tensor) (lr : R) (N : nat)
      (ensemble_mean : vector) (tr0 : trace) (value : tensor) :
  length ensemble_mean = N ->
  gaussian_observation
    env X lr N ensemble_mean
    (tr0 ++ observation_trace
              env X lr N
              {| rv_name := "y";
                 rv_dist := MultivariateNormalDiag
                              (T1 (map2 Rplus ensemble_mean
                                         (map (env "ensemble_resid") (seq 0 N))))
                              (T0 (exp (env "sigma" 0%nat)));
                 rv_value := value |})
    {| rv_name := "y";
       rv_dist := MultivariateNormalDiag
                    (T1 (map2 Rplus ensemble_mean
                               (map (env "ensemble_resid") (seq 0 N))))
                    (T0 (exp (env "sigma" 0%nat)));
       rv_value := value |}.
Proof.
  intros Hm.
  assert (Hr : length (map (env "ensemble_resid") (seq 0 N)) = N)
    by now rewrite length_map, length_seq.
  assert (Hl : length (map2 Rplus ensemble_mean
                            (map (env "ensemble_resid") (seq 0 N))) = N)
    by (rewrite map2_length; congruence).
  unfold gaussian_observation, observation_trace. cbv zeta.
  split; [apply in_or_app; right; now left|].
  split; [apply in_or_app; right; right; now left|].
  split.
  { eexists (tr0 ++ [_; _]). rewrite <- app_assoc. reflexivity. }
  split; [reflexivity|]. split; [reflexivity|]. split; [exact Hl|].
  split.
  { intros n Hn. rewrite nth_map2_plus by (rewrite ?Hm, ?Hr; auto; lia).
    f_equal. apply (nth_map_seq 0 (env "ensemble_resid") N n). exact Hn. }
  split; [reflexivity|].
  cbn [rv_dist covariance]. rewrite Hl. eexists. split; [reflexivity|].
  split; [apply matmul_T_shape|].
  intros i j Hi Hj. rewrite covariance_scale_identity by assumption.
  destruct (Nat.eqb i j); [|reflexivity].
  rewrite <- exp_plus. f_equal. lra.
Qed.

(** C6.  Let [X] have shape [(N, D)] and every value of [base_pred] shape
    [(N,)], and let [env] hold any draws of the latent variables, so that
    [sigma], the draw of the noise prior, is any real number.  [model_flat],
    without a family tree, over [K >= 1] base models and for a link function
    that returns weights of shape [(N, K)], and [model_tailfree], when
    [tail_free.prior] returns weights of shape [(N, K)] for [K >= 1] leaves
    that are keys of [base_pred], both return an observation [y], declared
    last under the name ["y"] after the residual GP ["ensemble_resid"] and
    the noise prior ["sigma"].  In both, [y] is a multivariate normal whose
    mean at point [n] is the ensemble mean at [n] (the sum over the models of
    prediction times weight) plus the draw of the residual GP at [n], and
    whose scale is [exp sigma] times the identity: its covariance is the
    [N] by [N] matrix with [exp (2 * sigma)] on the diagonal and zero
    elsewhere. *)
Theorem observation_is_gaussian_with_exp_sigma_scale
        (mu sd : R) (env : latent) (X : tensor) (base_pred : dict tensor)
        (tree : option family_tree) (lw lr : R) (kern : kernel_func)
        (link_func : link) (ridge : R) (kw : kwargs)
        (prior : tensor -> dict tensor -> option family_tree -> R -> kwargs ->
                 M (tensor * list string))
        (tr : trace) (N D : nat) :
  shape X = [N; D] ->
  Forall (fun kv => shape (snd kv) = [N]) base_pred ->
  (forall w : matrix,
      base_pred <> [] ->
      NoDup (keys base_pred) ->
      link_func (T2 (raw_weight_matrix env N (keys base_pred)))
                (tf_exp (T0 (env "temp" 0%nat)))
      = Ok (T2 w) ->
      is_matrix N (length (keys base_pred)) w ->
      exists y tr',
        model_flat mu sd env X base_pred None lw lr kern link_func ridge kw tr
        = (Ok y, tr')
        /\ gaussian_observation
             env X lr N (weighted_mean N base_pred (keys base_pred) w) tr' y)
  /\ (forall (w : matrix) (names : list string) (tr1 : trace),
         prior X base_pred tree lw kw tr = (Ok (T2 w, names), tr1) ->
         is_matrix N (length names) w ->
         names <> [] ->
         Forall (fun name => In name (keys base_pred)) names ->
         exists y tr',
           model_tailfree prior env X base_pred tree lw lr kw tr = (Ok y, tr')
           /\ gaussian_observation
                env X lr N (weighted_mean N base_pred names w) tr' y).
Proof.
  intros HX Hs.
  assert (Hr : length (map (env "ensemble_resid") (seq 0 N)) = N)
    by now rewrite length_map, length_seq.
  split.
  - intros w Hne Hnd Hlink Hw.
    pose proof (model_flat_run mu sd env X base_pred lw lr kern link_func ridge
                               kw tr N D w HX Hs Hne Hnd Hlink Hw) as Hrun.
    cbv zeta in Hrun.
    rewrite <- (weighted_plus_residual N base_pred (keys base_pred) w _ Hr)
      in Hrun.
    eexists. eexists. split; [exact Hrun|].
    apply (gaussian_observation_intro
             env X lr N (weighted_mean N base_pred (keys base_pred) w)).
    apply weighted_mean_length.
  - intros w names tr1 Hp Hw Hne Hn.
    pose proof (model_tailfree_run prior env X base_pred tree lw lr kw tr tr1
                                   N D w names HX Hs Hp Hw Hne Hn) as Hrun.
    cbv zeta in Hrun.
    rewrite <- (weighted_plus_residual N base_pred names w _ Hr) in Hrun.
    eexists. eexists. split; [exact Hrun|].
    apply (gaussian_observation_intro
             env X lr N (weighted_mean N base_pred names w)).
    apply weighted_mean_length.
Qed.

(** C6, on two base models and two points, with the noise parameter drawn as
    2: the flat model under the softmax link, and the model with the
    tail-free prior. *)
Lemma observation_is_gaussian_with_exp_sigma_scale_witness :
  exists (w w' : matrix) (names : list string),
    (exists y tr',
        model_flat 0 1 ExSigma.env Ex.X Ex.base_pred None 1 1 rbf Ex.softmax 1
                   [] []
        = (Ok y, tr')
        /\ gaussian_observation
             ExSigma.env Ex.X 1 2
             (weighted_mean 2 Ex.base_pred (keys Ex.base_pred) w) tr' y)
    /\ (exists y tr',
           model_tailfree (tail_free.prior 0 1 ExSigma.env Ex.softmax rbf 1 10)
                          ExSigma.env Ex.X Ex.base_pred None 1 1 [] []
           = (Ok y, tr')
           /\ gaussian_observation
                ExSigma.env Ex.X 1 2 (weighted_mean 2 Ex.base_pred names w') tr' y).
Proof.
  pose proof (observation_is_gaussian_with_exp_sigma_scale
                0 1 ExSigma.env Ex.X Ex.base_pred None 1 1 rbf Ex.softmax 1 []
                (tail_free.prior 0 1 ExSigma.env Ex.softmax rbf 1 10) [] 2 1)
    as H.
  destruct H as [Hflat Htree]; [reflexivity | by_shape |].
  let l := eval lazy -[exp IZR Rplus Rmult Rdiv Rinv Ropp] in
             (Ex.softmax (T2 (raw_weight_matrix ExSigma.env 2 (keys Ex.base_pred)))
                         (tf_exp (T0 (ExSigma.env "temp" 0%nat))))
  in let p := eval lazy -[exp IZR Rplus Rmult Rdiv Rinv Ropp] in
                (tail_free.prior 0 1 ExSigma.env Ex.softmax rbf 1 10
                                 Ex.X Ex.base_pred None 1 [] [])
  in match l with
     | Ok (T2 ?w) =>
         match p with
         | (Ok (T2 ?w', ?names), ?tr1) =>
             exists w, w', names; split;
             [ apply (Hflat w) | apply (Htree w' names tr1) ]
         end
     end.
  all: try discriminate; try reflexivity.
  all: try (repeat constructor; simpl; intuition discriminate).
  all: by_shape.
Defined.

(* ================================================================== *)
(** * Further properties of the code *)

(** ** What the models accept *)

Lemma check_dimension_passed (N : nat) (base_pred : dict tensor) (u : unit) :
  check_dimension N base_pred = Ok u ->
  Forall (fun kv => shape (snd kv) = [N]) base_pred.
Proof.
  induction base_pred as [|[k v] rest IH]; simpl; [constructor|].
  destruct (shape_eqb (shape v) [N]) eqn:E; simpl; [|discriminate].
  intros H. constructor; [now apply shape_eqb_true | auto].
Qed.

Lemma unpack2_rejects (s : list nat) :
  length s <> 2%nat -> unpack2 s = Raise (unpack_error 2 (length s)).
Proof.
  destruct s as [|a [|b [|c s]]]; simpl; intros H; try reflexivity. congruence.
Qed.

(** X1.  [N, D = X.shape] is the first statement of both models: for an
    [X] whose shape does not have exactly two entries they raise the
    [ValueError] of the unpacking and declare nothing.  With the dimension
    check this makes the validation complete: whenever a model returns its
    observation, [X] has a shape [(N, D)] and every value of [base_pred] has
    shape [(N,)]. *)
Theorem models_return_only_on_checked_shapes
        (mu sd : R) (env : latent) (X : tensor) (base_pred : dict tensor)
        (tree : option family_tree) (lw lr : R) (kern : kernel_func)
        (link_func : link) (ridge : R) (kw : kwargs)
        (prior : tensor -> dict tensor -> option family_tree -> R -> kwargs ->
                 M (tensor * list string))
        (tr : trace) :
  (length (shape X) <> 2%nat ->
   model_flat mu sd env X base_pred tree lw lr kern link_func ridge kw tr
   = (Raise (unpack_error 2 (length (shape X))), tr)
   /\ model_tailfree prior env X base_pred tree lw lr kw tr
      = (Raise (unpack_error 2 (length (shape X))), tr))
  /\ (forall y tr',
         model_flat mu sd env X base_pred tree lw lr kern link_func ridge kw tr
         = (Ok y, tr')
         \/ model_tailfree prior env X base_pred tree lw lr kw tr = (Ok y, tr') ->
         exists N D,
           shape X = [N; D]
           /\ Forall (fun kv => shape (snd kv) = [N]) base_pred).
Proof.
  split.
  - intros HX. split.
    + unfold model_flat. now rewrite (bind_lift_raise _ _ _ _ (unpack2_rejects _ HX)).
    + unfold model_tailfree.
      now rewrite (bind_lift_raise _ _ _ _ (unpack2_rejects _ HX)).
  - intros y tr' [H | H].
    + unfold model_flat in H.
      step_lift H nd Hnd. destruct nd as [N D]. apply unpack2_inv in Hnd.
      step_lift H u Hu. exists N, D. split; [exact Hnd|].
      now apply (check_dimension_passed N base_pred u).
    + unfold model_tailfree in H.
      step_lift H nd Hnd. destruct nd as [N D]. apply unpack2_inv in Hnd.
      step_lift H u Hu. exists N, D. split; [exact Hnd|].
      now apply (check_dimension_passed N base_pred u).
Qed.

(** X1, on a vector passed for [X], and on the flat model over two base
    models. *)
Lemma models_return_only_on_checked_shapes_witness :
  (model_flat 0 1 Ex.env (T1 [0; 1]) Ex.base_pred None 1 1 rbf Ex.softmax 1 [] []
   = (Raise (ValueError "not enough values to unpack (expected 2, got 1)"), [])
   /\ model_tailfree (tail_free.prior 0 1 Ex.env Ex.softmax rbf 1 10)
                     Ex.env (T1 [0; 1]) Ex.base_pred None 1 1 [] []
      = (Raise (ValueError "not enough values to unpack (expected 2, got 1)"), []))
  /\ exists N D,
      shape Ex.X = [N; D]
      /\ Forall (fun kv => shape (snd kv) = [N]) Ex.base_pred.
Proof.
  split.
  - apply (models_return_only_on_checked_shapes
             0 1 Ex.env (T1 [0; 1]) Ex.base_pred None 1 1 rbf Ex.softmax 1 []
             (tail_free.prior 0 1 Ex.env Ex.softmax rbf 1 10) []).
    simpl. discriminate.
  - let r := eval lazy -[exp IZR Rplus Rmult Rdiv Rinv Ropp] in
               (model_flat 0 1 Ex.env Ex.X Ex.base_pred None 1 1 rbf Ex.softmax 1 [] [])
    in match r with
       | (Ok ?y, ?tr') =>
           destruct (models_return_only_on_checked_shapes
                       0 1 Ex.env Ex.X Ex.base_pred None 1 1 rbf Ex.softmax 1 []
                       (tail_free.prior 0 1 Ex.env Ex.softmax rbf 1 10) [])
             as [_ H];
           apply (H y tr')
       end.
    left. reflexivity.
Defined.

(** ** A leaf that is no base model *)

Lemma dict_find_not_in {V} (d : dict V) (key : string) :
  ~ In key (keys d) -> dict_find d key = None.
Proof.
  induction d as [|[k v] d IH]; simpl; [reflexivity|].
  intros H. destruct (String.eqb_spec k key) as [->|Hne]; [tauto|].
  apply IH. tauto.
Qed.

Lemma mapM_dict_get_missing {V} (d : dict V) (known : list string)
      (key : string) (rest : list string) :
  Forall (fun name => In name (keys d)) known ->
  ~ In key (keys d) ->
  mapM (dict_get d) (known ++ key :: rest) = Raise (KeyError key).
Proof.
  intros Hk Hm. induction Hk as [|name known Hn _ IH]; simpl.
  - unfold dict_get at 1. now rewrite (dict_find_not_in d key Hm).
  - destruct (dict_find_in d name Hn) as (v & Hv & _).
    unfold dict_get at 1. rewrite Hv. cbn [rbind]. now rewrite IH.
Qed.

(** X2.  The predictions are looked up by the leaf names the tail-free
    functions return, in their order.  When the first name that is no key of
    [base_pred] is [key], [model_tailfree] raises [KeyError key] with the
    variables of the tail-free prior declared and nothing after them, and
    [sample_posterior_tailfree] raises [KeyError key]. *)
Theorem missing_leaf_raises_KeyError
        (X : tensor) (base_pred : dict tensor) (N D : nat)
        (known : list string) (key : string) (rest : list string)
        (prior : tensor -> dict tensor -> option family_tree -> R -> kwargs ->
                 M (tensor * list string))
        (env : latent) (tree : option family_tree) (lw lr : R) (kw : kwargs)
        (tr tr1 : trace) (W : tensor)
        (compute_cond_weights :
           tensor -> family_tree -> dict tensor -> dict tensor ->
           kernel_func -> link -> R -> R -> result (dict tensor))
        (compute_leaf_weights :
           dict tensor -> family_tree -> result (tensor * list string))
        (tree' : family_tree) (weight_gp_dict temp_dict : dict tensor)
        (resid : tensor) (kern : kernel_func) (ls : R) (link_func : link)
        (ridge : R) (cond : dict tensor) (W' : tensor) :
  Forall (fun name => In name (keys base_pred)) known ->
  ~ In key (keys base_pred) ->
  shape X = [N; D] ->
  check_dimension N base_pred = Ok tt ->
  prior X base_pred tree lw kw tr = (Ok (W, known ++ key :: rest), tr1) ->
  compute_cond_weights X tree' weight_gp_dict temp_dict kern link_func ridge ls
  = Ok cond ->
  compute_leaf_weights cond tree' = Ok (W', known ++ key :: rest) ->
  model_tailfree prior env X base_pred tree lw lr kw tr = (Raise (KeyError key), tr1)
  /\ sample_posterior_tailfree compute_cond_weights compute_leaf_weights
                               X base_pred tree' weight_gp_dict temp_dict resid
                               kern ls link_func ridge
     = Raise (KeyError key).
Proof.
  intros Hk Hm HX Hc Hp Hcw Hlw.
  pose proof (mapM_dict_get_missing base_pred known key rest Hk Hm) as E.
  split.
  - unfold model_tailfree. rewrite HX. cbn [unpack2].
    rewrite (bind_lift_ok (N, D)) by reflexivity.
    rewrite (bind_lift_ok tt) by exact Hc.
    erewrite bind_ok by exact Hp. cbn beta iota.
    now rewrite (bind_lift_raise (KeyError key)).
  - unfold sample_posterior_tailfree. rewrite Hcw. cbn [rbind].
    rewrite Hlw. cbn [rbind]. now rewrite E.
Qed.

(** X2, on a tree whose second leaf ["c"] is no base model. *)
Lemma missing_leaf_raises_KeyError_witness :
  exists tr1,
    model_tailfree (tail_free.prior 0 1 Ex.env Ex.softmax rbf 1 10)
                   Ex.env Ex.X Ex.base_pred (Some ExMissing.tree) 1 1 [] []
    = (Raise (KeyError "c"), tr1)
    /\ sample_posterior_tailfree tail_free_compute_cond_weights
                                 (tail_free.compute_leaf_weights 10)
                                 Ex.X Ex.base_pred ExMissing.tree
                                 ExMissing.weight_gp_dict ExSample.temp_dict
                                 (T2 ExSample.resid) rbf 1 Ex.softmax 1
       = Raise (KeyError "c").
Proof.
  let p := eval lazy -[exp IZR Rplus Rmult Rdiv Rinv Ropp] in
             (tail_free.prior 0 1 Ex.env Ex.softmax rbf 1 10
                              Ex.X Ex.base_pred (Some ExMissing.tree) 1 [] [])
  in let cw := eval lazy -[exp IZR Rplus Rmult Rdiv Rinv Ropp] in
                 (tail_free_compute_cond_weights
                    Ex.X ExMissing.tree ExMissing.weight_gp_dict ExSample.temp_dict
                    rbf Ex.softmax 1 1)
  in match p with
     | (Ok (?W, _), ?tr1) =>
         match cw with
         | Ok ?cond =>
             let lw := eval lazy -[exp IZR Rplus Rmult Rdiv Rinv Ropp] in
                         (tail_free.compute_leaf_weights 10 cond ExMissing.tree)
             in match lw with
                | Ok (?W', _) =>
                    exists tr1;
                    apply (missing_leaf_raises_KeyError
                             Ex.X Ex.base_pred 2 1 ["a"] "c" []
                             (tail_free.prior 0 1 Ex.env Ex.softmax rbf 1 10)
                             Ex.env (Some ExMissing.tree) 1 1 [] [] tr1 W
                             tail_free_compute_cond_weights
                             (tail_free.compute_leaf_weights 10)
                             ExMissing.tree ExMissing.weight_gp_dict
                             ExSample.temp_dict (T2 ExSample.resid) rbf 1
                             Ex.softmax 1 cond W')
                end
         end
     end.
  - constructor; [simpl; tauto | constructor].
  - simpl. intuition discriminate.
  - reflexivity.
  - unfold Ex.base_pred, check_dimension. cbn [shape length].
    rewrite !shape_eqb_refl. reflexivity.
  - reflexivity.
  - reflexivity.
  - reflexivity.
Defined.

(** ** The flat model without a family tree *)

Lemma base_weight_name_inj (a b : string) :
  ("base_weight_" ++ a)%string = ("base_weight_" ++ b)%string -> a = b.
Proof. simpl. intros H. now inversion H. Qed.

Lemma NoDup_map_injective {A B} (f : A -> B) (l : list A) :
  (forall a b, f a = f b -> a = b) -> NoDup l -> NoDup (map f l).
Proof.
  intros Hinj Hnd. induction Hnd as [|a l Hnotin Hnd IH]; simpl; constructor.
  - intros Hin. apply in_map_iff in Hin. destruct Hin as (b & Hb & Hin).
    apply Hinj in Hb. now subst.
  - exact IH.
Qed.

Lemma weight_gp_names (env : latent) (X : tensor) (kern : kernel_func)
      (ridge : R) (kw : kwargs) (N : nat) (names : list string) :
  map rv_name (map (weight_gp env X kern ridge kw N) names)
  = map (fun name => ("base_weight_" ++ name)%string) names.
Proof. rewrite map_map. reflexivity. Qed.

(** The names the flat model gives its random variables, in the order of
    their declaration. *)
Lemma flat_names_NoDup (names : list string) :
  NoDup names ->
  NoDup ("temp" :: map (fun name => ("base_weight_" ++ name)%string) names
                ++ ["ensemble_resid"; "sigma"; "y"])%string.
Proof.
  intros Hnd.
  assert (Hb : forall s, In s (map (fun name => ("base_weight_" ++ name)%string) names) ->
                         exists t, s = String "b" t).
  { intros s Hs. apply in_map_iff in Hs. destruct Hs as (n & <- & _).
    simpl. eauto. }
  constructor.
  - intros Hin. apply in_app_or in Hin. destruct Hin as [Hin | Hin].
    + destruct (Hb _ Hin) as [t Ht]. discriminate Ht.
    + simpl in Hin. intuition discriminate.
  - apply NoDup_app.
    + apply NoDup_map_injective; [exact base_weight_name_inj | exact Hnd].
    + repeat constructor; simpl; intuition discriminate.
    + intros s Hs Hin. destruct (Hb _ Hs) as [t ->].
      simpl in Hin. intuition discriminate.
Qed.

(** X3.  Without a family tree, on an [X] of shape [(N, D)], [K >= 1] base
    models with predictions of shape [(N,)] and a link function that returns
    weights of shape [(N, K)], [model_flat] returns the observation ["y"]:
    its mean at point [n] is the sum over the base models, in the order of
    the dictionary, of prediction times weight at [n], plus the draw of the
    residual process at [n]; its value has [N] entries. *)
Theorem flat_model_mean_is_weighted_prediction_plus_residual
        (mu sd : R) (env : latent) (X : tensor) (base_pred : dict tensor)
        (lw lr : R) (kern : kernel_func) (link_func : link) (ridge : R)
        (kw : kwargs) (tr : trace) (N D : nat) (w : matrix) :
  shape X = [N; D] ->
  Forall (fun kv => shape (snd kv) = [N]) base_pred ->
  base_pred <> [] ->
  NoDup (keys base_pred) ->
  link_func (T2 (raw_weight_matrix env N (keys base_pred)))
            (tf_exp (T0 (env "temp" 0%nat)))
  = Ok (T2 w) ->
  is_matrix N (length (keys base_pred)) w ->
  exists y tr',
    model_flat mu sd env X base_pred None lw lr kern link_func ridge kw tr
    = (Ok y, tr')
    /\ rv_name y = "y"
    /\ mean (rv_dist y)
       = Some (T1 (map (fun n => dot (map (pred_at base_pred n) (keys base_pred))
                                     (nth n w [])
                                 + env "ensemble_resid" n)
                       (seq 0 N)))
    /\ shape (rv_value y) = [N].
Proof.
  intros HX Hs Hne Hnd Hlink Hw.
  pose proof (model_flat_run mu sd env X base_pred lw lr kern link_func ridge kw
                             tr N D w HX Hs Hne Hnd Hlink Hw) as Hrun.
  cbv zeta in Hrun. eexists. eexists. split; [exact Hrun|].
  cbn [rv_name rv_dist rv_value mean shape]. split; [reflexivity|]. split.
  - do 2 f_equal. unfold predictive_mean. apply map_ext_in. intros n Hn.
    apply in_seq in Hn. f_equal.
    apply (nth_map_seq 0 (env "ensemble_resid") N n). lia.
  - now rewrite length_map, length_seq.
Qed.

(** X3, on two base models under the softmax link. *)
Lemma flat_model_mean_is_weighted_prediction_plus_residual_witness :
  exists (w : matrix) y tr',
    model_flat 0 1 Ex.env Ex.X Ex.base_pred None 1 1 rbf Ex.softmax 1 [] []
    = (Ok y, tr')
    /\ rv_name y = "y"
    /\ mean (rv_dist y)
       = Some (T1 (map (fun n => dot (map (pred_at Ex.base_pred n)
                                          (keys Ex.base_pred))
                                     (nth n w [])
                                 + Ex.env "ensemble_resid" n)
                       (seq 0 2)))
    /\ shape (rv_value y) = [2%nat].
Proof.
  let r := eval lazy -[exp IZR Rplus Rmult Rdiv Rinv Ropp] in
             (Ex.softmax (T2 (raw_weight_matrix Ex.env 2 (keys Ex.base_pred)))
                         (tf_exp (T0 (Ex.env "temp" 0%nat))))
  in match r with
     | Ok (T2 ?w) =>
         exists w;
         apply (flat_model_mean_is_weighted_prediction_plus_residual
                  0 1 Ex.env Ex.X Ex.base_pred 1 1 rbf Ex.softmax 1 [] [] 2 1 w)
     end.
  - reflexivity.
  - by_shape.
  - discriminate.
  - repeat constructor; simpl; intuition discriminate.
  - reflexivity.
  - by_shape.
Defined.

(** X4.  Under the same conditions [model_flat] declares [K + 4] random
    variables and no other: ["temp"], one ["base_weight_<key>"] for every key
    of [base_pred] in the order of the dictionary, ["ensemble_resid"],
    ["sigma"] and ["y"]; their names are pairwise distinct, whatever the keys
    are. *)
Theorem flat_model_declares_distinct_names
        (mu sd : R) (env : latent) (X : tensor) (base_pred : dict tensor)
        (lw lr : R) (kern : kernel_func) (link_func : link) (ridge : R)
        (kw : kwargs) (tr : trace) (N D : nat) (w : matrix) :
  shape X = [N; D] ->
  Forall (fun kv => shape (snd kv) = [N]) base_pred ->
  base_pred <> [] ->
  NoDup (keys base_pred) ->
  link_func (T2 (raw_weight_matrix env N (keys base_pred)))
            (tf_exp (T0 (env "temp" 0%nat)))
  = Ok (T2 w) ->
  is_matrix N (length (keys base_pred)) w ->
  exists y declared,
    model_flat mu sd env X base_pred None lw lr kern link_func ridge kw tr
    = (Ok y, tr ++ declared)
    /\ map rv_name declared
       = ("temp" :: map (fun key => "base_weight_" ++ key) (keys base_pred)
                 ++ ["ensemble_resid"; "sigma"; "y"])%string
    /\ length declared = (length base_pred + 4)%nat
    /\ NoDup (map rv_name declared).
Proof.
  intros HX Hs Hne Hnd Hlink Hw.
  pose proof (model_flat_run mu sd env X base_pred lw lr kern link_func ridge kw
                             tr N D w HX Hs Hne Hnd Hlink Hw) as Hrun.
  cbv zeta in Hrun. rewrite <- app_assoc in Hrun.
  eexists. eexists. split; [exact Hrun|].
  assert (Hnames :
            map rv_name
                ((temperature env mu sd "temp"
                  :: map (weight_gp env X kern ridge (("ls", lw) :: kw) N)
                         (keys base_pred))
                 ++ observation_trace env X lr N
                      {| rv_name := "y";
                         rv_dist := MultivariateNormalDiag
                                      (T1 (predictive_mean
                                             N base_pred (keys base_pred) w
                                             (map (env "ensemble_resid") (seq 0 N))))
                                      (T0 (exp (env "sigma" 0%nat)));
                         rv_value := T1 (map (env "y") (seq 0 N)) |})
            = ("temp" :: map (fun key => "base_weight_" ++ key) (keys base_pred)
                      ++ ["ensemble_resid"; "sigma"; "y"])%string).
  { rewrite map_app. cbn [map]. now rewrite weight_gp_names. }
  unfold temperature, observation_trace in Hnames.
  split; [exact Hnames|]. split.
  - rewrite length_app. cbn [length]. rewrite length_map. unfold keys.
    rewrite length_map. lia.
  - rewrite Hnames. now apply flat_names_NoDup.
Qed.

(** X4, on two base models under the softmax link. *)
Lemma flat_model_declares_distinct_names_witness :
  exists y declared,
    model_flat 0 1 Ex.env Ex.X Ex.base_pred None 1 1 rbf Ex.softmax 1 [] []
    = (Ok y, [] ++ declared)
    /\ map rv_name declared
       = ["temp"; "base_weight_a"; "base_weight_b"; "ensemble_resid"; "sigma"; "y"]%string
    /\ length declared = 6%nat
    /\ NoDup (map rv_name declared).
Proof.
  let r := eval lazy -[exp IZR Rplus Rmult Rdiv Rinv Ropp] in
             (Ex.softmax (T2 (raw_weight_matrix Ex.env 2 (keys Ex.base_pred)))
                         (tf_exp (T0 (Ex.env "temp" 0%nat))))
  in match r with
     | Ok (T2 ?w) =>
         apply (flat_model_declares_distinct_names
                  0 1 Ex.env Ex.X Ex.base_pred 1 1 rbf Ex.softmax 1 [] [] 2 1 w)
     end.
  - reflexivity.
  - by_shape.
  - discriminate.
  - repeat constructor; simpl; intuition discriminate.
  - reflexivity.
  - by_shape.
Defined.

(** ** The posterior samples of the flat model *)

Lemma flat_base_models (N : nat) (base_pred : dict tensor) :
  Forall (fun kv => shape (snd kv) = [N]) base_pred ->
  base_pred <> [] ->
  NoDup (keys base_pred) ->
  exists F0,
    np_asarray (values base_pred) = Ok F0
    /\ np_T F0 = T2 (pred_matrix N base_pred (keys base_pred)).
Proof.
  intros Hs Hne Hnd.
  assert (Hk : keys base_pred <> [])
    by (unfold keys; destruct base_pred; [congruence | discriminate]).
  assert (Hin : Forall (fun name => In name (keys base_pred)) (keys base_pred))
    by (apply Forall_forall; auto).
  destruct (base_models_run N base_pred (keys base_pred) Hs Hin Hk)
    as (B0 & _ & Ha & HT).
  exists B0. now rewrite (values_are_pred_vectors N base_pred Hnd Hs).
Qed.

Lemma tf_reduce_sum_cube_axis2 (c : cube) :
  tf_reduce_sum (T3 c) 2 = Ok (T2 (map (map sum) c)).
Proof. reflexivity. Qed.

Lemma tf_reduce_sum_matrix_axis2 (m : matrix) :
  tf_reduce_sum (T2 m) 2 = Raise reduction_error.
Proof. reflexivity. Qed.

Lemma keys_length {V} (d : dict V) : length (keys d) = length d.
Proof. apply length_map. Qed.

(** An axis of length 1 is repeated along the other operand. *)
Lemma broadcast_axis_one {A} (f : A -> A -> result A) (a : A) (lb : list A) :
  broadcast_axis f [a] lb = mapM (f a) lb.
Proof.
  unfold broadcast_axis. destruct lb as [|b [|b' lb]]; [reflexivity | | reflexivity].
  cbn [length Nat.eqb map2M mapM]. destruct (f a b); reflexivity.
Qed.

Lemma broadcast_axis_mismatch {A} (f : A -> A -> result A) (la lb : list A) :
  length la <> length lb -> length la <> 1%nat -> length lb <> 1%nat ->
  broadcast_axis f la lb = Raise broadcast_error.
Proof.
  intros H Ha Hb. unfold broadcast_axis.
  destruct (Nat.eqb_spec (length la) (length lb)) as [E|_]; [contradiction|].
  destruct la as [|a [|a' la]], lb as [|b [|b' lb]]; simpl in *;
    try reflexivity; congruence.
Qed.

(** One row of predictions against weights of shape [(S, N, K)]. *)
Lemma tf_op_row_cube (f : R -> R -> R) (s n k : nat) (p : vector) (c : cube) :
  length p = k -> is_cube s n k c ->
  broadcast_op f (T2 [p]) (T3 c) = Ok (T3 (map (map (map2 f p)) c)).
Proof.
  intros Hp [_ Hc]. unfold broadcast_op. cbn [as_rank3].
  assert (E : broadcast3 f [[p]] c = Ok (map (map (map2 f p)) c)).
  { unfold broadcast3. rewrite broadcast_axis_one. apply mapM_total.
    intros m Hm. rewrite Forall_forall in Hc. destruct (Hc m Hm) as [_ Hrows].
    unfold broadcast2. rewrite broadcast_axis_one. apply mapM_total.
    intros row Hrow. rewrite Forall_forall in Hrows.
    apply broadcast1_same. rewrite Hp. symmetry. apply (Hrows row Hrow). }
  rewrite E. reflexivity.
Qed.

(** Predictions at [n'] points against weights at [n <> n'] points. *)
Lemma tf_op_matrix_cube_mismatch (f : R -> R -> R) (s n n' k : nat)
      (a m : matrix) (c : cube) :
  length a = n' -> is_cube s n k (m :: c) ->
  n' <> n -> n' <> 1%nat -> n <> 1%nat ->
  broadcast_op f (T2 a) (T3 (m :: c)) = Raise broadcast_error.
Proof.
  intros Ha [_ Hc] Hn Hn' Hn1. unfold broadcast_op. cbn [as_rank3].
  assert (Lm : length m = n) by (inversion Hc as [|? ? [L _] _]; exact L).
  assert (E : broadcast3 f [a] (m :: c) = Raise broadcast_error).
  { unfold broadcast3. rewrite broadcast_axis_one. cbn [mapM].
    unfold broadcast2 at 1.
    rewrite broadcast_axis_mismatch by congruence. reflexivity. }
  rewrite E. reflexivity.
Qed.

Lemma cube_shape (s n k : nat) (c : cube) :
  (1 <= s)%nat -> (1 <= n)%nat -> is_cube s n k c -> shape (T3 c) = [s; n; k].
Proof.
  intros Hs Hn [Lc Hc]. cbn [shape].
  destruct c as [|m c]; [simpl in Lc; lia|].
  inversion Hc as [|? ? [Lm Hm] _]; subst. cbn [hd].
  destruct m as [|r m]; [simpl in Hn; lia|].
  inversion Hm as [|? ? Lr _]; subst. cbn [hd].
  unfold is_vector in Lr. now rewrite Lr.
Qed.

(** What a list of [K >= 1] arrays of shape [(S, N)] becomes. *)
Lemma moveaxis_samples (Ns N : nat) (m : matrix) (ms : list matrix) :
  Forall (is_matrix Ns N) (m :: ms) ->
  np_asarray (map T2 (m :: ms)) = Ok (T3 (m :: ms))
  /\ np_moveaxis_0_last (T3 (m :: ms))
     = Ok (T3 (tabulate2 Ns N (fun s n => map (fun a => at2 a s n) (m :: ms)))).
Proof.
  intros H. assert (Hm : is_matrix Ns N m) by now inversion H.
  assert (Ha : np_asarray (map T2 (m :: ms)) = Ok (T3 (m :: ms))).
  { cbn [map np_asarray].
    change (T2 m :: map T2 ms) with (map T2 (m :: ms)).
    rewrite (mapM_as_T2 (shape (T2 m)) (m :: ms)); [reflexivity|].
    eapply Forall_impl; [|exact H]. intros a Ha.
    now apply (shape_sample_matrix Ns N). }
  split; [exact Ha|].
  pose proof (tf_stack_samples Ns N m ms H) as Hst.
  unfold tf_stack in Hst. cbn [map rank] in Hst.
  change (T2 m :: map T2 ms) with (map T2 (m :: ms)) in Hst.
  rewrite Ha in Hst.
  replace (normalize_axis (-1) 3) with (Some 2%nat) in Hst by reflexivity.
  cbn [rbind] in Hst. exact Hst.
Qed.

(** What [sample_posterior_mean_flat] returns on weights of shape
    [(S, N, K)]. *)
Lemma flat_posterior_mean_run
      (base_pred : dict tensor) (weight_sample : weight_sample_arg)
      (temp_sample : tensor) (link_func : link) (Ns N : nat) (c : cube) :
  Forall (fun kv => shape (snd kv) = [N]) base_pred ->
  base_pred <> [] ->
  NoDup (keys base_pred) ->
  sample_posterior_weight_flat weight_sample temp_sample link_func = Ok (T3 c) ->
  is_cube Ns N (length (keys base_pred)) c ->
  sample_posterior_mean_flat base_pred weight_sample temp_sample link_func
  = Ok (T2 (map (weighted_mean N base_pred (keys base_pred)) c)).
Proof.
  intros Hs Hne Hnd Hw Hc.
  unfold sample_posterior_mean_flat. rewrite Hw. cbn [rbind].
  destruct (flat_base_models N base_pred Hs Hne Hnd) as (F0 & HF & HT).
  rewrite HF. cbn [rbind]. rewrite HT. unfold tf_multiply.
  rewrite (tf_op_matrix_cube Rmult Ns N (length (keys base_pred)) _ c
                             (pred_matrix_shape N base_pred (keys base_pred)) Hc).
  cbn [rbind]. rewrite tf_reduce_sum_cube_axis2. do 2 f_equal.
  rewrite map_map. apply map_ext_in. intros w Hin.
  apply weighted_sum_rows.
  destruct Hc as [_ Hc]. rewrite Forall_forall in Hc. apply (Hc w Hin).
Qed.

(** X5.  The posterior mean of the flat model: for [K >= 1] base models with
    predictions of shape [(N,)] and sampled ensemble weights of shape
    [(S, N, K)], [sample_posterior_mean_flat] returns the array of shape
    [(S, N)] whose entry [(s, n)] is the sum over the base models, in the
    order of the dictionary, of the prediction at [n] times the weight at
    [(s, n)]. *)
Theorem flat_posterior_mean_is_weighted_prediction
        (base_pred : dict tensor) (weight_sample : weight_sample_arg)
        (temp_sample : tensor) (link_func : link) (Ns N : nat) (c : cube) :
  Forall (fun kv => shape (snd kv) = [N]) base_pred ->
  base_pred <> [] ->
  NoDup (keys base_pred) ->
  sample_posterior_weight_flat weight_sample temp_sample link_func = Ok (T3 c) ->
  is_cube Ns N (length base_pred) c ->
  sample_posterior_mean_flat base_pred weight_sample temp_sample link_func
  = Ok (T2 (map (fun w =>
                   map (fun n => dot (map (pred_at base_pred n) (keys base_pred))
                                     (nth n w []))
                       (seq 0 N))
                c))
  /\ is_matrix Ns N (map (weighted_mean N base_pred (keys base_pred)) c).
Proof.
  intros Hs Hne Hnd Hw Hc. rewrite <- keys_length in Hc. split.
  - now apply (flat_posterior_mean_run base_pred weight_sample temp_sample
                                       link_func Ns N c).
  - split; [rewrite length_map; apply Hc|].
    apply Forall_forall. intros v Hv. apply in_map_iff in Hv.
    destruct Hv as (w & <- & _). apply weighted_mean_length.
Qed.

(** X5, on two base models and a list of two draws of their raw weights. *)
Lemma flat_posterior_mean_is_weighted_prediction_witness :
  exists c : cube,
    sample_posterior_mean_flat Ex.base_pred
                               (PyList (values ExSample.weight_gp_dict))
                               (T1 [0; 0]) Ex.softmax
    = Ok (T2 (map (fun w =>
                     map (fun n => dot (map (pred_at Ex.base_pred n)
                                            (keys Ex.base_pred))
                                       (nth n w []))
                         (seq 0 2))
                  c))
    /\ is_matrix 2 2 (map (weighted_mean 2 Ex.base_pred (keys Ex.base_pred)) c).
Proof.
  let r := eval lazy -[exp IZR Rplus Rmult Rdiv Rinv Ropp] in
             (sample_posterior_weight_flat (PyList (values ExSample.weight_gp_dict))
                                           (T1 [0; 0]) Ex.softmax)
  in match r with
     | Ok (T3 ?c) =>
         exists c;
         apply (flat_posterior_mean_is_weighted_prediction
                  Ex.base_pred (PyList (values ExSample.weight_gp_dict))
                  (T1 [0; 0]) Ex.softmax 2 2 c)
     end.
  - by_shape.
  - discriminate.
  - repeat constructor; simpl; intuition discriminate.
  - reflexivity.
  - by_shape.
Defined.

(** X6.  [sample_posterior_mean_flat] does not check the predictions against
    the samples as the models do.  Predictions at one point, of shape [(1,)],
    are accepted for sampled weights at [N] points and used at every point;
    predictions at [N'] points, [N'] and [N] distinct and not 1, fail in the
    multiplication with the broadcasting error, not with the message of the
    dimension check. *)
Theorem flat_posterior_mean_does_not_check_dimension
        (base_pred : dict tensor) (weight_sample : weight_sample_arg)
        (temp_sample : tensor) (link_func : link) (Ns N N' : nat) (c : cube) :
  Forall (fun kv => shape (snd kv) = [N']) base_pred ->
  base_pred <> [] ->
  NoDup (keys base_pred) ->
  sample_posterior_weight_flat weight_sample temp_sample link_func = Ok (T3 c) ->
  is_cube Ns N (length base_pred) c ->
  (N' = 1%nat ->
   sample_posterior_mean_flat base_pred weight_sample temp_sample link_func
   = Ok (T2 (map (map (dot (map (pred_at base_pred 0) (keys base_pred)))) c)))
  /\ (N' <> N -> N' <> 1%nat -> N <> 1%nat -> (1 <= Ns)%nat ->
      sample_posterior_mean_flat base_pred weight_sample temp_sample link_func
      = Raise broadcast_error).
Proof.
  intros Hs Hne Hnd Hw Hc. rewrite <- keys_length in Hc.
  destruct (flat_base_models N' base_pred Hs Hne Hnd) as (F0 & HF & HT).
  split.
  - intros ->. unfold sample_posterior_mean_flat. rewrite Hw. cbn [rbind].
    rewrite HF. cbn [rbind]. rewrite HT. unfold tf_multiply, pred_matrix.
    cbn [seq map].
    rewrite (tf_op_row_cube Rmult Ns N (length (keys base_pred)) _ c
                            (length_map _ _) Hc).
    cbn [rbind]. rewrite tf_reduce_sum_cube_axis2. do 2 f_equal.
    rewrite map_map. apply map_ext. intros m. rewrite map_map. reflexivity.
  - intros Hn Hn' Hn1 HNs. unfold sample_posterior_mean_flat.
    rewrite Hw. cbn [rbind]. rewrite HF. cbn [rbind]. rewrite HT.
    destruct c as [|m c]; [destruct Hc as [Lc _]; simpl in Lc; lia|].
    unfold tf_multiply.
    rewrite (tf_op_matrix_cube_mismatch
               Rmult Ns N N' (length (keys base_pred)) _ m c
               (proj1 (pred_matrix_shape N' base_pred (keys base_pred)))
               Hc Hn Hn' Hn1).
    reflexivity.
Qed.

(** X6, on two models with one prediction each and on two models with three
    predictions each, against weights at two points. *)
Lemma flat_posterior_mean_does_not_check_dimension_witness :
  (exists c : cube,
      sample_posterior_mean_flat [("a", T1 [10]); ("b", T1 [30])]
                                 (PyList (values ExSample.weight_gp_dict))
                                 (T1 [0; 0]) Ex.softmax
      = Ok (T2 (map (map (dot [10; 30])) c))
      /\ is_cube 2 2 2 c)
  /\ sample_posterior_mean_flat [("a", T1 [10; 20; 30]); ("b", T1 [30; 40; 50])]
                                (PyList (values ExSample.weight_gp_dict))
                                (T1 [0; 0]) Ex.softmax
     = Raise (ValueError "operands could not be broadcast together").
Proof.
  let r := eval lazy -[exp IZR Rplus Rmult Rdiv Rinv Ropp] in
             (sample_posterior_weight_flat (PyList (values ExSample.weight_gp_dict))
                                           (T1 [0; 0]) Ex.softmax)
  in match r with
     | Ok (T3 ?c) =>
         split;
         [ exists c; split;
           [ apply (flat_posterior_mean_does_not_check_dimension
                      [("a", T1 [10]); ("b", T1 [30])]
                      (PyList (values ExSample.weight_gp_dict))
                      (T1 [0; 0]) Ex.softmax 2 2 1 c)
           | ]
         | apply (flat_posterior_mean_does_not_check_dimension
                    [("a", T1 [10; 20; 30]); ("b", T1 [30; 40; 50])]
                    (PyList (values ExSample.weight_gp_dict))
                    (T1 [0; 0]) Ex.softmax 2 2 3 c) ]
     end.
  all: try discriminate; try lia.
  all: try (repeat constructor; simpl; intuition discriminate).
  all: by_shape.
Defined.

(** X7.  A list of [K >= 1] arrays of shape [(S, N)], one per base model,
    reaches the link function as one array of shape [(S, N, K)] whose entry
    [(s, n, k)] is entry [(s, n)] of the [k]-th array of the list, together
    with the exponential of the [S] temperatures; when the number of
    temperatures is not [S], the link function is not called and the
    [ValueError] names the shape [(S, N, K)]. *)
Theorem list_of_samples_is_stacked_on_last_axis
        (link_func : link) (ts : vector) (Ns N : nat)
        (m : matrix) (ms : list matrix) :
  (1 <= Ns)%nat -> (1 <= N)%nat ->
  Forall (is_matrix Ns N) (m :: ms) ->
  sample_posterior_weight_flat (PyList (map T2 (m :: ms))) (T1 ts) link_func
  = if Nat.eqb (length ts) Ns
    then link_func
           (T3 (tabulate2 Ns N (fun s n => map (fun a => at2 a s n) (m :: ms))))
           (T1 (map exp ts))
    else Raise (ValueError
                  (sample_size_message [Ns; N; length (m :: ms)] (length ts))).
Proof.
  intros HNs HN H. destruct (moveaxis_samples Ns N m ms H) as [Ha Hmv].
  rewrite (sample_posterior_weight_flat_list
             _ ts link_func _ _ Ns [N; length (m :: ms)] Ha Hmv).
  2:{ apply cube_shape; [exact HNs | exact HN | apply stacked_samples_shape]. }
  rewrite (Nat.eqb_sym Ns (length ts)).
  destruct (Nat.eqb (length ts) Ns); [reflexivity|].
  rewrite (cube_shape Ns N (length (m :: ms)));
    [reflexivity | exact HNs | exact HN | apply stacked_samples_shape].
Qed.

(** X7, on two draws at two points for two base models, with two and with
    three temperatures. *)
Lemma list_of_samples_is_stacked_on_last_axis_witness :
  sample_posterior_weight_flat (PyList (values ExSample.weight_gp_dict))
                               (T1 [0; 0]) Ex.probe
  = Ok (T1 [exp 0; exp 0])
  /\ sample_posterior_weight_flat (PyList (values ExSample.weight_gp_dict))
                                  (T1 [0; 0; 0]) Ex.probe
     = Raise (ValueError
                "Sample size of weight_sample (dim=(2, 2, 2)) doesn't match that of the temp_sample (3)").
Proof.
  split.
  - apply (list_of_samples_is_stacked_on_last_axis
             Ex.probe [0; 0] 2 2 [[0; 0]; [1; 1]] [[[1; 0]; [0; 1]]]);
      [lia | lia | by_shape].
  - apply (list_of_samples_is_stacked_on_last_axis
             Ex.probe [0; 0; 0] 2 2 [[0; 0]; [1; 1]] [[[1; 0]; [0; 1]]]);
      [lia | lia | by_shape].
Defined.

(** X8.  [sample_posterior_mean_flat] sums over the axis [2]: ensemble
    weights of one draw, of shape [(N, K)] as the link function returns them
    in [model_flat], are multiplied with the predictions and then rejected by
    the reduction. *)
Theorem flat_posterior_mean_needs_sample_axis
        (base_pred : dict tensor) (weight_sample : weight_sample_arg)
        (temp_sample : tensor) (link_func : link) (N : nat) (w : matrix) :
  Forall (fun kv => shape (snd kv) = [N]) base_pred ->
  base_pred <> [] ->
  NoDup (keys base_pred) ->
  sample_posterior_weight_flat weight_sample temp_sample link_func = Ok (T2 w) ->
  is_matrix N (length base_pred) w ->
  sample_posterior_mean_flat base_pred weight_sample temp_sample link_func
  = Raise reduction_error.
Proof.
  intros Hs Hne Hnd Hw Hm. rewrite <- keys_length in Hm.
  unfold sample_posterior_mean_flat. rewrite Hw. cbn [rbind].
  destruct (flat_base_models N base_pred Hs Hne Hnd) as (F0 & HF & HT).
  rewrite HF. cbn [rbind]. rewrite HT. unfold tf_multiply.
  rewrite (tf_op_matrix Rmult N (length (keys base_pred)) _ w
                        (pred_matrix_shape N base_pred (keys base_pred)) Hm).
  cbn [rbind]. apply tf_reduce_sum_matrix_axis2.
Qed.

(** X8, on raw weights of one draw under a link function that returns its
    logits. *)
Lemma flat_posterior_mean_needs_sample_axis_witness :
  sample_posterior_mean_flat Ex.base_pred (NdArray (T2 [[0; 1]; [1; 0]]))
                             (T1 [0]) (fun logits _ => Ok logits)
  = Raise (ValueError "Invalid reduction dimension").
Proof.
  apply (flat_posterior_mean_needs_sample_axis
           Ex.base_pred (NdArray (T2 [[0; 1]; [1; 0]])) (T1 [0])
           (fun logits _ => Ok logits) 2 [[0; 1]; [1; 0]]).
  - by_shape.
  - discriminate.
  - repeat constructor; simpl; intuition discriminate.
  - reflexivity.
  - by_shape.
Defined.

Lemma unpack1_rejects (s : list nat) :
  length s <> 1%nat -> unpack1 s = Raise (unpack_error 1 (length s)).
Proof.
  destruct s as [|a [|b s]]; simpl; intros H; try reflexivity. congruence.
Qed.

Lemma unpack1_inv (s : list nat) (n : nat) : unpack1 s = Ok n -> s = [n].
Proof.
  destruct s as [|a [|b s]]; simpl; intros H; try discriminate. now inversion H.
Qed.

(** X9.  [N_sample, = temp_sample.shape] is the first statement of the flat
    posterior: temperature samples that are not a vector, such as one scalar
    draw, make [sample_posterior_weight_flat] and
    [sample_posterior_mean_flat] raise the [ValueError] of the unpacking,
    whatever the weights and the link function are; whenever either returns,
    the temperatures have a shape [(S,)]. *)
Theorem flat_posterior_needs_vector_of_temperatures
        (base_pred : dict tensor) (weight_sample : weight_sample_arg)
        (temp_sample : tensor) (link_func : link) :
  (length (shape temp_sample) <> 1%nat ->
   sample_posterior_weight_flat weight_sample temp_sample link_func
   = Raise (unpack_error 1 (length (shape temp_sample)))
   /\ sample_posterior_mean_flat base_pred weight_sample temp_sample link_func
      = Raise (unpack_error 1 (length (shape temp_sample))))
  /\ (forall r,
         sample_posterior_weight_flat weight_sample temp_sample link_func = Ok r
         \/ sample_posterior_mean_flat base_pred weight_sample temp_sample link_func
            = Ok r ->
         exists Ns, shape temp_sample = [Ns]).
Proof.
  assert (Hret : forall r,
             sample_posterior_weight_flat weight_sample temp_sample link_func = Ok r ->
             exists Ns, shape temp_sample = [Ns]).
  { intros r H. unfold sample_posterior_weight_flat in H.
    apply rbind_ok_inv in H. destruct H as (Ns & HNs & _).
    exists Ns. now apply unpack1_inv. }
  split.
  - intros Ht.
    assert (E : sample_posterior_weight_flat weight_sample temp_sample link_func
                = Raise (unpack_error 1 (length (shape temp_sample)))).
    { unfold sample_posterior_weight_flat.
      now rewrite (unpack1_rejects _ Ht). }
    split; [exact E|]. unfold sample_posterior_mean_flat. now rewrite E.
  - intros r [H | H]; [now apply (Hret r)|].
    unfold sample_posterior_mean_flat in H.
    apply rbind_ok_inv in H. destruct H as (W & HW & _). now apply (Hret W).
Qed.

(** X9, on one scalar draw of the temperature. *)
Lemma flat_posterior_needs_vector_of_temperatures_witness :
  sample_posterior_weight_flat (NdArray (T2 [[0; 1]; [1; 0]])) (T0 0) Ex.softmax
  = Raise (ValueError "not enough values to unpack (expected 1, got 0)")
  /\ sample_posterior_mean_flat Ex.base_pred (NdArray (T2 [[0; 1]; [1; 0]]))
                                (T0 0) Ex.softmax
     = Raise (ValueError "not enough values to unpack (expected 1, got 0)").
Proof.
  apply (flat_posterior_needs_vector_of_temperatures
           Ex.base_pred (NdArray (T2 [[0; 1]; [1; 0]])) (T0 0) Ex.softmax).
  simpl. discriminate.
Defined.

(** ** No base model *)

(** X10.  On an empty [base_pred] and without a family tree (or with an
    empty one) there is nothing to stack: [sparse_conditional_weight]
    declares no random variable and raises before the link function is
    called, and [model_flat], whose dimension check has nothing to reject,
    fails with the same exception after declaring the temperature alone. *)
Theorem no_base_model_fails_at_stack
        (mu sd : R) (env : latent) (X : tensor) (tree : option family_tree)
        (temp : tensor) (lw lr : R) (kern : kernel_func) (link_func : link)
        (ridge : R) (kw : kwargs) (tr : trace) (N D : nat) :
  truthy tree = false ->
  shape X = [N; D] ->
  sparse_conditional_weight env X [] temp tree kern link_func ridge kw tr
  = (Raise IndexError, tr)
  /\ model_flat mu sd env X [] tree lw lr kern link_func ridge kw tr
     = (Raise IndexError, tr ++ [temperature env mu sd "temp"]).
Proof.
  intros Ht HX. split.
  - unfold sparse_conditional_weight. rewrite Ht. reflexivity.
  - unfold model_flat. rewrite HX. cbn [unpack2].
    rewrite (bind_lift_ok (N, D)) by reflexivity.
    rewrite (bind_lift_ok tt) by reflexivity.
    unfold sparse_conditional_weight. rewrite Ht. reflexivity.
Qed.

(** X10, on two evaluation points. *)
Lemma no_base_model_fails_at_stack_witness :
  sparse_conditional_weight Ex.env Ex.X [] (T0 0) None rbf Ex.softmax 1 [] []
  = (Raise IndexError, [])
  /\ model_flat 0 1 Ex.env Ex.X [] None 1 1 rbf Ex.softmax 1 [] []
     = (Raise IndexError, [] ++ [temperature Ex.env 0 1 "temp"]).
Proof.
  apply (no_base_model_fails_at_stack
           0 1 Ex.env Ex.X None (T0 0) 1 1 rbf Ex.softmax 1 [] [] 2 1);
    reflexivity.
Defined.

(** ** The example scripts: from variable names to node names and back *)

Lemma prefix_app (a b : string) : String.prefix a (a ++ b)%string = true.
Proof.
  induction a as [|c a IH]; simpl; [now destruct b|].
  destruct (ascii_dec c c); [exact IH | congruence].
Qed.

Lemma prefix_nonempty (c : ascii) (old : string) :
  String.prefix (String c old) "" = false.
Proof. reflexivity. Qed.

(** The characters of an occurrence are passed over. *)
Lemma replace_from_skip (old new t s : string) :
  replace_from old new (String.length t) (t ++ s)%string
  = match s with
    | EmptyString => EmptyString
    | _ => replace_from old new 0 s
    end.
Proof.
  induction t as [|c t IH]; simpl.
  - destruct s; reflexivity.
  - exact IH.
Qed.

Lemma replace_from_0_empty (old new : string) :
  replace_from old new 0 "" = ""%string.
Proof. reflexivity. Qed.

Lemma replace_from_occurrence (c : ascii) (old new s : string) :
  replace_from (String c old) new 0 (String c old ++ s)%string
  = (new ++ replace_from (String c old) new 0 s)%string.
Proof.
  change (String c old ++ s)%string with (String c (old ++ s)%string).
  cbn [replace_from].
  change (String c (old ++ s)%string) with (String c old ++ s)%string.
  rewrite prefix_app.
  replace (String.length (String c old) - 1)%nat with (String.length old)
    by (cbn [String.length]; lia).
  rewrite replace_from_skip. destruct s; reflexivity.
Qed.

Lemma replace_from_absent (old new s : string) :
  occurs old s = false -> replace_from old new 0 s = s.
Proof.
  induction s as [|c s IH]; [reflexivity|].
  cbn [occurs replace_from]. intros H. apply orb_false_elim in H.
  destruct H as [Hp Ho]. rewrite Hp. now rewrite (IH Ho).
Qed.

Lemma replace_from_length (old : string) (k : nat) (s : string) :
  (String.length (replace_from old "" k s) <= String.length s)%nat.
Proof.
  revert k. induction s as [|c s IH]; intros k; [simpl; lia|].
  cbn [replace_from]. destruct k as [|k].
  - destruct (String.prefix old (String c s)).
    + cbn [append String.length]. specialize (IH (String.length old - 1)%nat). lia.
    + cbn [String.length]. specialize (IH 0%nat). lia.
  - cbn [String.length]. specialize (IH k). lia.
Qed.

Lemma replace_from_shorter (c : ascii) (old s : string) :
  occurs (String c old) s = true ->
  (String.length (replace_from (String c old) "" 0 s) < String.length s)%nat.
Proof.
  induction s as [|a s IH]; [discriminate|].
  cbn [occurs replace_from]. intros H.
  destruct (String.prefix (String c old) (String a s)).
  - cbn [append String.length].
    pose proof (replace_from_length (String c old)
                                    (String.length (String c old) - 1) s).
    cbn [String.length] in *. lia.
  - cbn [orb] in H. specialize (IH H). cbn [String.length]. lia.
Qed.

Lemma mark_nonempty (prefix : string) :
  exists c old, (prefix ++ "_")%string = String c old.
Proof. destruct prefix as [|c p]; simpl; eauto. Qed.

Lemma node_name_of_variable (prefix node : string) :
  node_name_of prefix ((prefix ++ "_") ++ node) = node_name_of prefix node.
Proof.
  unfold node_name_of, str_replace.
  destruct (mark_nonempty prefix) as (c & old & ->).
  now rewrite replace_from_occurrence.
Qed.

Lemma node_name_of_absent (prefix node : string) :
  occurs (prefix ++ "_") node = false -> node_name_of prefix node = node.
Proof.
  unfold node_name_of, str_replace.
  destruct (mark_nonempty prefix) as (c & old & ->).
  apply replace_from_absent.
Qed.

(** X11.  The scripts recover the name of a node from the name of its random
    variable, [<prefix>_<node>], with [str.replace], which removes every
    occurrence of [<prefix>_] and not only the leading one: the recovered
    name is what [replace] makes of the node name alone, so the node name
    comes back exactly when it does not itself contain [<prefix>_];
    otherwise the recovered name is a different, shorter string. *)
Theorem node_name_comes_back_iff_prefix_absent (prefix node : string) :
  node_name_of prefix ((prefix ++ "_") ++ node) = node_name_of prefix node
  /\ (node_name_of prefix ((prefix ++ "_") ++ node) = node
      <-> occurs (prefix ++ "_") node = false)
  /\ (String.length (node_name_of prefix ((prefix ++ "_") ++ node))
      <= String.length node)%nat.
Proof.
  split; [apply node_name_of_variable|].
  rewrite node_name_of_variable. split.
  - split.
    + intros H. destruct (occurs (prefix ++ "_") node) eqn:E; [|reflexivity].
      exfalso. unfold node_name_of, str_replace in H.
      destruct (mark_nonempty prefix) as (c & old & Hm). rewrite Hm in H, E.
      pose proof (replace_from_shorter c old node E) as Hlt.
      rewrite H in Hlt. lia.
    + apply node_name_of_absent.
  - unfold node_name_of, str_replace.
    destruct (mark_nonempty prefix) as (c & old & ->).
    apply replace_from_length.
Qed.

(** ** The example scripts: the dictionaries of samples *)

Lemma dict_set_fresh {V} (d : dict V) (key : string) (v : V) :
  ~ In key (keys d) -> dict_set d key v = d ++ [(key, v)].
Proof.
  induction d as [|[k x] d IH]; simpl; intros H; [reflexivity|].
  destruct (String.eqb_spec k key) as [->|_]; [tauto|].
  rewrite IH by tauto. reflexivity.
Qed.

Lemma dict_set_keys {V} (d : dict V) (key : string) (v : V) (k : string) :
  In k (keys (dict_set d key v)) <-> k = key \/ In k (keys d).
Proof.
  induction d as [|[k0 x] d IH]; simpl; [intuition congruence|].
  destruct (String.eqb_spec k0 key) as [->|Hne]; simpl.
  - intuition congruence.
  - rewrite IH. intuition congruence.
Qed.

Lemma existsb_eqb_In (x : string) (l : list string) :
  existsb (String.eqb x) l = true <-> In x l.
Proof.
  rewrite existsb_exists. split.
  - intros (y & Hy & E). apply String.eqb_eq in E. now subst.
  - intros H. exists x. split; [exact H | apply String.eqb_refl].
Qed.

Lemma samples_by_node_run {A V} (prefix : string) (node_names : list string)
      (predict : A -> V) (named : list (string * A)) (d : dict V) :
  NoDup (keys d ++ map fst named) ->
  Forall (fun kv => In (fst kv) node_names
                    /\ occurs (prefix ++ "_") (fst kv) = false) named ->
  samples_by_node prefix node_names predict
                  (map (fun kv => ((prefix ++ "_") ++ fst kv, snd kv)%string) named) d
  = Passed (d ++ map (fun kv => (fst kv, predict (snd kv))) named).
Proof.
  revert d. induction named as [|[n a] named IH]; intros d Hnd Hall.
  - simpl. now rewrite app_nil_r.
  - inversion Hall as [|? ? [Hin Hocc] Hrest]; subst. cbn [fst snd] in *.
    cbn [map samples_by_node fst snd].
    rewrite node_name_of_variable, (node_name_of_absent prefix n Hocc).
    rewrite (proj2 (existsb_eqb_In n node_names) Hin).
    rewrite dict_set_fresh.
    2:{ intros Hk. apply NoDup_remove_2 in Hnd. apply Hnd.
        apply in_or_app. now left. }
    rewrite IH; [now rewrite <- app_assoc | | exact Hrest].
    unfold keys in *. rewrite map_app. cbn [map fst].
    rewrite <- app_assoc. exact Hnd.
Qed.

Lemma samples_by_node_passed {A V} (prefix : string) (node_names : list string)
      (predict : A -> V) (samples : list (string * A)) (d d' : dict V) :
  samples_by_node prefix node_names predict samples d = Passed d' ->
  Forall (fun kv => In (node_name_of prefix (fst kv)) node_names) samples
  /\ (forall k, In k (keys d') ->
                In k (keys d)
                \/ exists kv, In kv samples /\ k = node_name_of prefix (fst kv)).
Proof.
  revert d. induction samples as [|[m a] samples IH]; intros d H.
  - simpl in H. inversion H; subst. split; [constructor | auto].
  - cbn [samples_by_node] in H.
    destruct (existsb (String.eqb (node_name_of prefix m)) node_names) eqn:E;
      [|discriminate].
    apply existsb_eqb_In in E. destruct (IH _ H) as [Hall Hk]. split.
    + constructor; [exact E | exact Hall].
    + intros k Hin. destruct (Hk k Hin) as [Hd | (kv & Hkv & ->)].
      * apply dict_set_keys in Hd. destruct Hd as [-> | Hd]; [|now left].
        right. exists (m, a). split; [now left | reflexivity].
      * right. exists kv. split; [now right | reflexivity].
Qed.

(** X12.  The loops that build [raw_weights_dict] and [parent_temp_dict]:
    for samples stored under the names [<prefix>_<node>] of pairwise distinct
    nodes of the tree, none of which contains [<prefix>_], the dictionary
    built holds, in the same order, one entry per node, keyed by the node,
    with the prediction from that node's sample (the sample itself for the
    temperatures).  Whatever the stored names are, a dictionary is only
    returned when every recovered name passed the assertion, and then each
    of its keys names a node of the tree. *)
Theorem samples_reach_their_nodes {A V : Type}
        (prefix : string) (node_names : list string) (predict : A -> V) :
  (forall named : list (string * A),
      NoDup (map fst named) ->
      Forall (fun kv => In (fst kv) node_names
                        /\ occurs (prefix ++ "_") (fst kv) = false) named ->
      raw_weights_dict prefix node_names predict
                       (map (fun kv => ((prefix ++ "_") ++ fst kv, snd kv)%string)
                            named)
      = Passed (map (fun kv => (fst kv, predict (snd kv))) named)
      /\ parent_temp_dict prefix node_names
                          (map (fun kv => ((prefix ++ "_") ++ fst kv, snd kv)%string)
                               named)
         = Passed named)
  /\ (forall (samples : dict A) (d : dict V),
         raw_weights_dict prefix node_names predict samples = Passed d ->
         Forall (fun kv => In (node_name_of prefix (fst kv)) node_names) samples
         /\ Forall (fun k => In k node_names) (keys d)).
Proof.
  split.
  - intros named Hnd Hall. split.
    + unfold raw_weights_dict.
      now rewrite (samples_by_node_run prefix node_names predict named []).
    + unfold parent_temp_dict.
      rewrite (samples_by_node_run prefix node_names (fun s => s) named [])
        by assumption.
      cbn [app]. f_equal. rewrite <- (map_id named) at 2.
      apply map_ext. now intros [n a].
  - intros samples d H. unfold raw_weights_dict in H.
    destruct (samples_by_node_passed prefix node_names predict samples [] d H)
      as [Hall Hk].
    split; [exact Hall|]. apply Forall_forall. intros k Hin.
    destruct (Hk k Hin) as [[] | (kv & Hkv & ->)].
    rewrite Forall_forall in Hall. apply (Hall kv Hkv).
Qed.

(** X12, on the samples of the two base models and of the root. *)
Lemma samples_reach_their_nodes_witness :
  raw_weights_dict "base_weight" ["a"; "b"]%string np_T
                   [("base_weight_a", T2 [[0; 0]; [1; 1]]);
                    ("base_weight_b", T2 [[1; 0]; [0; 1]])]%string
  = Passed [("a", np_T (T2 [[0; 0]; [1; 1]])); ("b", np_T (T2 [[1; 0]; [0; 1]]))]%string
  /\ parent_temp_dict "temp" ["root"]%string [("temp_root", T1 [0; 0])]%string
     = Passed ExSample.temp_dict.
Proof.
  split.
  - destruct (@samples_reach_their_nodes tensor tensor
                "base_weight" ["a"; "b"]%string np_T) as [H _].
    apply (H ExSample.weight_gp_dict).
    + repeat constructor; simpl; intuition discriminate.
    + repeat constructor; simpl; tauto.
  - destruct (@samples_reach_their_nodes tensor tensor
                "temp" ["root"]%string np_T) as [H _].
    apply (H ExSample.temp_dict).
    + repeat constructor; simpl; intuition discriminate.
    + repeat constructor; simpl; tauto.
Defined.

(** ** The example scripts: positional states and keyword arguments *)

Lemma temp_name_inj (a b : string) :
  ("temp_" ++ a)%string = ("temp_" ++ b)%string -> a = b.
Proof. simpl. intros H. now inversion H. Qed.

Lemma node_specific_varnames_NoDup (parent_names nonroot_names : list string) :
  NoDup parent_names -> NoDup nonroot_names ->
  NoDup (node_specific_varnames parent_names nonroot_names).
Proof.
  intros Hp Hn. unfold node_specific_varnames. apply NoDup_app.
  - apply NoDup_map_injective; [exact temp_name_inj | exact Hp].
  - apply NoDup_map_injective; [exact base_weight_name_inj | exact Hn].
  - intros s Hs Hs'. apply in_map_iff in Hs, Hs'.
    destruct Hs as (p & <- & _). destruct Hs' as (n & E & _).
    simpl in E. discriminate E.
Qed.

Lemma combine_keys_NoDup {V} (names : list string) (args : list V) :
  NoDup names -> NoDup (map fst (combine names args)).
Proof.
  intros H. revert args. induction H as [|n names Hn _ IH]; intros args.
  - constructor.
  - destruct args as [|a args]; [constructor|]. cbn [combine map fst].
    constructor; [|apply IH].
    intros Hin. apply in_map_iff in Hin. destruct Hin as ([k v] & E & Hin).
    cbn [fst] in E. subst k. apply in_combine_l in Hin. contradiction.
Qed.

Lemma dict_of_pairs_NoDup {V} (pairs : list (string * V)) :
  NoDup (map fst pairs) -> dict_of_pairs pairs = pairs.
Proof.
  unfold dict_of_pairs.
  assert (H : forall d : dict V,
             NoDup (keys d ++ map fst pairs) ->
             fold_left (fun d kv => dict_set d (fst kv) (snd kv)) pairs d
             = d ++ pairs).
  { induction pairs as [|[k v] pairs IH]; intros d Hnd; cbn [fold_left fst snd].
    - now rewrite app_nil_r.
    - rewrite dict_set_fresh.
      2:{ intros Hk. cbn [map fst] in Hnd. apply NoDup_remove_2 in Hnd.
          apply Hnd. apply in_or_app. now left. }
      rewrite IH; [now rewrite <- app_assoc|].
      unfold keys in *. rewrite map_app. cbn [map fst].
      rewrite <- app_assoc. exact Hnd. }
  intros Hnd. apply (H []). exact Hnd.
Qed.

Lemma dict_find_combine {V} (names : list string) (args : list V)
      (i : nat) (k : string) :
  NoDup names -> nth_error names i = Some k ->
  dict_find (combine names args) k = nth_error args i.
Proof.
  intros H. revert args i. induction H as [|n names Hn _ IH]; intros args i Hi.
  - destruct i; discriminate.
  - destruct args as [|a args].
    + destruct i; reflexivity.
    + cbn [combine dict_find]. destruct i as [|i]; cbn [nth_error] in *.
      * inversion Hi; subst. now rewrite String.eqb_refl.
      * destruct (String.eqb_spec n k) as [->|_].
        -- exfalso. apply Hn. eapply nth_error_In. exact Hi.
        -- now apply IH.
Qed.

Lemma node_specific_varnames_shape (parent_names nonroot_names : list string)
      (k : string) :
  In k (node_specific_varnames parent_names nonroot_names) ->
  (exists p, k = "temp_" ++ p)%string \/ (exists n, k = "base_weight_" ++ n)%string.
Proof.
  unfold node_specific_varnames. intros H. apply in_app_or in H.
  destruct H as [H | H]; apply in_map_iff in H; destruct H as (x & <- & _); eauto.
Qed.

(** X13.  [target_log_prob_fn] binds the positional states to the names of
    the node-specific variables by position: for pairwise distinct parent
    nodes and pairwise distinct non-root nodes the names are pairwise
    distinct, so no state overwrites another; the state at position [i] is
    passed as [temp_<parent i>], the state at position [P + j], [P] the
    number of parents, as [base_weight_<node j>]; states beyond the names are
    dropped; and no name built this way equals a keyword that is passed to
    the log joint density explicitly. *)
Theorem positional_states_are_bound_by_name {V : Type}
        (parent_names nonroot_names : list string) (args : list V) :
  NoDup parent_names ->
  NoDup nonroot_names ->
  let kwargs := node_specific_kwargs parent_names nonroot_names args in
  NoDup (keys kwargs)
  /\ keys kwargs
     = firstn (length args) (node_specific_varnames parent_names nonroot_names)
  /\ (forall i p, nth_error parent_names i = Some p ->
                  dict_find kwargs ("temp_" ++ p) = nth_error args i)
  /\ (forall j n, nth_error nonroot_names j = Some n ->
                  dict_find kwargs ("base_weight_" ++ n)
                  = nth_error args (length parent_names + j))
  /\ (forall kw, In kw log_joint_keywords -> dict_find kwargs kw = None).
Proof.
  intros Hp Hn kwargs.
  pose proof (node_specific_varnames_NoDup parent_names nonroot_names Hp Hn) as Hnd.
  assert (E : kwargs
              = combine (node_specific_varnames parent_names nonroot_names) args).
  { unfold kwargs, node_specific_kwargs. apply dict_of_pairs_NoDup.
    now apply combine_keys_NoDup. }
  rewrite E. split; [now apply combine_keys_NoDup|]. split.
  { unfold keys. clear.
    generalize (node_specific_varnames parent_names nonroot_names) as names.
    intros names. revert args.
    induction names as [|n names IH]; intros [|a args]; simpl; try reflexivity.
    now rewrite IH. }
  split; [|split].
  - intros i p Hi. apply dict_find_combine; [exact Hnd|].
    unfold node_specific_varnames. rewrite nth_error_app1.
    + rewrite nth_error_map, Hi. reflexivity.
    + rewrite length_map. apply nth_error_Some. congruence.
  - intros j n Hj. apply dict_find_combine; [exact Hnd|].
    unfold node_specific_varnames. rewrite nth_error_app2.
    + rewrite length_map.
      replace (length parent_names + j - length parent_names)%nat with j by lia.
      rewrite nth_error_map, Hj. reflexivity.
    + rewrite length_map. lia.
  - intros kw Hkw. apply dict_find_not_in. intros Hin.
    unfold keys in Hin. apply in_map_iff in Hin.
    destruct Hin as ([k v] & Ek & Hin). cbn [fst] in Ek. subst k.
    apply in_combine_l in Hin.
    apply node_specific_varnames_shape in Hin.
    unfold log_joint_keywords in Hkw. simpl in Hkw.
    destruct Hin as [(p & ->) | (n & ->)]; simpl in Hkw;
      intuition discriminate.
Qed.

(** X13, on the tree of two families of the one-dimensional example. *)
Lemma positional_states_are_bound_by_name_witness :
  let kwargs :=
    node_specific_kwargs ["root"; "rbf"; "rquad"]%string
                         ["rbf"; "rquad"; "rbf_0.2"; "rquad1_0.1"]%string
                         [1; 2; 3; 4; 5; 6; 7]%nat in
  NoDup (keys kwargs)
  /\ keys kwargs
     = firstn 7 (node_specific_varnames
                   ["root"; "rbf"; "rquad"]%string
                   ["rbf"; "rquad"; "rbf_0.2"; "rquad1_0.1"]%string)
  /\ (forall i p, nth_error ["root"; "rbf"; "rquad"]%string i = Some p ->
                  dict_find kwargs ("temp_" ++ p)
                  = nth_error [1; 2; 3; 4; 5; 6; 7]%nat i)
  /\ (forall j n,
         nth_error ["rbf"; "rquad"; "rbf_0.2"; "rquad1_0.1"]%string j = Some n ->
         dict_find kwargs ("base_weight_" ++ n)
         = nth_error [1; 2; 3; 4; 5; 6; 7]%nat (3 + j))
  /\ (forall kw, In kw log_joint_keywords -> dict_find kwargs kw = None).
Proof.
  apply (positional_states_are_bound_by_name
           ["root"; "rbf"; "rquad"]%string
           ["rbf"; "rquad"; "rbf_0.2"; "rquad1_0.1"]%string
           [1; 2; 3; 4; 5; 6; 7]%nat).
  - repeat constructor; simpl; intuition discriminate.
  - repeat constructor; simpl; intuition discriminate.
Defined.

(** ** The model and its posterior samples *)

(** X14.  The flat model and the flat posterior compute the same ensemble
    mean.  Take the draw of the model's latent variables as one posterior
    sample: the raw weights of shape [(N, K)] as an array of shape
    [(1, N, K)], the temperature as a vector of one entry.  For a link
    function that treats this batch of one like the single draw,
    [sample_posterior_mean_flat] returns one row, and the mean of the
    observation ["y"] that [model_flat] returns is that row plus the draw of
    the residual process. *)
Theorem flat_posterior_mean_matches_model
        (mu sd : R) (env : latent) (X : tensor) (base_pred : dict tensor)
        (lw lr : R) (kern : kernel_func) (link_func : link) (ridge : R)
        (kw : kwargs) (tr : trace) (N D : nat) (w : matrix) :
  shape X = [N; D] ->
  Forall (fun kv => shape (snd kv) = [N]) base_pred ->
  base_pred <> [] ->
  NoDup (keys base_pred) ->
  is_matrix N (length (keys base_pred)) w ->
  let W_raw := raw_weight_matrix env N (keys base_pred) in
  let temp := env "temp" 0%nat in
  link_func (T2 W_raw) (tf_exp (T0 temp)) = Ok (T2 w) ->
  link_func (T3 [W_raw]) (tf_exp (T1 [temp])) = Ok (T3 [w]) ->
  exists y tr' m,
    model_flat mu sd env X base_pred None lw lr kern link_func ridge kw tr
    = (Ok y, tr')
    /\ sample_posterior_mean_flat base_pred (NdArray (T3 [W_raw])) (T1 [temp])
                                  link_func
       = Ok (T2 [m])
    /\ length m = N
    /\ mean (rv_dist y)
       = Some (T1 (map2 Rplus m (map (env "ensemble_resid") (seq 0 N)))).
Proof.
  intros HX Hs Hne Hnd Hw W_raw temp Hlink Hlink1.
  pose proof (model_flat_run mu sd env X base_pred lw lr kern link_func ridge kw
                             tr N D w HX Hs Hne Hnd Hlink Hw) as Hrun.
  cbv zeta in Hrun.
  eexists. eexists. exists (weighted_mean N base_pred (keys base_pred) w).
  split; [exact Hrun|]. split; [|split].
  - apply (flat_posterior_mean_run base_pred (NdArray (T3 [W_raw])) (T1 [temp])
                                   link_func 1 N [w] Hs Hne Hnd).
    + rewrite sample_posterior_weight_flat_ndarray. exact Hlink1.
    + split; [reflexivity|]. constructor; [exact Hw | constructor].
  - apply weighted_mean_length.
  - cbn [rv_dist mean]. do 2 f_equal. symmetry.
    apply weighted_plus_residual. now rewrite length_map, length_seq.
Qed.

(** X14, on two base models under the softmax link. *)
Lemma flat_posterior_mean_matches_model_witness :
  exists y tr' m,
    model_flat 0 1 Ex.env Ex.X Ex.base_pred None 1 1 rbf Ex.softmax 1 [] []
    = (Ok y, tr')
    /\ sample_posterior_mean_flat
         Ex.base_pred
         (NdArray (T3 [raw_weight_matrix Ex.env 2 (keys Ex.base_pred)]))
         (T1 [Ex.env "temp" 0%nat]) Ex.softmax
       = Ok (T2 [m])
    /\ length m = 2%nat
    /\ mean (rv_dist y)
       = Some (T1 (map2 Rplus m (map (Ex.env "ensemble_resid") (seq 0 2)))).
Proof.
  let r := eval lazy -[exp IZR Rplus Rmult Rdiv Rinv Ropp] in
             (Ex.softmax (T2 (raw_weight_matrix Ex.env 2 (keys Ex.base_pred)))
                         (tf_exp (T0 (Ex.env "temp" 0%nat))))
  in match r with
     | Ok (T2 ?w) =>
         apply (flat_posterior_mean_matches_model
                  0 1 Ex.env Ex.X Ex.base_pred 1 1 rbf Ex.softmax 1 [] [] 2 1 w)
     end.
  - reflexivity.
  - by_shape.
  - discriminate.
  - repeat constructor; simpl; intuition discriminate.
  - by_shape.
  - reflexivity.
  - reflexivity.
Defined.

(** ** The order of the predictions *)

Lemma mapM_ext {A B} (f g : A -> result B) (l : list A) :
  (forall a, f a = g a) -> mapM f l = mapM g l.
Proof.
  intros H. induction l as [|a l IH]; cbn [mapM]; [reflexivity|].
  now rewrite H, IH.
Qed.

Lemma dict_get_ext {V} (d d' : dict V) :
  (forall key, dict_find d key = dict_find d' key) ->
  forall key, dict_get d key = dict_get d' key.
Proof. intros H key. unfold dict_get. now rewrite H. Qed.

(** X15.  The tail-free functions look the predictions up by name: two
    dictionaries that hold the same predictions under the same names, in
    whatever order, give the same result in [sample_posterior_tailfree], and
    in [model_tailfree] when the predictions pass the dimension check and
    the prior does not tell the two apart.  [sample_posterior_mean_flat]
    matches predictions and weights by position instead: on some input,
    reordering the dictionary changes its result. *)
Theorem tailfree_looks_predictions_up_by_name
        (base_pred base_pred' : dict tensor) :
  (forall key, dict_find base_pred key = dict_find base_pred' key) ->
  (forall compute_cond_weights compute_leaf_weights X tree weight_gp_dict
          temp_dict resid_gp_sample kern ls_weight link_func ridge,
      sample_posterior_tailfree compute_cond_weights compute_leaf_weights
                                X base_pred tree weight_gp_dict temp_dict
                                resid_gp_sample kern ls_weight link_func ridge
      = sample_posterior_tailfree compute_cond_weights compute_leaf_weights
                                  X base_pred' tree weight_gp_dict temp_dict
                                  resid_gp_sample kern ls_weight link_func ridge)
  /\ (forall prior env X tree lw lr kw tr N D,
         shape X = [N; D] ->
         Forall (fun kv => shape (snd kv) = [N]) base_pred ->
         Forall (fun kv => shape (snd kv) = [N]) base_pred' ->
         prior X base_pred tree lw kw tr = prior X base_pred' tree lw kw tr ->
         model_tailfree prior env X base_pred tree lw lr kw tr
         = model_tailfree prior env X base_pred' tree lw lr kw tr)
  /\ (exists (bp bp' : dict tensor) weight_sample temp_sample link_func,
         (forall key, dict_find bp key = dict_find bp' key)
         /\ sample_posterior_mean_flat bp weight_sample temp_sample link_func
            <> sample_posterior_mean_flat bp' weight_sample temp_sample link_func).
Proof.
  intros Hsame. split; [|split].
  - intros. unfold sample_posterior_tailfree.
    destruct (compute_cond_weights X tree weight_gp_dict temp_dict kern
                                   link_func ridge ls_weight) as [cond|e];
      [|reflexivity].
    cbn [rbind].
    destruct (compute_leaf_weights cond tree) as [[W names]|e]; [|reflexivity].
    cbn [rbind].
    now rewrite (mapM_ext _ _ names (dict_get_ext base_pred base_pred' Hsame)).
  - intros prior env X tree lw lr kw tr N D HX Hs Hs' Hprior.
    unfold model_tailfree. rewrite HX. cbn [unpack2].
    rewrite !(bind_lift_ok (N, D)) by reflexivity.
    rewrite (bind_lift_ok tt) by (now apply check_dimension_ok).
    rewrite (bind_lift_ok tt) by (now apply check_dimension_ok).
    destruct (prior X base_pred' tree lw kw tr) as [[[W names]|e] tr1] eqn:E'.
    + rewrite (bind_ok _ _ _ _ _ Hprior), (bind_ok _ _ _ _ _ E'). cbv beta iota.
      rewrite (mapM_ext _ _ names (dict_get_ext base_pred base_pred' Hsame)).
      reflexivity.
    + now rewrite (bind_raise _ _ _ _ _ Hprior), (bind_raise _ _ _ _ _ E').
  - exists [("a", T1 [1]); ("b", T1 [2])]%string,
           [("b", T1 [2]); ("a", T1 [1])]%string,
           (NdArray (T3 [[[1; 0]]])), (T1 [0]), (fun logits _ => Ok logits).
    split.
    + intros key. cbn [dict_find].
      destruct (String.eqb_spec "a" key) as [Ea|_],
               (String.eqb_spec "b" key) as [Eb|_];
        try reflexivity. subst key. discriminate Eb.
    + assert (Ha : sample_posterior_mean_flat
                     [("a", T1 [1]); ("b", T1 [2])]%string
                     (NdArray (T3 [[[1; 0]]])) (T1 [0]) (fun logits _ => Ok logits)
                   = Ok (T2 [[1 * 1 + (2 * 0 + 0)]])) by reflexivity.
      assert (Hb : sample_posterior_mean_flat
                     [("b", T1 [2]); ("a", T1 [1])]%string
                     (NdArray (T3 [[[1; 0]]])) (T1 [0]) (fun logits _ => Ok logits)
                   = Ok (T2 [[2 * 1 + (1 * 0 + 0)]])) by reflexivity.
      rewrite Ha, Hb. intros E. inversion E as [E1]. lra.
Qed.

(** X15, on the two base models in both orders. *)
Lemma tailfree_looks_predictions_up_by_name_witness :
  sample_posterior_tailfree tail_free_compute_cond_weights
                            (tail_free.compute_leaf_weights 10)
                            Ex.X Ex.base_pred Ex.tree
                            ExSample.weight_gp_dict ExSample.temp_dict
                            (T2 ExSample.resid) rbf 1 Ex.softmax 1
  = sample_posterior_tailfree tail_free_compute_cond_weights
                              (tail_free.compute_leaf_weights 10)
                              Ex.X
                              [("b", T1 [30; 40]); ("a", T1 [10; 20])]%string
                              Ex.tree
                              ExSample.weight_gp_dict ExSample.temp_dict
                              (T2 ExSample.resid) rbf 1 Ex.softmax 1.
Proof.
  assert (H : forall key,
             dict_find Ex.base_pred key
             = dict_find [("b", T1 [30; 40]); ("a", T1 [10; 20])]%string key).
  { intros key. unfold Ex.base_pred. cbn [dict_find].
    destruct (String.eqb_spec "a" key) as [Ea|_],
             (String.eqb_spec "b" key) as [Eb|_];
      try reflexivity. subst key. discriminate Eb. }
  destruct (tailfree_looks_predictions_up_by_name
              Ex.base_pred [("b", T1 [30; 40]); ("a", T1 [10; 20])]%string H)
    as [Hpost _].
  apply Hpost.
Defined.
